(** * Dungeon adventure: a shallow embedding of [src/game.js]

    The engine of the game (items, inventory, player, enemies, combat,
    scenario sequencing and the controller's state machine) is transcribed
    function by function.  Conventions of the embedding:

    - JavaScript numbers that the program keeps integral (health, levels,
      experience, the player's stats, damage) are [Z]; the numbers that can
      be fractional (an enemy's strength and agility, probabilities, the
      values of [Math.random]) are exact rationals [Q].
    - An object with a fixed set of fields is a record; an object used as a
      dictionary ([tempStats], an item's stat bonus, the table built by
      [getEquippedStats]) is a [gmap string Z].
    - The closures stored in items and scenario choices are named by a
      constructor each and run by an interpreter ([Item_apply],
      [Game.runAction]).
    - [Math.random] reads an explicit source of draws; [setTimeout] adds to
      a counter of pending callbacks that a [Timer] event fires.
    - A [TypeError] (a method called on [null] or [undefined]) is the
      result [None] of the controller's monad.
    - Rendering is left out: it reads the state and never writes it. *)

From Stdlib Require Import ZArith QArith Qround Qminmax Lia Sorted.
From stdpp Require Import base option list gmap strings pretty.

Open Scope Z_scope.

(** ** Constants and configuration *)

Module CONFIG.
Definition INVENTORY_SLOTS : Z := 15.
Definition BASE_STAT_POINTS : Z := 3.
Definition XP_CURVE_MULTIPLIER : Z := 100.
Definition ESCAPE_BASE_CHANCE : Q := 0.3.
End CONFIG.

Inductive GAME_STATES : Type :=
| MENU | EXPLORING | COMBAT | SCENARIO | INVENTORY | LEVEL_UP | GAME_OVER | VICTORY.

#[global] Instance GAME_STATES_eq_dec : EqDecision GAME_STATES.
Proof. solve_decision. Defined.

(** ** The random source

    [Math.random()] returns the next draw of the source; a well-behaved
    source only holds values of the interval [0, 1). *)

Record Rng : Type := mkRng { source : nat → Q; drawn : nat }.

Definition Rand (A : Type) : Type := Rng → A * Rng.

Definition rret {A} (a : A) : Rand A := λ r, (a, r).

Definition rbind {A B} (m : Rand A) (k : A → Rand B) : Rand B :=
  λ r, let '(a, r') := m r in k a r'.

Declare Scope rand_scope.
Delimit Scope rand_scope with rand.
Notation "x <~ m ;; k" := (rbind m (λ x, k))
  (at level 100, m at next level, right associativity) : rand_scope.

Definition unit_interval (q : Q) : Prop := (0 <= q)%Q ∧ (q < 1)%Q.

Definition fair (r : Rng) : Prop := ∀ n, unit_interval (source r n).

Definition Math_random : Rand Q :=
  λ r, (source r (drawn r), mkRng (source r) (S (drawn r))).

(** [a < b] on JavaScript numbers, as a boolean. *)
Definition Qltb (a b : Q) : bool := negb (Qle_bool b a).

(** ** Utility functions *)

Definition clamp (value min max : Z) : Z := Z.max min (Z.min max value).

Definition randomInt (min max : Z) : Rand Z :=
  (r <~ Math_random ;;
   rret (Qfloor (r * inject_Z (max - min + 1)) + min))%rand.

(** [array[Math.floor(Math.random() * array.length)]]; [None] is
    [undefined], the value of an index outside the array. *)
Definition randomChoice {A} (array : list A) : Rand (option A) :=
  (r <~ Math_random ;;
   let i := Qfloor (r * inject_Z (Z.of_nat (length array))) in
   rret (if decide (0 ≤ i) then array !! Z.to_nat i else None))%rand.

(** [Math.floor(100 * Math.pow(level, 1.5))].  For a level [l >= 0] the
    real number [100 * l^1.5] is the square root of [100^2 * l^3], and its
    floor is the integer square root. *)
Definition calculateXPForLevel (level : Z) : Z :=
  Z.sqrt (CONFIG.XP_CURVE_MULTIPLIER ^ 2 * level ^ 3).

(** [Math.floor(n * 0.5)] for an integral [n]. *)
Definition floor_half (n : Z) : Z := Qfloor (inject_Z n * 0.5).

(** ** Items

    An item's effect is either an object of stat bonuses or a function of
    the player; the program has two such functions, those of the health
    potion and of the strength elixir. *)

Inductive EffectFn : Type := restore30 | strengthPlus5.

Inductive Effect : Type :=
| Bonus (stats : gmap string Z)
| Fn (f : EffectFn).

Module Item.
Record t : Type := mk {
  name : string;
  type : string;  (* weapon, armor, consumable, artifact *)
  description : string;
  effect : Effect
}.
End Item.

#[global] Instance EffectFn_eq_dec : EqDecision EffectFn.
Proof. solve_decision. Defined.
#[global] Instance Effect_eq_dec : EqDecision Effect.
Proof. solve_decision. Defined.
(** Items are immutable and the program only creates the eleven entries of
    [ITEM_TEMPLATES], which differ pairwise; comparing two references
    ([indexOf], [includes]) is comparing the records. *)
#[global] Instance Item_eq_dec : EqDecision Item.t.
Proof. solve_decision. Defined.

Module ITEM_TEMPLATES.
Definition rustyDagger := Item.mk "Rusty Dagger" "weapon" "A worn blade"
  (Bonus {[ "strength" := 2 ]}).
Definition ironSword := Item.mk "Iron Sword" "weapon" "A reliable weapon"
  (Bonus {[ "strength" := 5 ]}).
Definition flameBlade := Item.mk "Flame Blade" "weapon" "Burns with inner fire"
  (Bonus {[ "strength" := 8; "intelligence" := 3 ]}).
Definition shadowDagger := Item.mk "Shadow Dagger" "weapon" "Strikes from darkness"
  (Bonus {[ "strength" := 6; "agility" := 4 ]}).
Definition leatherArmor := Item.mk "Leather Armor" "armor" "Basic protection"
  (Bonus {[ "defense" := 3 ]}).
Definition chainmail := Item.mk "Chainmail" "armor" "Solid metal links"
  (Bonus {[ "defense" := 6 ]}).
Definition crystalPlate := Item.mk "Crystal Plate" "armor" "Magical protection"
  (Bonus {[ "defense" := 8; "intelligence" := 2 ]}).
Definition healthPotion := Item.mk "Health Potion" "consumable" "Restores 30 HP"
  (Fn restore30).
Definition strengthElixir := Item.mk "Strength Elixir" "consumable" "Temporarily +5 STR"
  (Fn strengthPlus5).
Definition luckyCoin := Item.mk "Lucky Coin" "artifact" "Improves fortune"
  (Bonus {[ "agility" := 2 ]}).
Definition ancientTome := Item.mk "Ancient Tome" "artifact" "Contains knowledge"
  (Bonus {[ "intelligence" := 4 ]}).
End ITEM_TEMPLATES.

(** ** Inventory *)

Module Inventory.
(** [this.equipped]: one field per slot, [None] for [null]. *)
Record Equipped : Type := mkEquipped {
  weapon : option Item.t;
  armor : option Item.t;
  artifact : option Item.t
}.

Record t : Type := mk {
  items : list Item.t;
  maxSlots : Z;
  equipped : Equipped
}.

(** [this.equipped[slot]] for a slot given by name; a name that is not a
    field reads [undefined] (the names that every object inherits, such as
    [toString], are not slots and are left out). *)
Definition slot_get (slot : string) (e : Equipped) : option Item.t :=
  if decide (slot = "weapon") then weapon e
  else if decide (slot = "armor") then armor e
  else if decide (slot = "artifact") then artifact e
  else None.

(** [this.equipped[slot] = v]; the program only writes the three fields. *)
Definition slot_set (slot : string) (v : option Item.t) (e : Equipped) : Equipped :=
  if decide (slot = "weapon") then mkEquipped v (armor e) (artifact e)
  else if decide (slot = "armor") then mkEquipped (weapon e) v (artifact e)
  else if decide (slot = "artifact") then mkEquipped (weapon e) (armor e) v
  else e.

Definition new (maxSlots : Z) : t := mk [] maxSlots (mkEquipped None None None).

Definition addItem (item : Item.t) (inv : t) : bool * t :=
  if decide (maxSlots inv ≤ Z.of_nat (length (items inv))) then (false, inv)
  else (true, mk (items inv ++ [item]) (maxSlots inv) (equipped inv)).

(** [splice(indexOf(item), 1)]: drop the first occurrence. *)
Fixpoint remove_first (item : Item.t) (l : list Item.t) : list Item.t :=
  match l with
  | [] => []
  | x :: l' => if decide (x = item) then l' else x :: remove_first item l'
  end.

Definition removeItem (item : Item.t) (inv : t) : bool * t :=
  if decide (item ∈ items inv)
  then (true, mk (remove_first item (items inv)) (maxSlots inv) (equipped inv))
  else (false, inv).

(** The slot an item type is worn in, [None] for [null]. *)
Definition slot_of (type : string) : option string :=
  if decide (type = "weapon") then Some "weapon"
  else if decide (type = "armor") then Some "armor"
  else if decide (type = "artifact") then Some "artifact"
  else None.

Definition equip (item : Item.t) (inv : t) : bool * t :=
  if decide (item ∈ items inv) then
    match slot_of (Item.type item) with
    | Some slot =>
        let inv1 :=
          match slot_get slot (equipped inv) with
          | Some worn => snd (addItem worn inv)
          | None => inv
          end in
        let inv2 := mk (items inv1) (maxSlots inv1)
                       (slot_set slot (Some item) (equipped inv1)) in
        (true, snd (removeItem item inv2))
    | None => (false, inv)
    end
  else (false, inv).

Definition unequip (slot : string) (inv : t) : bool * t :=
  match slot_get slot (equipped inv) with
  | Some item =>
      let inv1 := mk (items inv) (maxSlots inv) (slot_set slot None (equipped inv)) in
      (true, snd (addItem item inv1))
  | None => (false, inv)
  end.

(** One round of the inner loop of [getEquippedStats]:
    [stats[stat] = (stats[stat] || 0) + item.effect[stat]] for every key
    of the effect, when the effect is an object. *)
Definition add_bonus (stats : gmap string Z) (slot : option Item.t) : gmap string Z :=
  match slot with
  | Some item =>
      match Item.effect item with
      | Bonus b => union_with (λ s v, Some (s + v)) stats b
      | Fn _ => stats
      end
  | None => stats
  end.

Definition getEquippedStats (inv : t) : gmap string Z :=
  let stats : gmap string Z :=
    {[ "strength" := 0; "defense" := 0; "agility" := 0; "intelligence" := 0 ]} in
  foldl add_bonus stats
    [weapon (equipped inv); armor (equipped inv); artifact (equipped inv)].
End Inventory.

(** ** Player *)

Module Player.
(** [this.baseStats] and the result of [getTotalStats]: the four stats. *)
Record Stats : Type := mkStats {
  strength : Z;
  defense : Z;
  agility : Z;
  intelligence : Z
}.

Record t : Type := mk {
  level : Z;
  xp : Z;
  health : Z;
  maxHealth : Z;
  baseStats : Stats;
  statPoints : Z;
  tempStats : gmap string Z;  (* for buffs *)
  inventory : Inventory.t;
  chosenPath : option string
}.

(** [stats[stat]] for a stat given by name; [None] when the object has no
    such property, so that [hasOwnProperty(stat)] is [is_Some]. *)
Definition stat_get (stat : string) (s : Stats) : option Z :=
  if decide (stat = "strength") then Some (strength s)
  else if decide (stat = "defense") then Some (defense s)
  else if decide (stat = "agility") then Some (agility s)
  else if decide (stat = "intelligence") then Some (intelligence s)
  else None.

Definition stat_set (stat : string) (v : Z) (s : Stats) : Stats :=
  if decide (stat = "strength") then mkStats v (defense s) (agility s) (intelligence s)
  else if decide (stat = "defense") then mkStats (strength s) v (agility s) (intelligence s)
  else if decide (stat = "agility") then mkStats (strength s) (defense s) v (intelligence s)
  else if decide (stat = "intelligence") then mkStats (strength s) (defense s) (agility s) v
  else s.

Definition hasOwnProperty (stat : string) (s : Stats) : bool :=
  bool_decide (is_Some (stat_get stat s)).

(** Field updates. *)
Definition with_xp (v : Z) (p : t) : t :=
  mk (level p) v (health p) (maxHealth p) (baseStats p) (statPoints p)
     (tempStats p) (inventory p) (chosenPath p).
Definition with_health (v : Z) (p : t) : t :=
  mk (level p) (xp p) v (maxHealth p) (baseStats p) (statPoints p)
     (tempStats p) (inventory p) (chosenPath p).
Definition with_baseStats (v : Stats) (p : t) : t :=
  mk (level p) (xp p) (health p) (maxHealth p) v (statPoints p)
     (tempStats p) (inventory p) (chosenPath p).
Definition with_statPoints (v : Z) (p : t) : t :=
  mk (level p) (xp p) (health p) (maxHealth p) (baseStats p) v
     (tempStats p) (inventory p) (chosenPath p).
Definition with_tempStats (v : gmap string Z) (p : t) : t :=
  mk (level p) (xp p) (health p) (maxHealth p) (baseStats p) (statPoints p)
     v (inventory p) (chosenPath p).
Definition with_inventory (v : Inventory.t) (p : t) : t :=
  mk (level p) (xp p) (health p) (maxHealth p) (baseStats p) (statPoints p)
     (tempStats p) v (chosenPath p).
Definition with_chosenPath (v : option string) (p : t) : t :=
  mk (level p) (xp p) (health p) (maxHealth p) (baseStats p) (statPoints p)
     (tempStats p) (inventory p) v.

(** [new Player()], with the starting equipment. *)
Definition new : t :=
  let inv0 := Inventory.new CONFIG.INVENTORY_SLOTS in
  let inv1 := snd (Inventory.addItem ITEM_TEMPLATES.rustyDagger inv0) in
  let inv2 := snd (Inventory.addItem ITEM_TEMPLATES.healthPotion inv1) in
  mk 1 0 100 100 (mkStats 5 5 5 5) 0 ∅ inv2 None.

(** [m[stat] || 0]. *)
Definition or0 (v : option Z) : Z := default 0 v.

Definition getTotalStats (p : t) : Stats :=
  let equipped := Inventory.getEquippedStats (inventory p) in
  let total (stat : string) (base : Z) : Z :=
    base + or0 (equipped !! stat) + or0 (tempStats p !! stat) in
  mkStats (total "strength" (strength (baseStats p)))
          (total "defense" (defense (baseStats p)))
          (total "agility" (agility (baseStats p)))
          (total "intelligence" (intelligence (baseStats p))).

Definition levelUp (p : t) : t :=
  let b := baseStats p in
  mk (level p + 1) (xp p) (maxHealth p + 10) (maxHealth p + 10)
     (mkStats (strength b + 1) (defense b + 1) (agility b + 1) (intelligence b + 1))
     (statPoints p + CONFIG.BASE_STAT_POINTS)
     (tempStats p) (inventory p) (chosenPath p).

Definition addXP (amount : Z) (p : t) : bool * t :=
  let p1 := with_xp (xp p + amount) p in
  let xpNeeded := calculateXPForLevel (level p1 + 1) in
  if decide (xpNeeded ≤ xp p1) then (true, levelUp p1) else (false, p1).

Definition allocateStat (stat : string) (p : t) : bool * t :=
  if decide (0 < statPoints p) then
    match stat_get stat (baseStats p) with
    | Some v =>
        (true, with_statPoints (statPoints p - 1)
                 (with_baseStats (stat_set stat (v + 1) (baseStats p)) p))
    | None => (false, p)
    end
  else (false, p).

Definition takeDamage (amount : Z) (p : t) : Z * t :=
  let stats := getTotalStats p in
  let reduction := floor_half (defense stats) in
  let damage := Z.max 1 (amount - reduction) in
  (damage, with_health (Z.max 0 (health p - damage)) p).

Definition calculateDamage (p : t) : Rand Z :=
  let stats := getTotalStats p in
  let baseDamage := strength stats * 2 in
  (variance <~ randomInt (-2) 3 ;;
   rret (Z.max 1 (baseDamage + variance)))%rand.

Definition calculateSpecialDamage (p : t) : Rand Z :=
  let stats := getTotalStats p in
  let baseDamage := (inject_Z (strength stats) + inject_Z (intelligence stats) * 1.5)%Q in
  (variance <~ randomInt (-3) 5 ;;
   rret (Z.max 1 (Qfloor (baseDamage + inject_Z variance))))%rand.

Definition getDodgeChance (p : t) : Q :=
  let stats := getTotalStats p in
  Qmin 0.4 (inject_Z (agility stats) * 0.02).

Definition isAlive (p : t) : bool := bool_decide (0 < health p).
End Player.

(** [effect(player)] for the two effect functions of [ITEM_TEMPLATES]:
    the message returned and the player after it. *)
Definition Item_apply (f : EffectFn) (p : Player.t) : string * Player.t :=
  match f with
  | restore30 =>
      ("Restored 30 HP",
       Player.with_health (Z.min (Player.maxHealth p) (Player.health p + 30)) p)
  | strengthPlus5 =>
      ("Strength increased by 5",
       Player.with_tempStats
         (<["strength" := Player.or0 (Player.tempStats p !! "strength") + 5]>
            (Player.tempStats p)) p)
  end.

(** [Item.use(player)]: the effect of a consumable, run on the player;
    [None] is the result [false]. *)
Definition Item_use (item : Item.t) (p : Player.t) : option string * Player.t :=
  match Item.effect item with
  | Fn f =>
      if decide (Item.type item = "consumable")
      then let '(msg, p') := Item_apply f p in (Some msg, p')
      else (None, p)
  | Bonus _ => (None, p)
  end.

(** ** Enemy

    Every enemy is built by one of the six templates from an integral
    level: health, defense and the experience reward are then integers,
    strength and agility can be half-integers. *)

Inductive EnemyAction : Type := attack | special.

Module Enemy.
Record t : Type := mk {
  name : string;
  level : Z;
  type : string;  (* light, shadow *)
  maxHealth : Z;
  health : Z;
  strength : Q;
  defense : Z;
  agility : Q;
  xpReward : Z;
  loot : list Item.t
}.

(** [new Enemy(name, level, type, stats)]. *)
Definition new (name : string) (level : Z) (type : string)
    (health : Z) (strength : Q) (defense : Z) (agility : Q) (xpReward : Z)
    (loot : list Item.t) : t :=
  mk name level type health health strength defense agility xpReward loot.

Definition with_health (v : Z) (e : t) : t :=
  mk (name e) (level e) (type e) (maxHealth e) v (strength e) (defense e)
     (agility e) (xpReward e) (loot e).

Definition takeDamage (amount : Z) (e : t) : Z * t :=
  let reduction := floor_half (defense e) in
  let damage := Z.max 1 (amount - reduction) in
  (damage, with_health (Z.max 0 (health e - damage)) e).

Definition calculateDamage (e : t) : Rand Z :=
  let baseDamage := (strength e * 1.5)%Q in
  (variance <~ randomInt (-2) 2 ;;
   rret (Z.max 1 (Qfloor (baseDamage + inject_Z variance))))%rand.

Definition getDodgeChance (e : t) : Q :=
  Qmin 0.3 (agility e * 0.015).

(** Simple AI: attack more when the player is low, special when high.
    The ratio is taken for a player whose maximal health is not 0, as it
    is from [new Player()] on. *)
Definition chooseAction (player : Player.t) (e : t) : Rand EnemyAction :=
  let playerHealthPercent :=
    (inject_Z (Player.health player) / inject_Z (Player.maxHealth player))%Q in
  (rand <~ Math_random ;;
   rret (if Qltb playerHealthPercent 0.3 && Qltb rand 0.7 then attack
         else if Qltb 0.7 playerHealthPercent && Qltb rand 0.3 then special
         else attack))%rand.

Definition isAlive (e : t) : bool := bool_decide (0 < health e).
End Enemy.

Module ENEMY_TEMPLATES.
(* Light path enemies *)
Definition goblin (level : Z) : Enemy.t :=
  Enemy.new "Goblin" level "light"
    (30 + level * 5) (inject_Z (3 + level)) (2 + level) (inject_Z (4 + level))
    (20 + level * 5) [ITEM_TEMPLATES.healthPotion].
Definition knight (level : Z) : Enemy.t :=
  Enemy.new "Corrupted Knight" level "light"
    (50 + level * 8) (inject_Z (6 + level * 2)) (5 + level * 2) (inject_Z (2 + level))
    (40 + level * 8) [ITEM_TEMPLATES.ironSword; ITEM_TEMPLATES.chainmail].
Definition lightGuardian (level : Z) : Enemy.t :=
  Enemy.new "Light Guardian" level "light"
    (80 + level * 10) (inject_Z (8 + level * 2)) (6 + level * 2) (inject_Z (3 + level))
    (60 + level * 10) [ITEM_TEMPLATES.flameBlade; ITEM_TEMPLATES.crystalPlate].
(* Shadow path enemies *)
Definition shadowBeast (level : Z) : Enemy.t :=
  Enemy.new "Shadow Beast" level "shadow"
    (35 + level * 6) (5 + inject_Z level * 1.5)%Q (3 + level)
    (6 + inject_Z level * 1.5)%Q
    (25 + level * 6) [ITEM_TEMPLATES.healthPotion; ITEM_TEMPLATES.luckyCoin].
Definition darkMage (level : Z) : Enemy.t :=
  Enemy.new "Dark Mage" level "shadow"
    (40 + level * 7) (inject_Z (4 + level)) (3 + level) (inject_Z (5 + level))
    (45 + level * 9) [ITEM_TEMPLATES.ancientTome; ITEM_TEMPLATES.strengthElixir].
Definition shadowLord (level : Z) : Enemy.t :=
  Enemy.new "Shadow Lord" level "shadow"
    (100 + level * 12) (10 + inject_Z level * 2.5)%Q (7 + level * 2)
    (inject_Z (8 + level * 2))
    (80 + level * 15) [ITEM_TEMPLATES.shadowDagger; ITEM_TEMPLATES.ancientTome].

(** [ENEMY_TEMPLATES[enemyType]]. *)
Definition lookup (enemyType : string) : option (Z → Enemy.t) :=
  if decide (enemyType = "goblin") then Some goblin
  else if decide (enemyType = "knight") then Some knight
  else if decide (enemyType = "lightGuardian") then Some lightGuardian
  else if decide (enemyType = "shadowBeast") then Some shadowBeast
  else if decide (enemyType = "darkMage") then Some darkMage
  else if decide (enemyType = "shadowLord") then Some shadowLord
  else None.
End ENEMY_TEMPLATES.

(** ** Combat system

    The methods receive the player and the enemy and mutate one of them
    and the combat system itself; here they return the objects they
    changed. *)

Module CombatSystem.
Record t : Type := mk {
  combatLog : list string;
  playerTurn : bool;
  turnCount : Z
}.

(** The objects [{ hit, damage }] returned by the attack methods. *)
Record Result : Type := mkResult { hit : bool; damage : Z }.

Definition new : t := mk [] true 0.

(** [push], then [shift] once the log is longer than eight entries. *)
Definition addLog (message : string) (cs : t) : t :=
  let log := combatLog cs ++ [message] in
  mk (if decide (8 < length log)%nat then tail log else log)
     (playerTurn cs) (turnCount cs).

Definition with_playerTurn (v : bool) (cs : t) : t :=
  mk (combatLog cs) v (turnCount cs).

Definition startCombat (player : Player.t) (enemy : Enemy.t) (cs : t) : t :=
  let cs1 := addLog ("Combat started with " +:+ Enemy.name enemy +:+ "!") (mk [] true 0) in
  (* Determine first turn based on agility *)
  let playerStats := Player.getTotalStats player in
  if Qltb (inject_Z (Player.agility playerStats)) (Enemy.agility enemy)
  then addLog (Enemy.name enemy +:+ " strikes first!") (with_playerTurn false cs1)
  else cs1.

Definition playerAttack (player : Player.t) (enemy : Enemy.t) (cs : t)
    : Rand (Result * Enemy.t * t) :=
  (damage <~ Player.calculateDamage player ;;
   r <~ Math_random ;;
   if Qltb r (Enemy.getDodgeChance enemy)
   then rret (mkResult false 0, enemy,
              addLog (Enemy.name enemy +:+ " dodged your attack!") cs)
   else
     let '(actualDamage, enemy') := Enemy.takeDamage damage enemy in
     rret (mkResult true actualDamage, enemy',
           addLog ("You dealt " +:+ pretty actualDamage +:+ " damage to "
                   +:+ Enemy.name enemy +:+ "!") cs))%rand.

Definition playerSpecialAttack (player : Player.t) (enemy : Enemy.t) (cs : t)
    : Rand (Result * Enemy.t * t) :=
  (damage <~ Player.calculateSpecialDamage player ;;
   r <~ Math_random ;;
   if Qltb r (Enemy.getDodgeChance enemy * 0.5)
   then rret (mkResult false 0, enemy,
              addLog (Enemy.name enemy +:+ " dodged your special attack!") cs)
   else
     let '(actualDamage, enemy') := Enemy.takeDamage damage enemy in
     rret (mkResult true actualDamage, enemy',
           addLog ("Your special attack dealt " +:+ pretty actualDamage
                   +:+ " damage!") cs))%rand.

Definition enemyTurn (player : Player.t) (enemy : Enemy.t) (cs : t)
    : Rand (Result * Player.t * t) :=
  (action <~ Enemy.chooseAction player enemy ;;
   match action with
   | special =>
       d <~ Enemy.calculateDamage enemy ;;
       let damage := Qfloor (inject_Z d * 1.5) in
       r <~ Math_random ;;
       if Qltb r (Player.getDodgeChance player * 0.7)
       then rret (mkResult false 0, player,
                  addLog ("You dodged " +:+ Enemy.name enemy +:+ "'s special attack!") cs)
       else
         let '(actualDamage, player') := Player.takeDamage damage player in
         rret (mkResult true actualDamage, player',
               addLog (Enemy.name enemy +:+ "'s special attack dealt "
                       +:+ pretty actualDamage +:+ " damage!") cs)
   | attack =>
       damage <~ Enemy.calculateDamage enemy ;;
       r <~ Math_random ;;
       if Qltb r (Player.getDodgeChance player)
       then rret (mkResult false 0, player,
                  addLog ("You dodged " +:+ Enemy.name enemy +:+ "'s attack!") cs)
       else
         let '(actualDamage, player') := Player.takeDamage damage player in
         rret (mkResult true actualDamage, player',
               addLog (Enemy.name enemy +:+ " dealt " +:+ pretty actualDamage
                       +:+ " damage!") cs)
   end)%rand.

Definition attemptEscape (player : Player.t) (enemy : option Enemy.t) (cs : t)
    : Rand (bool * t) :=
  let playerStats := Player.getTotalStats player in
  let escapeChance :=
    (CONFIG.ESCAPE_BASE_CHANCE + inject_Z (Player.agility playerStats) * 0.02)%Q in
  (r <~ Math_random ;;
   if Qltb r escapeChance
   then rret (true, addLog "You successfully escaped!" cs)
   else rret (false, addLog "Escape failed!" cs))%rand.

Definition endTurn (cs : t) : t :=
  mk (combatLog cs) (negb (playerTurn cs)) (turnCount cs + 1).
End CombatSystem.

(** ** Scenario system

    A choice's [action] is one of the fourteen closures of [SCENARIOS];
    [Game.runAction] runs them.  A scenario is either one of the narrative
    [Scenario] objects or an object built for an encounter, with
    [combat: true], its enemy and, for the boss, [isBoss: true]. *)

Inductive Path : Type := light | shadow.

Inductive ChoiceAction : Type :=
| takeLight | takeShadow
| offerPrayer | searchTreasure | continueForward
| takeSword | takeArmor | leaveAlone
| stepIntoCircle | studySymbols | destroyCircle
| prepareForCombat | useStealth | chargeForward.

Record Choice : Type := mkChoice { text : string; action : ChoiceAction }.

Inductive Scenario : Type :=
| Narrative (title description : string) (choices : list Choice)
| Encounter (title description : string) (enemy : Enemy.t) (isBoss : bool).

Definition isBoss (s : Scenario) : bool :=
  match s with
  | Encounter _ _ _ b => b
  | Narrative _ _ _ => false
  end.

Module SCENARIOS.
Definition entrance : Scenario :=
  Narrative "The Dungeon Entrance"
    "You stand before a massive dungeon entrance. Two paths stretch before you: a bright corridor filled with golden light, and a dark passage shrouded in shadow."
    [mkChoice "Take the Path of Light" takeLight;
     mkChoice "Take the Path of Shadow" takeShadow].
Definition lightShrine : Scenario :=
  Narrative "Ancient Shrine"
    "You discover a shrine bathed in light. An offering bowl sits before a statue."
    [mkChoice "Offer a prayer (costs 10 HP)" offerPrayer;
     mkChoice "Search for treasure" searchTreasure;
     mkChoice "Continue forward" continueForward].
Definition lightTreasure : Scenario :=
  Narrative "Golden Chamber"
    "A room filled with treasures! But they may be cursed..."
    [mkChoice "Take the golden sword" takeSword;
     mkChoice "Take the armor" takeArmor;
     mkChoice "Leave it alone" leaveAlone].
Definition shadowRitual : Scenario :=
  Narrative "Ritual Chamber"
    "Dark symbols cover the walls. A ritual circle pulses with energy."
    [mkChoice "Step into the circle" stepIntoCircle;
     mkChoice "Study the symbols" studySymbols;
     mkChoice "Destroy the circle" destroyCircle].
Definition shadowAmbush : Scenario :=
  Narrative "Dark Ambush"
    "Shadows move unnaturally. You sense danger!"
    [mkChoice "Prepare for combat" prepareForCombat;
     mkChoice "Use stealth (requires 10+ Agility)" useStealth;
     mkChoice "Charge forward" chargeForward].

(** [SCENARIOS[scenarioType]]. *)
Definition lookup (scenarioType : string) : option Scenario :=
  if decide (scenarioType = "entrance") then Some entrance
  else if decide (scenarioType = "lightShrine") then Some lightShrine
  else if decide (scenarioType = "lightTreasure") then Some lightTreasure
  else if decide (scenarioType = "shadowRitual") then Some shadowRitual
  else if decide (scenarioType = "shadowAmbush") then Some shadowAmbush
  else None.
End SCENARIOS.

Module ScenarioManager.
Record t : Type := mk {
  currentPath : option Path;
  scenarioIndex : nat;
  currentScenario : Scenario;
  lightPathSequence : list string;
  shadowPathSequence : list string
}.

Definition new : t :=
  mk None 0 SCENARIOS.entrance
     ["lightShrine"; "combat"; "lightTreasure"; "combat"; "bossCombat"]
     ["shadowRitual"; "combat"; "shadowAmbush"; "combat"; "bossCombat"].

Definition with_currentPath (v : option Path) (sm : t) : t :=
  mk v (scenarioIndex sm) (currentScenario sm) (lightPathSequence sm) (shadowPathSequence sm).
Definition with_scenarioIndex (v : nat) (sm : t) : t :=
  mk (currentPath sm) v (currentScenario sm) (lightPathSequence sm) (shadowPathSequence sm).

(** The sequence of the chosen path:
    [currentPath === 'light' ? lightPathSequence : shadowPathSequence]. *)
Definition sequence (path : Path) (sm : t) : list string :=
  match path with
  | light => lightPathSequence sm
  | shadow => shadowPathSequence sm
  end.

(** The result [None] is the [TypeError] of calling
    [ENEMY_TEMPLATES[undefined]]. *)
Definition createCombatScenario (level : Z) (sm : t) : Rand (option Scenario) :=
  (enemyType <~ (match currentPath sm with
                 | Some light => randomChoice ["goblin"; "knight"]
                 | _ => randomChoice ["shadowBeast"; "darkMage"]
                 end) ;;
   rret (template ← enemyType ≫= ENEMY_TEMPLATES.lookup;
         let enemy : Enemy.t := template level in
         Some (Encounter "Enemy Encounter!"
                 ("A " +:+ Enemy.name enemy +:+ " blocks your path!") enemy false)))%rand.

Definition createBossScenario (level : Z) (sm : t) : Scenario :=
  let boss :=
    match currentPath sm with
    | Some light => ENEMY_TEMPLATES.lightGuardian (level + 1)
    | _ => ENEMY_TEMPLATES.shadowLord (level + 1)
    end in
  Encounter "BOSS BATTLE!" ("The " +:+ Enemy.name boss +:+ " emerges!") boss true.

(** [getNextScenario(game)] reads [game.player.level].  The outer [None]
    is a [TypeError]; the inner one is the result [null] (or [undefined]),
    which the caller tests with [!]. *)
Definition getNextScenario (level : Z) (sm : t) : Rand (option (option Scenario * t)) :=
  match currentPath sm with
  | None => rret (Some (Some SCENARIOS.entrance, sm))
  | Some path =>
      match sequence path sm !! scenarioIndex sm with
      | None => rret (Some (None, sm))  (* Game complete *)
      | Some scenarioType =>
          let sm' := with_scenarioIndex (S (scenarioIndex sm)) sm in
          if decide (scenarioType = "combat") then
            (s <~ createCombatScenario level sm' ;;
             rret (s' ← s; Some (Some s', sm')))%rand
          else if decide (scenarioType = "bossCombat") then
            rret (Some (Some (createBossScenario level sm'), sm'))
          else rret (Some (SCENARIOS.lookup scenarioType, sm'))
      end
  end.

Definition reset (sm : t) : t :=
  mk None 0 SCENARIOS.entrance (lightPathSequence sm) (shadowPathSequence sm).
End ScenarioManager.

(** ** Game controller

    The record holds the fields of the [Game] object and, last, the two
    parts of the environment the controller acts on: the random source
    and the number of [setTimeout] callbacks not yet fired.
    [currentEnemy] is the enemy object that combat mutates; the [enemy] of
    an encounter scenario is only read when the combat starts. *)

Inductive Event : Type :=
| Key (now : Z) (key : string)  (* [handleKeyPress(key)] at time [Date.now()] *)
| Timer.                        (* a pending [setTimeout] callback fires *)

Module Game.
Record t : Type := mk {
  state : GAME_STATES;
  player : Player.t;
  combatSystem : CombatSystem.t;
  scenarioManager : ScenarioManager.t;
  currentEnemy : option Enemy.t;
  currentScenario : option Scenario;
  selectedOption : Z;
  inventorySelection : Z;
  statSelection : Z;
  lastKeyPress : Z;
  keyDelay : Z;
  messageLog : list string;
  gameResult : option string;
  rng : Rng;
  timers : nat
}.

(** [new Game(canvas)], in a given environment. *)
Definition new (r : Rng) : t :=
  mk MENU Player.new CombatSystem.new ScenarioManager.new None None 0 0 0
     0 200 [] None r 0.

Definition with_state (v : GAME_STATES) (g : t) : t :=
  mk v (player g) (combatSystem g) (scenarioManager g) (currentEnemy g)
     (currentScenario g) (selectedOption g) (inventorySelection g) (statSelection g)
     (lastKeyPress g) (keyDelay g) (messageLog g) (gameResult g) (rng g) (timers g).
Definition with_player (v : Player.t) (g : t) : t :=
  mk (state g) v (combatSystem g) (scenarioManager g) (currentEnemy g)
     (currentScenario g) (selectedOption g) (inventorySelection g) (statSelection g)
     (lastKeyPress g) (keyDelay g) (messageLog g) (gameResult g) (rng g) (timers g).
Definition with_combatSystem (v : CombatSystem.t) (g : t) : t :=
  mk (state g) (player g) v (scenarioManager g) (currentEnemy g)
     (currentScenario g) (selectedOption g) (inventorySelection g) (statSelection g)
     (lastKeyPress g) (keyDelay g) (messageLog g) (gameResult g) (rng g) (timers g).
Definition with_scenarioManager (v : ScenarioManager.t) (g : t) : t :=
  mk (state g) (player g) (combatSystem g) v (currentEnemy g)
     (currentScenario g) (selectedOption g) (inventorySelection g) (statSelection g)
     (lastKeyPress g) (keyDelay g) (messageLog g) (gameResult g) (rng g) (timers g).
Definition with_currentEnemy (v : option Enemy.t) (g : t) : t :=
  mk (state g) (player g) (combatSystem g) (scenarioManager g) v
     (currentScenario g) (selectedOption g) (inventorySelection g) (statSelection g)
     (lastKeyPress g) (keyDelay g) (messageLog g) (gameResult g) (rng g) (timers g).
Definition with_currentScenario (v : option Scenario) (g : t) : t :=
  mk (state g) (player g) (combatSystem g) (scenarioManager g) (currentEnemy g)
     v (selectedOption g) (inventorySelection g) (statSelection g)
     (lastKeyPress g) (keyDelay g) (messageLog g) (gameResult g) (rng g) (timers g).
Definition with_selectedOption (v : Z) (g : t) : t :=
  mk (state g) (player g) (combatSystem g) (scenarioManager g) (currentEnemy g)
     (currentScenario g) v (inventorySelection g) (statSelection g)
     (lastKeyPress g) (keyDelay g) (messageLog g) (gameResult g) (rng g) (timers g).
Definition with_inventorySelection (v : Z) (g : t) : t :=
  mk (state g) (player g) (combatSystem g) (scenarioManager g) (currentEnemy g)
     (currentScenario g) (selectedOption g) v (statSelection g)
     (lastKeyPress g) (keyDelay g) (messageLog g) (gameResult g) (rng g) (timers g).
Definition with_statSelection (v : Z) (g : t) : t :=
  mk (state g) (player g) (combatSystem g) (scenarioManager g) (currentEnemy g)
     (currentScenario g) (selectedOption g) (inventorySelection g) v
     (lastKeyPress g) (keyDelay g) (messageLog g) (gameResult g) (rng g) (timers g).
Definition with_lastKeyPress (v : Z) (g : t) : t :=
  mk (state g) (player g) (combatSystem g) (scenarioManager g) (currentEnemy g)
     (currentScenario g) (selectedOption g) (inventorySelection g) (statSelection g)
     v (keyDelay g) (messageLog g) (gameResult g) (rng g) (timers g).
Definition with_messageLog (v : list string) (g : t) : t :=
  mk (state g) (player g) (combatSystem g) (scenarioManager g) (currentEnemy g)
     (currentScenario g) (selectedOption g) (inventorySelection g) (statSelection g)
     (lastKeyPress g) (keyDelay g) v (gameResult g) (rng g) (timers g).
Definition with_gameResult (v : option string) (g : t) : t :=
  mk (state g) (player g) (combatSystem g) (scenarioManager g) (currentEnemy g)
     (currentScenario g) (selectedOption g) (inventorySelection g) (statSelection g)
     (lastKeyPress g) (keyDelay g) (messageLog g) v (rng g) (timers g).
Definition with_rng (v : Rng) (g : t) : t :=
  mk (state g) (player g) (combatSystem g) (scenarioManager g) (currentEnemy g)
     (currentScenario g) (selectedOption g) (inventorySelection g) (statSelection g)
     (lastKeyPress g) (keyDelay g) (messageLog g) (gameResult g) v (timers g).
Definition with_timers (v : nat) (g : t) : t :=
  mk (state g) (player g) (combatSystem g) (scenarioManager g) (currentEnemy g)
     (currentScenario g) (selectedOption g) (inventorySelection g) (statSelection g)
     (lastKeyPress g) (keyDelay g) (messageLog g) (gameResult g) (rng g) v.

(** *** The controller's monad: state and [TypeError] *)

Definition M (A : Type) : Type := t → option (A * t).

Definition ret {A} (a : A) : M A := λ g, Some (a, g).
Definition bind {A B} (m : M A) (k : A → M B) : M B :=
  λ g, match m g with
       | Some (a, g') => k a g'
       | None => None
       end.
Definition throw {A} : M A := λ _, None.
Definition gets {A} (f : t → A) : M A := λ g, Some (f g, g).
Definition modify (f : t → t) : M unit := λ g, Some (tt, f g).
Definition random {A} (m : Rand A) : M A :=
  λ g, let '(a, r) := m (rng g) in Some (a, with_rng r g).
(** Reading a property of a value that may be [null] or [undefined]. *)
Definition nonnull {A} (v : option A) : M A :=
  match v with
  | Some a => ret a
  | None => throw
  end.

Declare Scope game_scope.
Delimit Scope game_scope with game.
Notation "x <- m ;; k" := (bind m (λ x, k))
  (at level 100, m at next level, right associativity) : game_scope.
Notation "m ;; k" := (bind m (λ _, k))
  (at level 100, right associativity) : game_scope.
Open Scope game_scope.

(** [array[i]] for a JavaScript number [i]. *)
Definition index {A} (array : list A) (i : Z) : option A :=
  if decide (0 ≤ i) then array !! Z.to_nat i else None.

Definition addMessage (msg : string) : M unit :=
  modify (λ g,
    let log := messageLog g ++ [msg] in
    with_messageLog (if decide (5 < length log)%nat then tail log else log) g).

Definition setPlayer (p : Player.t) : M unit := modify (with_player p).
Definition setState (s : GAME_STATES) : M unit := modify (with_state s).

Definition gameOver : M unit :=
  setState GAME_OVER ;;
  p <- gets player ;;
  modify (with_gameResult
    (Some ("You were defeated at level " +:+ pretty (Player.level p)))).

Definition victory : M unit :=
  setState VICTORY ;;
  sm <- gets scenarioManager ;;
  p <- gets player ;;
  let path := match ScenarioManager.currentPath sm with
              | Some light => "Light"
              | _ => "Shadow"
              end in
  modify (with_gameResult
    (Some ("Victory! You conquered the Path of " +:+ path +:+ " at level "
           +:+ pretty (Player.level p) +:+ "!"))).

Definition proceedToNextScenario : M unit :=
  p <- gets player ;;
  sm <- gets scenarioManager ;;
  r <- random (ScenarioManager.getNextScenario (Player.level p) sm) ;;
  next <- nonnull r ;;
  modify (with_scenarioManager (snd next)) ;;
  match fst next with
  | None => victory
  | Some s =>
      modify (with_currentScenario (Some s)) ;;
      setState SCENARIO ;;
      modify (with_selectedOption 0)
  end.

Definition startCombat (enemy : Enemy.t) : M unit :=
  modify (with_currentEnemy (Some enemy)) ;;
  p <- gets player ;;
  cs <- gets combatSystem ;;
  modify (with_combatSystem (CombatSystem.startCombat p enemy cs)) ;;
  setState COMBAT ;;
  modify (with_selectedOption 0).

(** The flag returned by the first half of [endCombat] tells whether the
    method runs on to its last three statements ([true]) or has returned
    early ([false]). *)
Definition endCombat (won : bool) : M unit :=
  continue <-
    (if won then
       e <- gets currentEnemy ;;
       enemy <- nonnull e ;;
       let xpGained := Enemy.xpReward enemy in
       addMessage ("Victory! +" +:+ pretty xpGained +:+ " XP") ;;
       p <- gets player ;;
       let leveled := Player.addXP xpGained p in
       setPlayer (snd leveled) ;;
       (if decide (0 < length (Enemy.loot enemy))%nat then
          picked <- random (randomChoice (Enemy.loot enemy)) ;;
          p <- gets player ;;
          match picked with
          | Some loot =>
              let added := Inventory.addItem loot (Player.inventory p) in
              setPlayer (Player.with_inventory (snd added) p) ;;
              if fst added then addMessage ("Found: " +:+ Item.name loot) else ret tt
          | None =>
              (* [addItem(undefined)] succeeds when there is room, and
                 [loot.name] then fails *)
              if decide (Inventory.maxSlots (Player.inventory p)
                         ≤ Z.of_nat (length (Inventory.items (Player.inventory p))))
              then ret tt else throw
          end
        else ret tt) ;;
       if fst leveled then
         setState LEVEL_UP ;;
         modify (with_statSelection 0) ;;
         ret false
       else
         cs <- gets currentScenario ;;
         match cs with
         | Some s => if isBoss s then victory ;; ret false else ret true
         | None => ret true
         end
     else ret true) ;;
  if continue : bool then
    modify (with_currentEnemy None) ;;
    p <- gets player ;;
    setPlayer (Player.with_tempStats ∅ p) ;;
    proceedToNextScenario
  else ret tt.

(** [setTimeout(callback, 800)]. *)
Definition setTimeout : M unit := modify (λ g, with_timers (S (timers g)) g).

Definition checkCombatEnd : M unit :=
  e <- gets currentEnemy ;;
  enemy <- nonnull e ;;
  if negb (Enemy.isAlive enemy) then endCombat true
  else
    p <- gets player ;;
    if negb (Player.isAlive p) then gameOver
    else
      cs <- gets combatSystem ;;
      if negb (CombatSystem.playerTurn cs) then setTimeout else ret tt.

Definition endTurn : M unit :=
  modify (λ g, with_combatSystem (CombatSystem.endTurn (combatSystem g)) g).

(** The callback that [checkCombatEnd] schedules. *)
Definition enemyTurnCallback : M unit :=
  e <- gets currentEnemy ;;
  enemy <- nonnull e ;;
  p <- gets player ;;
  cs <- gets combatSystem ;;
  r <- random (CombatSystem.enemyTurn p enemy cs) ;;
  setPlayer (snd (fst r)) ;;
  modify (with_combatSystem (snd r)) ;;
  endTurn ;;
  checkCombatEnd.

Definition executeCombatAction (actionIndex : Z) : M unit :=
  if decide (actionIndex = 0) then        (* Attack *)
    e <- gets currentEnemy ;;
    enemy <- nonnull e ;;
    p <- gets player ;;
    cs <- gets combatSystem ;;
    r <- random (CombatSystem.playerAttack p enemy cs) ;;
    modify (with_currentEnemy (Some (snd (fst r)))) ;;
    modify (with_combatSystem (snd r)) ;;
    endTurn ;;
    checkCombatEnd
  else if decide (actionIndex = 1) then   (* Special Attack *)
    e <- gets currentEnemy ;;
    enemy <- nonnull e ;;
    p <- gets player ;;
    cs <- gets combatSystem ;;
    r <- random (CombatSystem.playerSpecialAttack p enemy cs) ;;
    modify (with_currentEnemy (Some (snd (fst r)))) ;;
    modify (with_combatSystem (snd r)) ;;
    endTurn ;;
    checkCombatEnd
  else if decide (actionIndex = 2) then   (* Use Item *)
    setState INVENTORY ;;
    modify (with_inventorySelection 0)
  else if decide (actionIndex = 3) then   (* Escape *)
    e <- gets currentEnemy ;;
    p <- gets player ;;
    cs <- gets combatSystem ;;
    r <- random (CombatSystem.attemptEscape p e cs) ;;
    modify (with_combatSystem (snd r)) ;;
    if fst r then endCombat false
    else endTurn ;; checkCombatEnd
  else checkCombatEnd.

(** How a choice's closure changes the player. *)
Definition updPlayer (f : Player.t → Player.t) : M unit :=
  modify (λ g, with_player (f (player g)) g).

Definition giveItem (item : Item.t) : M unit :=
  updPlayer (λ p, Player.with_inventory (snd (Inventory.addItem item (Player.inventory p))) p).

Definition giveXP (amount : Z) : M unit :=
  updPlayer (λ p, snd (Player.addXP amount p)).

Definition bumpBase (stat : string) (n : Z) : M unit :=
  updPlayer (λ p,
    let b := Player.baseStats p in
    Player.with_baseStats (Player.stat_set stat (default 0 (Player.stat_get stat b) + n) b) p).

(** [choice.action(this)]: the closures of [SCENARIOS] and their return
    values. *)
Definition runAction (a : ChoiceAction) : M string :=
  match a with
  | takeLight =>
      updPlayer (Player.with_chosenPath (Some "light")) ;;
      modify (λ g, with_scenarioManager
                     (ScenarioManager.with_currentPath (Some light) (scenarioManager g)) g) ;;
      ret "You step into the radiant corridor. The air feels warm and holy."
  | takeShadow =>
      updPlayer (Player.with_chosenPath (Some "shadow")) ;;
      modify (λ g, with_scenarioManager
                     (ScenarioManager.with_currentPath (Some shadow) (scenarioManager g)) g) ;;
      ret "You enter the darkness. Cold whispers echo around you."
  | offerPrayer =>
      updPlayer (λ p, Player.with_health (Z.max 1 (Player.health p - 10)) p) ;;
      bumpBase "intelligence" 2 ;;
      ret "The shrine glows. You feel enlightened! +2 Intelligence"
  | searchTreasure =>
      r <- random Math_random ;;
      if Qltb r 0.6 then
        giveItem ITEM_TEMPLATES.healthPotion ;;
        ret "You found a Health Potion!"
      else ret "You found nothing of value."
  | continueForward => ret "You press onward."
  | takeSword =>
      giveItem ITEM_TEMPLATES.flameBlade ;;
      ret "You obtained the Flame Blade!"
  | takeArmor =>
      giveItem ITEM_TEMPLATES.crystalPlate ;;
      ret "You obtained Crystal Plate!"
  | leaveAlone =>
      giveXP 30 ;;
      ret "Wisely, you resist greed. +30 XP"
  | stepIntoCircle =>
      damage <- random (randomInt 10 20) ;;
      updPlayer (λ p, Player.with_health (Z.max 1 (Player.health p - damage)) p) ;;
      bumpBase "strength" 3 ;;
      ret ("Dark energy courses through you! -" +:+ pretty damage +:+ " HP, +3 Strength")
  | studySymbols =>
      bumpBase "intelligence" 2 ;;
      giveItem ITEM_TEMPLATES.ancientTome ;;
      ret "You decipher ancient knowledge. +2 Intelligence, gained Ancient Tome"
  | destroyCircle =>
      giveXP 40 ;;
      ret "You disrupt the dark magic. +40 XP"
  | prepareForCombat =>
      updPlayer (λ p, Player.with_tempStats
        (<["defense" := Player.or0 (Player.tempStats p !! "defense") + 3]>
           (Player.tempStats p)) p) ;;
      ret "You brace yourself. +3 Defense temporarily"
  | useStealth =>
      p <- gets player ;;
      let stats := Player.getTotalStats p in
      if decide (10 ≤ Player.agility stats) then
        giveXP 50 ;;
        ret "You slip past unseen. +50 XP"
      else ret "You lack the agility! Combat begins..."
  | chargeForward => ret "You rush ahead recklessly!"
  end.

Definition startGame : M unit :=
  setPlayer Player.new ;;
  modify (λ g, with_scenarioManager (ScenarioManager.reset (scenarioManager g)) g) ;;
  modify (with_messageLog []) ;;
  modify (with_currentScenario (Some SCENARIOS.entrance)) ;;
  setState SCENARIO ;;
  modify (with_selectedOption 0).

Definition reset : M unit :=
  setState MENU ;;
  setPlayer Player.new ;;
  modify (λ g, with_scenarioManager (ScenarioManager.reset (scenarioManager g)) g) ;;
  modify (with_currentEnemy None) ;;
  modify (with_currentScenario None) ;;
  modify (with_messageLog []) ;;
  modify (with_gameResult None).

Definition handleScenarioInput (key : string) : M unit :=
  cs <- gets currentScenario ;;
  match cs with
  | None => ret tt
  | Some (Encounter _ _ enemy _) =>
      if decide (key = "Enter") then startCombat enemy else ret tt
  | Some (Narrative _ _ choices) =>
      sel <- gets selectedOption ;;
      if decide (key = "ArrowUp") then
        modify (with_selectedOption (Z.max 0 (sel - 1)))
      else if decide (key = "ArrowDown") then
        modify (with_selectedOption (Z.min (Z.of_nat (length choices) - 1) (sel + 1)))
      else if decide (key = "Enter") then
        choice <- nonnull (index choices sel) ;;
        result <- runAction (action choice) ;;
        addMessage result ;;
        modify (with_selectedOption 0) ;;
        proceedToNextScenario
      else ret tt
  end.

Definition handleCombatInput (key : string) : M unit :=
  cs <- gets combatSystem ;;
  if negb (CombatSystem.playerTurn cs) then ret tt
  else
    let options := ["Attack"; "Special Attack"; "Use Item"; "Escape"] in
    sel <- gets selectedOption ;;
    if decide (key = "ArrowUp") then
      modify (with_selectedOption (Z.max 0 (sel - 1)))
    else if decide (key = "ArrowDown") then
      modify (with_selectedOption (Z.min (Z.of_nat (length options) - 1) (sel + 1)))
    else if decide (key = "Enter") then executeCombatAction sel
    else ret tt.

Definition handleInventoryInput (key : string) : M unit :=
  p <- gets player ;;
  let allItems := Inventory.items (Player.inventory p) in
  sel <- gets inventorySelection ;;
  if decide (key = "ArrowUp") then
    modify (with_inventorySelection (Z.max 0 (sel - 1)))
  else if decide (key = "ArrowDown") then
    modify (with_inventorySelection (Z.min (Z.of_nat (length allItems) - 1) (sel + 1)))
  else if decide (key = "Enter") then
    match index allItems sel with
    | Some item =>
        if decide (Item.type item = "consumable") then
          let used := Item_use item p in
          setPlayer (snd used) ;;
          match fst used with
          | Some result =>
              addMessage result ;;
              updPlayer (λ p, Player.with_inventory
                                (snd (Inventory.removeItem item (Player.inventory p))) p)
          | None => ret tt
          end
        else
          updPlayer (λ p, Player.with_inventory
                            (snd (Inventory.equip item (Player.inventory p))) p) ;;
          addMessage ("Equipped " +:+ Item.name item)
    | None => ret tt
    end
  else if decide (key = "Escape" ∨ key = "i" ∨ key = "I") then
    setState EXPLORING
  else ret tt.

Definition handleLevelUpInput (key : string) : M unit :=
  let stats := ["strength"; "defense"; "agility"; "intelligence"] in
  p <- gets player ;;
  if decide (Player.statPoints p = 0) then
    if decide (key = "Enter") then setState EXPLORING else ret tt
  else
    sel <- gets statSelection ;;
    if decide (key = "ArrowUp") then
      modify (with_statSelection (Z.max 0 (sel - 1)))
    else if decide (key = "ArrowDown") then
      modify (with_statSelection (Z.min (Z.of_nat (length stats) - 1) (sel + 1)))
    else if decide (key = "Enter") then
      (* an index outside the array reads [undefined], which is no stat *)
      let stat := default "undefined" (index stats sel) in
      updPlayer (λ p, snd (Player.allocateStat stat p)) ;;
      addMessage ("+1 " +:+ stat) ;;
      p <- gets player ;;
      if decide (Player.statPoints p = 0)
      then addMessage "All stat points allocated!" else ret tt
    else ret tt.

Definition handleKeyPress (now : Z) (key : string) : M unit :=
  last <- gets lastKeyPress ;;
  delay <- gets keyDelay ;;
  if decide (now - last < delay) then ret tt
  else
    modify (with_lastKeyPress now) ;;
    s <- gets state ;;
    match s with
    | MENU => if decide (key = "Enter") then startGame else ret tt
    | EXPLORING =>
        if decide (key = "i" ∨ key = "I") then
          setState INVENTORY ;;
          modify (with_inventorySelection 0)
        else ret tt
    | SCENARIO => handleScenarioInput key
    | COMBAT => handleCombatInput key
    | INVENTORY => handleInventoryInput key
    | LEVEL_UP => handleLevelUpInput key
    | GAME_OVER | VICTORY => if decide (key = "Enter") then reset else ret tt
    end.

(** One event of the page: a key press, or a pending callback firing
    (with no callback pending there is nothing to fire). *)
Definition step (ev : Event) : M unit :=
  match ev with
  | Key now key => handleKeyPress now key
  | Timer =>
      n <- gets timers ;;
      match n with
      | O => ret tt
      | S n' => modify (with_timers n') ;; enemyTurnCallback
      end
  end.

Fixpoint run (evs : list Event) : M unit :=
  match evs with
  | [] => ret tt
  | ev :: evs' => step ev ;; run evs'
  end.
End Game.

(** * Specification

    The predicates the theorems below are stated with. *)

(** The names of the four base stats. *)
Definition baseStatNames : list string :=
  ["strength"; "defense"; "agility"; "intelligence"].

(** The health invariant of a combatant. *)
Definition player_health_ok (p : Player.t) : Prop :=
  0 ≤ Player.health p ≤ Player.maxHealth p.

Definition enemy_health_ok (e : Enemy.t) : Prop :=
  0 ≤ Enemy.health e ≤ Enemy.maxHealth e.

(** The items worn in the equip slots. *)
Definition worn (e : Inventory.Equipped) : list Item.t :=
  option_list (Inventory.weapon e) ++ option_list (Inventory.armor e)
  ++ option_list (Inventory.artifact e).

(** An item is referenced by the inventory: it is held or worn. *)
Definition referenced (item : Item.t) (inv : Inventory.t) : Prop :=
  item ∈ Inventory.items inv ∨ item ∈ worn (Inventory.equipped inv).

(** The cursor positions that successive calls of [getNextScenario] read
    in the sequence of the path, one call per level given; a call reads
    the sequence exactly when it moves the cursor. *)
Fixpoint positions_read (levels : list Z) (sm : ScenarioManager.t) (r : Rng) : list nat :=
  match levels with
  | [] => []
  | level :: levels' =>
      match ScenarioManager.getNextScenario level sm r with
      | (Some (_, sm'), r') =>
          (if decide (ScenarioManager.scenarioIndex sm' = ScenarioManager.scenarioIndex sm)
           then [] else [ScenarioManager.scenarioIndex sm])
          ++ positions_read levels' sm' r'
      | (None, _) => []
      end
  end.

(** ** Invariants of the controller *)

(** What every player of a running game satisfies. *)
Record player_ok (p : Player.t) : Prop := mk_player_ok {
  ok_health : player_health_ok p;
  ok_maxHealth : 1 ≤ Player.maxHealth p;
  ok_level : 1 ≤ Player.level p;
  ok_statPoints : 0 ≤ Player.statPoints p
}.

(** A scenario that can be played: the enemy of an encounter is within
    its health bounds, a narrative scenario offers a choice. *)
Definition scenario_ok (s : Scenario) : Prop :=
  match s with
  | Encounter _ _ enemy _ => enemy_health_ok enemy
  | Narrative _ _ choices => choices ≠ []
  end.

Definition selection_ok (s : Scenario) (selected : Z) : Prop :=
  match s with
  | Encounter _ _ _ _ => True
  | Narrative _ _ choices => 0 ≤ selected < Z.of_nat (length choices)
  end.

(** The part of the invariant that holds at every point of a handler. *)
Record core (g : Game.t) : Prop := mk_core {
  core_fair : fair (Game.rng g);
  core_player : player_ok (Game.player g);
  core_enemy : ∀ e, Game.currentEnemy g = Some e → enemy_health_ok e;
  core_scenario : ∀ s, Game.currentScenario g = Some s → scenario_ok s
}.

(** The invariant between two events: in combat there is an enemy; a
    callback is pending only in combat during the turn of the enemy, and
    then only one; a scenario on screen has its selection in range. *)
Record wf (g : Game.t) : Prop := mk_wf {
  wf_core : core g;
  wf_combat : Game.state g = COMBAT → is_Some (Game.currentEnemy g);
  wf_timers :
    Game.timers g = 0%nat
    ∨ (Game.timers g = 1%nat ∧ Game.state g = COMBAT
       ∧ CombatSystem.playerTurn (Game.combatSystem g) = false);
  wf_selection :
    Game.state g = SCENARIO →
    ∃ s, Game.currentScenario g = Some s ∧ selection_ok s (Game.selectedOption g)
}.

(** Total correctness of an action of the controller: run from [g], the
    action raises no [TypeError] and ends with a result and a state of
    [Q]. *)
Definition wp {A} (m : Game.M A) (Q : A → Game.t → Prop) (g : Game.t) : Prop :=
  ∃ a g', m g = Some (a, g') ∧ Q a g'.

(** The invariant at the points of a handler where no callback is
    pending. *)
Definition quiet (g : Game.t) : Prop := core g ∧ Game.timers g = 0%nat.

(** A random computation only moves the position in the source. *)
Definition keeps_source {A} (m : Rand A) : Prop :=
  ∀ r, source (snd (m r)) = source r.

(** The health bounds of every combatant the controller holds. *)
Definition game_health_ok (g : Game.t) : Prop :=
  player_health_ok (Game.player g)
  ∧ (∀ e, Game.currentEnemy g = Some e → enemy_health_ok e)
  ∧ (∀ title description e boss,
       Game.currentScenario g = Some (Encounter title description e boss) →
       enemy_health_ok e).

(** The states from which no event leads on. *)
Definition dead_end (s : GAME_STATES) : Prop :=
  s = LEVEL_UP ∨ s = EXPLORING ∨ s = INVENTORY.

(** From [g0] on the game has stalled in [g]: it is in a state that
    leads nowhere, no callback is pending, and the progression, the
    scenario and the enemy are those of [g0]. *)
Definition stalled (g0 g : Game.t) : Prop :=
  dead_end (Game.state g)
  ∧ Game.timers g = 0%nat
  ∧ Game.scenarioManager g = Game.scenarioManager g0
  ∧ Game.currentScenario g = Game.currentScenario g0
  ∧ Game.currentEnemy g = Game.currentEnemy g0.

(** The progression cursor of the game, and the actions that never move
    it backwards. *)
Definition cursor (g : Game.t) : nat :=
  ScenarioManager.scenarioIndex (Game.scenarioManager g).

Definition cursor_grows {A} (m : Game.M A) : Prop :=
  ∀ g a g', m g = Some (a, g') → (cursor g ≤ cursor g')%nat.

(** ** Bookkeeping of the inventory *)

(** The held list respects the capacity. *)
Definition within_capacity (inv : Inventory.t) : Prop :=
  Z.of_nat (length (Inventory.items inv)) ≤ Inventory.maxSlots inv.

(** Every reference the inventory holds: the held list, then the slots. *)
Definition owned (inv : Inventory.t) : list Item.t :=
  Inventory.items inv ++ worn (Inventory.equipped inv).

(** What an item adds to a stat while it is worn. *)
Definition bonus (stat : string) (item : Item.t) : Z :=
  match Item.effect item with
  | Bonus b => Player.or0 (b !! stat)
  | Fn _ => 0
  end.

Definition total_bonus (stat : string) (l : list Item.t) : Z :=
  foldr (λ item acc, bonus stat item + acc) 0 l.

(** ** Partial correctness of the controller

    [wlp m Q g]: if the action returns from [g], it does so with a result
    and a state of [Q]. *)
Definition wlp {A} (m : Game.M A) (Q : A → Game.t → Prop) (g : Game.t) : Prop :=
  ∀ a g', m g = Some (a, g') → Q a g'.

(** The two logs within their lengths. *)
Definition logs_ok (g : Game.t) : Prop :=
  (length (Game.messageLog g) ≤ 5)%nat
  ∧ (length (CombatSystem.combatLog (Game.combatSystem g)) ≤ 8)%nat.

(** A combat that no event moves on: it is the turn of the enemy and no
    callback is pending. *)
Definition frozen (g : Game.t) : Prop :=
  Game.state g = COMBAT
  ∧ CombatSystem.playerTurn (Game.combatSystem g) = false
  ∧ Game.timers g = 0%nat.

(** The keys the controller reacts to. *)
Definition knownKeys : list string :=
  ["Enter"; "ArrowUp"; "ArrowDown"; "Escape"; "i"; "I"].

(** ** Experience within a playthrough *)

(** The most experience that a choice can lead to: what its closure
    grants and, for the two choices of the entrance, what the nodes of the
    path grant in all.  The stealth choice grants nothing to a player
    whose agility is below 10. *)
Definition choice_xp (a : ChoiceAction) : Z :=
  match a with
  | takeLight => 206
  | takeShadow => 258
  | leaveAlone => 30
  | destroyCircle => 40
  | _ => 0
  end.










(** The bookkeeping of a game: the logs within their lengths, and the
    held list of the player within the capacity of the inventory, which
    is the configured one. *)
Definition tidy (g : Game.t) : Prop :=
  logs_ok g
  ∧ within_capacity (Player.inventory (Game.player g))
  ∧ Inventory.maxSlots (Player.inventory (Game.player g)) = CONFIG.INVENTORY_SLOTS.

(** * Theorems *)

(** ** Arithmetic of the embedding *)

Lemma floor_half_div (n : Z) : floor_half n = n / 2.
Proof.
  unfold floor_half. rewrite Zdiv_Qdiv. apply Qfloor_comp.
  unfold Qdiv. apply Qmult_comp; reflexivity.
Qed.

(** ** Damage *)

(** C4: applying damage to a combatant subtracts from the raw amount the
    mitigation floor(effective defense * 0.5) (the integer quotient by 2),
    never goes below 1, lowers health by that final damage with a floor of
    0, changes nothing else and returns the final damage; a defense of 4
    against a raw attack of 5 gives 3. *)
Theorem takeDamage_final_damage :
  (∀ (p : Player.t) (amount : Z),
     let mitigation := Player.defense (Player.getTotalStats p) / 2 in
     let finalDamage := Z.max 1 (amount - mitigation) in
     1 ≤ finalDamage
     ∧ Player.takeDamage amount p
       = (finalDamage, Player.with_health (Z.max 0 (Player.health p - finalDamage)) p))
  ∧ (∀ (e : Enemy.t) (amount : Z),
     let mitigation := Enemy.defense e / 2 in
     let finalDamage := Z.max 1 (amount - mitigation) in
     1 ≤ finalDamage
     ∧ Enemy.takeDamage amount e
       = (finalDamage, Enemy.with_health (Z.max 0 (Enemy.health e - finalDamage)) e))
  ∧ Enemy.defense (ENEMY_TEMPLATES.goblin 2) = 4
  ∧ fst (Enemy.takeDamage 5 (ENEMY_TEMPLATES.goblin 2)) = 3.
Proof.
  repeat split.
  - lia.
  - unfold Player.takeDamage. by rewrite floor_half_div.
  - lia.
  - unfold Enemy.takeDamage. by rewrite floor_half_div.
Qed.

(** ** Levels and stat points *)

(** C7: a call of [levelUp] adds 1 to the level, 3 to the stat points, 1
    to each of the four base stats and 10 to the maximal health, and sets
    health to the new maximum; experience, temporary stats, inventory and
    path are untouched. *)
Theorem levelUp_effect (p : Player.t) :
  let p' := Player.levelUp p in
  Player.level p' = Player.level p + 1
  ∧ Player.statPoints p' = Player.statPoints p + 3
  ∧ Player.strength (Player.baseStats p') = Player.strength (Player.baseStats p) + 1
  ∧ Player.defense (Player.baseStats p') = Player.defense (Player.baseStats p) + 1
  ∧ Player.agility (Player.baseStats p') = Player.agility (Player.baseStats p) + 1
  ∧ Player.intelligence (Player.baseStats p')
    = Player.intelligence (Player.baseStats p) + 1
  ∧ Player.maxHealth p' = Player.maxHealth p + 10
  ∧ Player.health p' = Player.maxHealth p'
  ∧ Player.xp p' = Player.xp p
  ∧ Player.tempStats p' = Player.tempStats p
  ∧ Player.inventory p' = Player.inventory p
  ∧ Player.chosenPath p' = Player.chosenPath p.
Proof. simpl. repeat split. Qed.

Lemma baseStatNames_elem (stat : string) :
  stat ∈ baseStatNames
  ↔ stat = "strength" ∨ stat = "defense" ∨ stat = "agility" ∨ stat = "intelligence".
Proof.
  unfold baseStatNames. rewrite !elem_of_cons, elem_of_nil. tauto.
Qed.

Lemma stat_get_recognized (stat : string) (s : Player.Stats) :
  is_Some (Player.stat_get stat s) ↔ stat ∈ baseStatNames.
Proof.
  rewrite baseStatNames_elem. unfold Player.stat_get.
  repeat case_decide; split; intros Hs; eauto; try tauto.
  by destruct Hs.
Qed.

Lemma stat_get_set (stat stat' : string) (v : Z) (s : Player.Stats) :
  stat ∈ baseStatNames →
  Player.stat_get stat' (Player.stat_set stat v s)
  = if decide (stat' = stat) then Some v else Player.stat_get stat' s.
Proof.
  rewrite baseStatNames_elem.
  unfold Player.stat_get, Player.stat_set.
  intros [-> | [-> | [-> | ->]]]; repeat case_decide; subst; simpl; done.
Qed.

(** C8: with no stat point left, or for a name that is not a base stat,
    [allocateStat] returns [false] and leaves the player as it is;
    otherwise (stat points being non-negative) it returns [true], adds 1
    to that base stat alone and takes 1 from the stat points.  The stat
    points never go below 0. *)
Theorem allocateStat_spec (p : Player.t) (stat : string) :
  0 ≤ Player.statPoints p →
  ((Player.statPoints p = 0 ∨ stat ∉ baseStatNames) →
     Player.allocateStat stat p = (false, p))
  ∧ (¬ (Player.statPoints p = 0 ∨ stat ∉ baseStatNames) →
     ∃ p', Player.allocateStat stat p = (true, p')
       ∧ Player.statPoints p' = Player.statPoints p - 1
       ∧ (∀ stat', Player.stat_get stat' (Player.baseStats p')
            = if decide (stat' = stat)
              then (λ v, v + 1) <$> Player.stat_get stat' (Player.baseStats p)
              else Player.stat_get stat' (Player.baseStats p))
       ∧ Player.with_baseStats (Player.baseStats p)
           (Player.with_statPoints (Player.statPoints p) p') = p)
  ∧ 0 ≤ Player.statPoints (snd (Player.allocateStat stat p)).
Proof.
  intros Hnn. unfold Player.allocateStat. repeat split.
  - intros [H0 | Hbad].
    + case_decide; [lia | done].
    + case_decide; [| done].
      destruct (Player.stat_get stat (Player.baseStats p)) eqn:E; [| done].
      exfalso. apply Hbad, (stat_get_recognized stat (Player.baseStats p)). by rewrite E.
  - intros Hok.
    assert (Hpos : 0 < Player.statPoints p) by (destruct (decide (Player.statPoints p = 0)); [tauto | lia]).
    assert (Hin : stat ∈ baseStatNames) by (destruct (decide (stat ∈ baseStatNames)); tauto).
    destruct (proj2 (stat_get_recognized stat (Player.baseStats p)) Hin) as [v Hv].
    rewrite decide_True by done. rewrite Hv.
    eexists. split; [done |]. split; [done |]. split.
    + intros stat'. simpl. rewrite stat_get_set by done.
      case_decide; [subst; by rewrite Hv | done].
    + by destruct p.
  - case_decide; [| simpl; lia].
    destruct (Player.stat_get stat (Player.baseStats p)); simpl; lia.
Qed.

Lemma allocateStat_spec_witness :
  0 ≤ Player.statPoints (Player.levelUp Player.new)
  ∧ 0 ≤ Player.statPoints (snd (Player.allocateStat "agility" (Player.levelUp Player.new))).
Proof.
  assert (H : 0 ≤ Player.statPoints (Player.levelUp Player.new)) by (vm_compute; discriminate).
  split; [exact H |].
  exact (proj2 (proj2 (allocateStat_spec (Player.levelUp Player.new) "agility" H))).
Defined.
(** ** Dodge *)

(** C9: the dodge chance of the player is min(0.4, effective agility *
    0.02), that of an enemy min(0.3, agility * 0.015); neither exceeds its
    cap, whatever the agility.  The effective agility is the base stat plus
    the bonus of the worn items plus the temporary bonus. *)
Theorem getDodgeChance_capped :
  (∀ p : Player.t,
     let effectiveAgility := Player.agility (Player.getTotalStats p) in
     effectiveAgility
     = Player.agility (Player.baseStats p)
       + Player.or0 (Inventory.getEquippedStats (Player.inventory p) !! "agility")
       + Player.or0 (Player.tempStats p !! "agility")
     ∧ Player.getDodgeChance p = Qmin 0.4 (inject_Z effectiveAgility * 0.02)
     ∧ (Player.getDodgeChance p <= 0.4)%Q)
  ∧ (∀ e : Enemy.t,
     Enemy.getDodgeChance e = Qmin 0.3 (Enemy.agility e * 0.015)
     ∧ (Enemy.getDodgeChance e <= 0.3)%Q).
Proof.
  split.
  - intros p. repeat split. apply Q.le_min_l.
  - intros e. split; [done |]. apply Q.le_min_l.
Qed.

(** ** Inventory *)

Lemma remove_first_length (x : Item.t) (l : list Item.t) :
  x ∈ l → S (length (Inventory.remove_first x l)) = length l.
Proof.
  induction l as [| y l IH]; intros Hin.
  - by apply elem_of_nil in Hin.
  - simpl. case_decide as Hy; [done |].
    apply elem_of_cons in Hin as [-> | Hin]; [done |].
    simpl. by rewrite IH.
Qed.

Lemma remove_first_perm (x : Item.t) (l : list Item.t) :
  x ∈ l → x :: Inventory.remove_first x l ≡ₚ l.
Proof.
  induction l as [| y l IH]; intros Hin.
  - by apply elem_of_nil in Hin.
  - simpl. case_decide as Hy; [by subst |].
    apply elem_of_cons in Hin as [-> | Hin]; [done |].
    rewrite Permutation_swap. by rewrite IH.
Qed.

Lemma slot_get_set (slot slot' : string) (v : option Item.t) (e : Inventory.Equipped) :
  is_Some (Inventory.slot_of slot) →
  Inventory.slot_get slot' (Inventory.slot_set slot v e)
  = if decide (slot' = slot) then v else Inventory.slot_get slot' e.
Proof.
  unfold Inventory.slot_of, Inventory.slot_get, Inventory.slot_set.
  intros [s Hs]. repeat case_decide; subst; simpl; done.
Qed.

Lemma slot_of_fixed (type slot : string) :
  Inventory.slot_of type = Some slot → Inventory.slot_of slot = Some slot.
Proof.
  unfold Inventory.slot_of. repeat case_decide; intros; simplify_eq; done.
Qed.

Lemma slot_get_known (slot : string) (e : Inventory.Equipped) :
  is_Some (Inventory.slot_get slot e) → Inventory.slot_of slot = Some slot.
Proof.
  unfold Inventory.slot_get, Inventory.slot_of.
  repeat case_decide; subst; try done; by intros [? ?].
Qed.

Lemma option_list_elem (x : Item.t) (o : option Item.t) :
  x ∈ option_list o ↔ o = Some x.
Proof.
  destruct o as [y |]; simpl.
  - rewrite list_elem_of_singleton. split; congruence.
  - rewrite elem_of_nil. split; [tauto | congruence].
Qed.

Lemma worn_slot_get (x : Item.t) (e : Inventory.Equipped) :
  x ∈ worn e ↔ ∃ slot, Inventory.slot_get slot e = Some x.
Proof.
  unfold worn. rewrite !elem_of_app, !option_list_elem. split.
  - intros [H | [H | H]]; [by exists "weapon" | by exists "armor" | by exists "artifact"].
  - intros [slot H]. unfold Inventory.slot_get in H.
    repeat case_decide; auto. done.
Qed.

(** C6: for an item X that is held and whose type has a slot, in an
    inventory within its capacity that has room for the item worn in that
    slot, if any: equipping X and then unequipping the slot both succeed,
    X is worn in between, and afterwards the slot is empty, the other
    slots are as before, X is held again and the held list is, up to
    order, the one before the equip together with the item that was
    worn. *)
Theorem equip_unequip_roundtrip (inv : Inventory.t) (X : Item.t) (slot : string) :
  X ∈ Inventory.items inv →
  Inventory.slot_of (Item.type X) = Some slot →
  Z.of_nat (length (Inventory.items inv)) ≤ Inventory.maxSlots inv →
  (is_Some (Inventory.slot_get slot (Inventory.equipped inv)) →
   Z.of_nat (length (Inventory.items inv)) < Inventory.maxSlots inv) →
  let equipped := Inventory.equip X inv in
  let unequipped := Inventory.unequip slot (snd equipped) in
  fst equipped = true
  ∧ Inventory.slot_get slot (Inventory.equipped (snd equipped)) = Some X
  ∧ fst unequipped = true
  ∧ Inventory.slot_get slot (Inventory.equipped (snd unequipped)) = None
  ∧ (∀ slot', slot' ≠ slot →
       Inventory.slot_get slot' (Inventory.equipped (snd unequipped))
       = Inventory.slot_get slot' (Inventory.equipped inv))
  ∧ X ∈ Inventory.items (snd unequipped)
  ∧ Inventory.items (snd unequipped)
    ≡ₚ Inventory.items inv
       ++ option_list (Inventory.slot_get slot (Inventory.equipped inv))
  ∧ Inventory.maxSlots (snd unequipped) = Inventory.maxSlots inv.
Proof.
  intros HX Hslot Hcap Hroom.
  assert (Hknown : is_Some (Inventory.slot_of slot))
    by (exists slot; eapply slot_of_fixed; eauto).
  destruct inv as [items maxSlots eq]. simpl in *.
  unfold Inventory.equip. simpl. rewrite decide_True by done. rewrite Hslot.
  destruct (Inventory.slot_get slot eq) as [Y |] eqn:HY; simpl.
  - (* the slot was occupied: the item worn goes to the held list *)
    specialize (Hroom (ltac:(eauto))).
    unfold Inventory.addItem; simpl. rewrite decide_False by lia. simpl.
    unfold Inventory.removeItem; simpl.
    rewrite decide_True by (apply elem_of_app; auto). simpl.
    unfold Inventory.unequip; simpl.
    rewrite slot_get_set, decide_True by done. simpl.
    assert (HXin : X ∈ items ++ [Y]) by (apply elem_of_app; auto).
    pose proof (remove_first_length X _ HXin) as Hlen. rewrite length_app in Hlen. simpl in Hlen.
    unfold Inventory.addItem; simpl. rewrite decide_False by lia. simpl.
    repeat split; try (by rewrite ?slot_get_set, ?decide_True by done).
    + intros slot' Hne. by rewrite !slot_get_set, !decide_False.
    + apply elem_of_app. right. by apply list_elem_of_singleton.
    + rewrite <- Permutation_cons_append. by apply remove_first_perm.
  - (* the slot was empty *)
    unfold Inventory.removeItem; simpl. rewrite decide_True by done. simpl.
    unfold Inventory.unequip; simpl.
    rewrite slot_get_set, decide_True by done. simpl.
    pose proof (remove_first_length X _ HX) as Hlen.
    unfold Inventory.addItem; simpl. rewrite decide_False by lia. simpl.
    repeat split; try (by rewrite ?slot_get_set, ?decide_True by done).
    + intros slot' Hne. by rewrite !slot_get_set, !decide_False.
    + apply elem_of_app. right. by apply list_elem_of_singleton.
    + rewrite app_nil_r, <- Permutation_cons_append. by apply remove_first_perm.
Qed.

Lemma equip_unequip_roundtrip_witness :
  let inv := Player.inventory Player.new in
  let X := ITEM_TEMPLATES.rustyDagger in
  Inventory.items (snd (Inventory.unequip "weapon" (snd (Inventory.equip X inv))))
  ≡ₚ Inventory.items inv ++ option_list (Inventory.slot_get "weapon" (Inventory.equipped inv)).
Proof.
  refine (proj1 (proj2 (proj2 (proj2 (proj2 (proj2 (proj2
    (equip_unequip_roundtrip (Player.inventory Player.new)
       ITEM_TEMPLATES.rustyDagger "weapon" _ _ _ _)))))))).
  - apply list_elem_of_here.
  - reflexivity.
  - vm_compute. discriminate.
  - intros _. vm_compute. reflexivity.
Defined.

(** The inventory of capacity 1 that holds an iron sword and wears
    another reference to the same template: add the sword, equip it, add
    it again. *)
Lemma unequip_full_keeps_duplicate :
  let sword := ITEM_TEMPLATES.ironSword in
  let inv := Inventory.mk [sword] 1 (Inventory.mkEquipped (Some sword) None None) in
  snd (Inventory.addItem sword
         (snd (Inventory.equip sword
                 (snd (Inventory.addItem sword (Inventory.new 1))))))
  = inv
  ∧ Inventory.maxSlots inv ≤ Z.of_nat (length (Inventory.items inv))
  ∧ Inventory.slot_get "weapon" (Inventory.equipped inv) = Some sword
  ∧ fst (Inventory.unequip "weapon" inv) = true
  ∧ Inventory.slot_get "weapon" (Inventory.equipped (snd (Inventory.unequip "weapon" inv)))
    = None
  ∧ referenced sword (snd (Inventory.unequip "weapon" inv)).
Proof.
  repeat split; try (by vm_compute).
  left. apply list_elem_of_here.
Qed.

(** C10 (amended): when the held list is at capacity and a slot is
    occupied, [unequip] of that slot returns [true] and empties the slot,
    the add of the item to the held list fails, the held list and the
    other slots stay as they are; the item is then referenced nowhere in
    the inventory, unless the held list or another slot already referenced
    it. *)
Theorem unequip_full_drops_item (inv : Inventory.t) (slot : string) (item : Item.t) :
  Inventory.maxSlots inv ≤ Z.of_nat (length (Inventory.items inv)) →
  Inventory.slot_get slot (Inventory.equipped inv) = Some item →
  let cleared := Inventory.mk (Inventory.items inv) (Inventory.maxSlots inv)
                   (Inventory.slot_set slot None (Inventory.equipped inv)) in
  Inventory.unequip slot inv = (true, cleared)
  ∧ Inventory.addItem item cleared = (false, cleared)
  ∧ Inventory.slot_get slot (Inventory.equipped cleared) = None
  ∧ (∀ slot', slot' ≠ slot →
       Inventory.slot_get slot' (Inventory.equipped cleared)
       = Inventory.slot_get slot' (Inventory.equipped inv))
  ∧ (item ∉ Inventory.items inv →
     (∀ slot', slot' ≠ slot →
        Inventory.slot_get slot' (Inventory.equipped inv) ≠ Some item) →
     ¬ referenced item cleared).
Proof.
  intros Hfull Hworn.
  assert (Hknown : is_Some (Inventory.slot_of slot)).
  { exists slot. apply (slot_get_known slot (Inventory.equipped inv)). by rewrite Hworn. }
  assert (Hadd : ∀ c, Inventory.items c = Inventory.items inv →
                      Inventory.maxSlots c = Inventory.maxSlots inv →
                      Inventory.addItem item c = (false, c)).
  { intros c Hi Hm. unfold Inventory.addItem. rewrite Hi, Hm. by rewrite decide_True. }
  repeat split.
  - unfold Inventory.unequip. rewrite Hworn. by rewrite Hadd.
  - by apply Hadd.
  - simpl. by rewrite slot_get_set, decide_True.
  - intros slot' Hne. simpl. by rewrite slot_get_set, decide_False.
  - intros Hheld Hother [Hin | Hin]; [done |].
    apply worn_slot_get in Hin as [slot' Hin]. simpl in Hin.
    rewrite slot_get_set in Hin by done.
    case_decide; [done |]. by apply (Hother slot').
Qed.

Lemma unequip_full_drops_item_witness :
  let dagger := ITEM_TEMPLATES.rustyDagger in
  let inv := Inventory.mk [ITEM_TEMPLATES.healthPotion] 1
               (Inventory.mkEquipped (Some dagger) None None) in
  Inventory.unequip "weapon" inv
  = (true, Inventory.mk [ITEM_TEMPLATES.healthPotion] 1 (Inventory.mkEquipped None None None))
  ∧ ¬ referenced dagger (snd (Inventory.unequip "weapon" inv)).
Proof.
  pose (dagger := ITEM_TEMPLATES.rustyDagger).
  pose (inv := Inventory.mk [ITEM_TEMPLATES.healthPotion] 1
                 (Inventory.mkEquipped (Some dagger) None None)).
  assert (Hfull : Inventory.maxSlots inv ≤ Z.of_nat (length (Inventory.items inv)))
    by (vm_compute; discriminate).
  assert (Hworn : Inventory.slot_get "weapon" (Inventory.equipped inv) = Some dagger)
    by reflexivity.
  destruct (unequip_full_drops_item inv "weapon" dagger Hfull Hworn)
    as (Hun & _ & _ & _ & Hlost).
  split; [exact Hun |].
  change (¬ referenced dagger (snd (Inventory.unequip "weapon" inv))).
  rewrite Hun. apply Hlost.
  - intros Hin. apply list_elem_of_singleton in Hin. discriminate.
  - intros slot' Hne. unfold Inventory.slot_get. simpl.
    repeat case_decide; done.
Defined.

(** ** Random draws *)

Lemma Qfloor_scaled (q : Q) (n : Z) :
  unit_interval q → 0 < n → 0 ≤ Qfloor (q * inject_Z n) < n.
Proof.
  intros [Hq0 Hq1] Hn.
  assert (Hn' : (0 < inject_Z n)%Q) by (unfold Qlt; simpl; lia).
  split.
  - change 0 with (Qfloor 0). apply Qfloor_resp_le.
    apply Qmult_le_0_compat; [exact Hq0 | by apply Qlt_le_weak].
  - rewrite Zlt_Qlt.
    eapply Qle_lt_trans; [apply Qfloor_le |].
    apply Qlt_le_trans with (1 * inject_Z n)%Q.
    + by apply Qmult_lt_compat_r.
    + rewrite Qmult_1_l. apply Qle_refl.
Qed.

Lemma randomChoice_defined {A} (array : list A) (r : Rng) :
  unit_interval (source r (drawn r)) → array ≠ [] →
  is_Some (fst (randomChoice array r)).
Proof.
  intros Hq Hne. unfold randomChoice, rbind, Math_random, rret. cbn [fst snd].
  assert (Hlen : 0 < Z.of_nat (length array)) by (destruct array; [done | simpl; lia]).
  destruct (Qfloor_scaled _ _ Hq Hlen) as [H0 H1].
  rewrite decide_True by done.
  apply lookup_lt_is_Some. lia.
Qed.

Lemma randomChoice_rng {A} (array : list A) (r : Rng) :
  snd (randomChoice array r) = mkRng (source r) (S (drawn r)).
Proof. reflexivity. Qed.

Lemma randomChoice_elem {A} (array : list A) (r : Rng) (x : A) :
  fst (randomChoice array r) = Some x → x ∈ array.
Proof.
  unfold randomChoice, rbind, Math_random, rret. cbn [fst snd].
  case_decide; [| done]. apply list_elem_of_lookup_2.
Qed.

(** ** The progression cursor *)

Lemma createCombatScenario_defined (level : Z) (sm : ScenarioManager.t) (r : Rng) :
  unit_interval (source r (drawn r)) →
  is_Some (fst (ScenarioManager.createCombatScenario level sm r)).
Proof.
  intros Hq. unfold ScenarioManager.createCombatScenario, rbind.
  set (pool := match ScenarioManager.currentPath sm with
               | Some light => randomChoice ["goblin"; "knight"]
               | _ => randomChoice ["shadowBeast"; "darkMage"]
               end).
  assert (Hpool : ∃ names, pool = randomChoice names ∧ names ≠ []
                    ∧ ∀ n, n ∈ names → is_Some (ENEMY_TEMPLATES.lookup n)).
  { subst pool. destruct (ScenarioManager.currentPath sm) as [[|]|];
      eexists; (split; [reflexivity |]); (split; [done |]);
      intros n Hn; rewrite !elem_of_cons, elem_of_nil in Hn;
      destruct Hn as [-> | [-> | []]]; by eexists. }
  destruct Hpool as (names & -> & Hne & Hall).
  pose proof (randomChoice_defined names r Hq Hne) as [n Hn].
  pose proof (randomChoice_elem names r n Hn) as Hin.
  destruct (randomChoice names r) as [o r1]. simpl in Hn. subst o.
  destruct (Hall n Hin) as [template Ht].
  unfold rret. simpl. rewrite Ht. simpl. by eexists.
Qed.

Lemma createCombatScenario_rng (level : Z) (sm : ScenarioManager.t) (r : Rng) :
  snd (ScenarioManager.createCombatScenario level sm r) = mkRng (source r) (S (drawn r)).
Proof.
  unfold ScenarioManager.createCombatScenario, rbind.
  by destruct (ScenarioManager.currentPath sm) as [[|]|].
Qed.

(** What a call that does not fail returns: the entrance and the manager
    as it is, before any path is chosen; the signal [null] and the manager
    as it is, at the end of the sequence; otherwise the manager with the
    cursor one step further. *)
Lemma getNextScenario_cases (level : Z) (sm : ScenarioManager.t) (r : Rng)
    (node : option Scenario) (sm' : ScenarioManager.t) (r' : Rng) :
  ScenarioManager.getNextScenario level sm r = (Some (node, sm'), r') →
  (ScenarioManager.currentPath sm = None ∧ node = Some SCENARIOS.entrance
   ∧ sm' = sm ∧ r' = r)
  ∨ (∃ path, ScenarioManager.currentPath sm = Some path
       ∧ length (ScenarioManager.sequence path sm) ≤ ScenarioManager.scenarioIndex sm
       ∧ node = None ∧ sm' = sm ∧ r' = r)%nat
  ∨ (∃ path, ScenarioManager.currentPath sm = Some path
       ∧ ScenarioManager.scenarioIndex sm < length (ScenarioManager.sequence path sm)
       ∧ sm' = ScenarioManager.with_scenarioIndex
                 (S (ScenarioManager.scenarioIndex sm)) sm)%nat.
Proof.
  unfold ScenarioManager.getNextScenario.
  destruct (ScenarioManager.currentPath sm) as [path |] eqn:Hpath.
  - destruct (ScenarioManager.sequence path sm !! ScenarioManager.scenarioIndex sm)
      as [scenarioType |] eqn:Hseq.
    + intros H. right. right. exists path. split; [done |].
      split; [by eapply lookup_lt_Some |].
      repeat case_decide.
      * unfold rbind in H.
        destruct (ScenarioManager.createCombatScenario _ _ r) as [[s |] r1];
          unfold rret in H; simpl in H; by simplify_eq.
      * unfold rret in H. by simplify_eq.
      * unfold rret in H. by simplify_eq.
    + intros H. unfold rret in H. simplify_eq. right. left. exists path.
      repeat split; try done. by apply lookup_ge_None.
  - intros H. unfold rret in H. simplify_eq. by left.
Qed.

Lemma positions_read_lower (levels : list Z) (sm : ScenarioManager.t) (r : Rng) :
  Forall (λ i, ScenarioManager.scenarioIndex sm ≤ i)%nat (positions_read levels sm r).
Proof.
  revert sm r. induction levels as [| level levels IH]; intros sm r; simpl; [constructor |].
  destruct (ScenarioManager.getNextScenario level sm r) as [[[node sm'] |] r'] eqn:Hcall;
    [| constructor].
  apply Forall_app. split.
  - case_decide; repeat constructor.
  - eapply Forall_impl; [apply IH |]. simpl. intros i Hi.
    apply getNextScenario_cases in Hcall
      as [(_ & _ & -> & _) | [(path & _ & _ & _ & -> & _) | (path & _ & _ & ->)]];
      simpl in *; lia.
Qed.

(** A call of [getNextScenario], and a run of successive calls. *)
Lemma getNextScenario_calls (level : Z) (sm : ScenarioManager.t) (r : Rng) :
  (ScenarioManager.currentPath sm = None →
     ScenarioManager.getNextScenario level sm r = (Some (Some SCENARIOS.entrance, sm), r))
  ∧ (∀ path, ScenarioManager.currentPath sm = Some path →
       (length (ScenarioManager.sequence path sm) ≤ ScenarioManager.scenarioIndex sm)%nat →
       ScenarioManager.getNextScenario level sm r = (Some (None, sm), r))
  ∧ (∀ path, ScenarioManager.currentPath sm = Some path →
       (ScenarioManager.scenarioIndex sm < length (ScenarioManager.sequence path sm))%nat →
       unit_interval (source r (drawn r)) →
       ∃ node r', ScenarioManager.getNextScenario level sm r
                  = (Some (node, ScenarioManager.with_scenarioIndex
                                   (S (ScenarioManager.scenarioIndex sm)) sm), r'))
  ∧ (∀ node sm' r',
       ScenarioManager.getNextScenario level sm r = (Some (node, sm'), r') →
       (ScenarioManager.scenarioIndex sm ≤ ScenarioManager.scenarioIndex sm')%nat
       ∧ ScenarioManager.currentPath sm' = ScenarioManager.currentPath sm
       ∧ (∀ path, ScenarioManager.sequence path sm' = ScenarioManager.sequence path sm)
       ∧ (∀ path, ScenarioManager.currentPath sm = Some path →
            (ScenarioManager.scenarioIndex sm ≤ length (ScenarioManager.sequence path sm))%nat →
            (ScenarioManager.scenarioIndex sm' ≤ length (ScenarioManager.sequence path sm))%nat))
  ∧ (∀ levels, StronglySorted lt (positions_read levels sm r)).
Proof.
  split; [| split; [| split; [| split]]].
  - intros Hpath. unfold ScenarioManager.getNextScenario. by rewrite Hpath.
  - intros path Hpath Hlen. unfold ScenarioManager.getNextScenario. rewrite Hpath.
    by rewrite (proj2 (lookup_ge_None _ _) Hlen).
  - intros path Hpath Hlen Hq. unfold ScenarioManager.getNextScenario. rewrite Hpath.
    destruct (lookup_lt_is_Some_2 _ _ Hlen) as [scenarioType ->].
    repeat case_decide.
    + unfold rbind.
      pose proof (createCombatScenario_defined level
        (ScenarioManager.with_scenarioIndex (S (ScenarioManager.scenarioIndex sm)) sm) r Hq)
        as [s Hs].
      destruct (ScenarioManager.createCombatScenario _ _ r) as [o r1].
      simpl in Hs. subst o. unfold rret. simpl. by eexists _, _.
    + by eexists _, _.
    + by eexists _, _.
  - intros node sm' r' Hcall.
    apply getNextScenario_cases in Hcall
      as [(_ & _ & -> & _) | [(path & _ & _ & _ & -> & _) | (path & Hpath & Hlt & ->)]];
      repeat split; try done; try (by intros []).
    + simpl. lia.
    + intros path' Hpath' _. simpl. rewrite Hpath in Hpath'. simplify_eq. lia.
  - intros levels. revert sm r.
    induction levels as [| lv levels IH]; intros sm r; simpl; [constructor |].
    destruct (ScenarioManager.getNextScenario lv sm r) as [[[node sm'] |] r'] eqn:Hcall;
      [| constructor].
    case_decide as Hmoved; simpl; [apply IH |].
    constructor; [apply IH |].
    eapply Forall_impl; [apply positions_read_lower |]. simpl. intros i Hi.
    apply getNextScenario_cases in Hcall
      as [(_ & _ & -> & _) | [(path & _ & _ & _ & -> & _) | (path & _ & _ & ->)]];
      simpl in *; lia.
Qed.

(** ** Health bounds, operation by operation *)

Lemma Player_takeDamage_health (amount : Z) (p : Player.t) :
  player_health_ok p → player_health_ok (snd (Player.takeDamage amount p)).
Proof. unfold player_health_ok. simpl. lia. Qed.

Lemma Enemy_takeDamage_health (amount : Z) (e : Enemy.t) :
  enemy_health_ok e → enemy_health_ok (snd (Enemy.takeDamage amount e)).
Proof. unfold enemy_health_ok. simpl. lia. Qed.

Lemma levelUp_health (p : Player.t) :
  player_health_ok p → player_health_ok (Player.levelUp p).
Proof. unfold player_health_ok. simpl. lia. Qed.

Lemma addXP_health (amount : Z) (p : Player.t) :
  player_health_ok p → player_health_ok (snd (Player.addXP amount p)).
Proof.
  intros Hok. unfold Player.addXP. case_decide; simpl; [| done].
  by apply levelUp_health.
Qed.

Lemma Item_use_health (item : Item.t) (p : Player.t) :
  player_health_ok p → player_health_ok (snd (Item_use item p)).
Proof.
  unfold Item_use, player_health_ok.
  destruct (Item.effect item) as [b | []]; [done | |];
    case_decide; simpl; lia.
Qed.

Lemma allocateStat_health (stat : string) (p : Player.t) :
  player_health_ok p → player_health_ok (snd (Player.allocateStat stat p)).
Proof.
  unfold Player.allocateStat. case_decide; [| done].
  by destruct (Player.stat_get stat (Player.baseStats p)).
Qed.

(** ** The player of a running game *)

Lemma player_ok_new : player_ok Player.new.
Proof. by split; vm_compute. Qed.

Lemma player_ok_same (p p' : Player.t) :
  Player.health p' = Player.health p → Player.maxHealth p' = Player.maxHealth p →
  Player.level p' = Player.level p → Player.statPoints p' = Player.statPoints p →
  player_ok p → player_ok p'.
Proof.
  intros Hh Hm Hl Hs [H1 H2 H3 H4]. split; unfold player_health_ok in *; by rewrite ?Hh, ?Hm, ?Hl, ?Hs.
Qed.

Lemma takeDamage_ok (amount : Z) (p : Player.t) :
  player_ok p → player_ok (snd (Player.takeDamage amount p)).
Proof.
  intros [H1 H2 H3 H4]. split; try done. by apply Player_takeDamage_health.
Qed.

Lemma levelUp_ok (p : Player.t) : player_ok p → player_ok (Player.levelUp p).
Proof.
  intros [H1 H2 H3 H4]. split; simpl; unfold CONFIG.BASE_STAT_POINTS; try lia.
  by apply levelUp_health.
Qed.

Lemma addXP_ok (amount : Z) (p : Player.t) :
  player_ok p → player_ok (snd (Player.addXP amount p)).
Proof.
  intros Hok. unfold Player.addXP. case_decide; simpl.
  - apply levelUp_ok. revert Hok. by apply player_ok_same.
  - revert Hok. by apply player_ok_same.
Qed.

Lemma allocateStat_ok (stat : string) (p : Player.t) :
  player_ok p → player_ok (snd (Player.allocateStat stat p)).
Proof.
  intros [H1 H2 H3 H4]. unfold Player.allocateStat. case_decide; [| done].
  destruct (Player.stat_get stat (Player.baseStats p)); [| done].
  split; simpl; try done. lia.
Qed.

Lemma Item_use_ok (item : Item.t) (p : Player.t) :
  player_ok p → player_ok (snd (Item_use item p)).
Proof.
  intros [H1 H2 H3 H4]. split; try (by apply Item_use_health);
    unfold Item_use; destruct (Item.effect item) as [b | []]; try done;
    case_decide; done.
Qed.

(** The closures of the scenarios that cost health leave at least 1. *)
Lemma lose_health_ok (cost : Z) (p : Player.t) :
  0 ≤ cost → player_ok p →
  player_ok (Player.with_health (Z.max 1 (Player.health p - cost)) p).
Proof.
  intros Hc [H1 H2 H3 H4]. split; try done.
  unfold player_health_ok in *. simpl. lia.
Qed.

(** ** Rules of the weakest precondition *)

Lemma wp_ret {A} (a : A) (Q : A → Game.t → Prop) (g : Game.t) :
  Q a g → wp (Game.ret a) Q g.
Proof. intros H. by exists a, g. Qed.

Lemma wp_bind {A B} (m : Game.M A) (k : A → Game.M B) (Q : B → Game.t → Prop) (g : Game.t) :
  wp m (λ a g', wp (k a) Q g') g → wp (Game.bind m k) Q g.
Proof.
  intros (a & g1 & E1 & b & g2 & E2 & H). exists b, g2.
  split; [| done]. unfold Game.bind. by rewrite E1.
Qed.

Lemma wp_mono {A} (m : Game.M A) (Q Q' : A → Game.t → Prop) (g : Game.t) :
  wp m Q g → (∀ a g', Q a g' → Q' a g') → wp m Q' g.
Proof. intros (a & g' & E & H) HQ. exists a, g'. eauto. Qed.

Lemma wp_gets {A} (f : Game.t → A) (Q : A → Game.t → Prop) (g : Game.t) :
  Q (f g) g → wp (Game.gets f) Q g.
Proof. intros H. by exists (f g), g. Qed.

Lemma wp_modify (f : Game.t → Game.t) (Q : unit → Game.t → Prop) (g : Game.t) :
  Q tt (f g) → wp (Game.modify f) Q g.
Proof. intros H. by exists tt, (f g). Qed.

Lemma wp_random {A} (m : Rand A) (Q : A → Game.t → Prop) (g : Game.t) :
  Q (fst (m (Game.rng g))) (Game.with_rng (snd (m (Game.rng g))) g) →
  wp (Game.random m) Q g.
Proof.
  intros H. unfold wp, Game.random. destruct (m (Game.rng g)) as [a r]. eauto.
Qed.

Lemma wp_nonnull {A} (v : option A) (a : A) (Q : A → Game.t → Prop) (g : Game.t) :
  v = Some a → Q a g → wp (Game.nonnull v) Q g.
Proof. intros -> H. by exists a, g. Qed.

#[global] Arguments wp : simpl never.

(** Reading a field of an updated game. *)
Ltac gsimpl :=
  cbn [Game.state Game.player Game.combatSystem Game.scenarioManager
       Game.currentEnemy Game.currentScenario Game.selectedOption
       Game.inventorySelection Game.statSelection Game.lastKeyPress Game.keyDelay
       Game.messageLog Game.gameResult Game.rng Game.timers
       Game.with_state Game.with_player Game.with_combatSystem
       Game.with_scenarioManager Game.with_currentEnemy Game.with_currentScenario
       Game.with_selectedOption Game.with_inventorySelection Game.with_statSelection
       Game.with_lastKeyPress Game.with_messageLog Game.with_gameResult
       Game.with_rng Game.with_timers fst snd] in *.

(** One step of symbolic execution of an action. *)
Ltac wp_step :=
  lazymatch goal with
  | |- wp (Game.bind _ _) _ _ => apply wp_bind
  | |- wp (Game.ret _) _ _ => apply wp_ret
  | |- wp (Game.gets _) _ _ => apply wp_gets
  | |- wp (Game.modify _) _ _ => apply wp_modify
  | |- wp (Game.setState _) _ _ => apply wp_modify
  | |- wp (Game.setPlayer _) _ _ => apply wp_modify
  | |- wp (Game.updPlayer _) _ _ => apply wp_modify
  | |- wp (Game.giveItem _) _ _ => apply wp_modify
  | |- wp (Game.giveXP _) _ _ => apply wp_modify
  | |- wp (Game.bumpBase _ _) _ _ => apply wp_modify
  | |- wp (Game.addMessage _) _ _ => apply wp_modify
  | |- wp Game.endTurn _ _ => apply wp_modify
  | |- wp Game.setTimeout _ _ => apply wp_modify
  | |- wp (Game.random _) _ _ => apply wp_random
  end.

Ltac wp_steps := repeat (wp_step; cbn beta).

(** ** The random source is only read *)

Lemma fair_source (r r' : Rng) : source r' = source r → fair r → fair r'.
Proof. unfold fair. by intros ->. Qed.

Lemma keeps_rret {A} (a : A) : keeps_source (rret a).
Proof. by intros r. Qed.

Lemma keeps_Math_random : keeps_source Math_random.
Proof. by intros r. Qed.

Lemma keeps_rbind {A B} (m : Rand A) (k : A → Rand B) :
  keeps_source m → (∀ a, keeps_source (k a)) → keeps_source (rbind m k).
Proof.
  intros Hm Hk r. unfold rbind. specialize (Hm r).
  destruct (m r) as [a r']. simpl in Hm. by rewrite Hk.
Qed.

Ltac keeps :=
  repeat first
    [ apply keeps_rret | apply keeps_Math_random
    | apply keeps_rbind; [| intros ?]
    | match goal with
      | |- keeps_source (if ?c then _ else _) => destruct c
      | |- keeps_source (match ?x with _ => _ end) => destruct x
      | |- keeps_source (let '(_, _) := ?x in _) => destruct x
      end ].

Lemma keeps_randomInt (min max : Z) : keeps_source (randomInt min max).
Proof. unfold randomInt. keeps. Qed.

Lemma keeps_randomChoice {A} (array : list A) : keeps_source (randomChoice array).
Proof. unfold randomChoice. keeps. Qed.

Lemma keeps_Player_calculateDamage (p : Player.t) : keeps_source (Player.calculateDamage p).
Proof. unfold Player.calculateDamage. keeps. Qed.

Lemma keeps_Player_calculateSpecialDamage (p : Player.t) :
  keeps_source (Player.calculateSpecialDamage p).
Proof. unfold Player.calculateSpecialDamage. keeps. Qed.

Lemma keeps_Enemy_calculateDamage (e : Enemy.t) : keeps_source (Enemy.calculateDamage e).
Proof. unfold Enemy.calculateDamage. keeps. Qed.

Lemma keeps_chooseAction (p : Player.t) (e : Enemy.t) : keeps_source (Enemy.chooseAction p e).
Proof. unfold Enemy.chooseAction. keeps. Qed.

Lemma keeps_playerAttack (p : Player.t) (e : Enemy.t) (cs : CombatSystem.t) :
  keeps_source (CombatSystem.playerAttack p e cs).
Proof. unfold CombatSystem.playerAttack. keeps. Qed.

Lemma keeps_playerSpecialAttack (p : Player.t) (e : Enemy.t) (cs : CombatSystem.t) :
  keeps_source (CombatSystem.playerSpecialAttack p e cs).
Proof.
  unfold CombatSystem.playerSpecialAttack. keeps.
Qed.

Lemma keeps_enemyTurn (p : Player.t) (e : Enemy.t) (cs : CombatSystem.t) :
  keeps_source (CombatSystem.enemyTurn p e cs).
Proof.
  unfold CombatSystem.enemyTurn. keeps.
Qed.

Lemma keeps_attemptEscape (p : Player.t) (e : option Enemy.t) (cs : CombatSystem.t) :
  keeps_source (CombatSystem.attemptEscape p e cs).
Proof. unfold CombatSystem.attemptEscape. keeps. Qed.

Lemma keeps_getNextScenario (level : Z) (sm : ScenarioManager.t) :
  keeps_source (ScenarioManager.getNextScenario level sm).
Proof.
  unfold ScenarioManager.getNextScenario, ScenarioManager.createCombatScenario.
  keeps.
Qed.

(** ** Scenarios handed out by the sequencer *)

Lemma templates_ok (enemyType : string) (template : Z → Enemy.t) (level : Z) :
  ENEMY_TEMPLATES.lookup enemyType = Some template → 0 ≤ level →
  enemy_health_ok (template level).
Proof.
  unfold ENEMY_TEMPLATES.lookup. intros Ht Hl.
  repeat case_decide; simplify_eq; unfold enemy_health_ok; simpl; lia.
Qed.

Lemma catalog_ok (scenarioType : string) (s : Scenario) :
  SCENARIOS.lookup scenarioType = Some s → scenario_ok s ∧ selection_ok s 0.
Proof.
  unfold SCENARIOS.lookup. intros Hs.
  repeat case_decide; simplify_eq; split; simpl; done || lia.
Qed.

Lemma createCombatScenario_ok (level : Z) (sm : ScenarioManager.t) (r : Rng) (s : Scenario) :
  0 ≤ level →
  fst (ScenarioManager.createCombatScenario level sm r) = Some s →
  scenario_ok s ∧ selection_ok s 0.
Proof.
  intros Hl. unfold ScenarioManager.createCombatScenario, rbind.
  set (pick := match ScenarioManager.currentPath sm with
               | Some light => randomChoice ["goblin"; "knight"]
               | _ => randomChoice ["shadowBeast"; "darkMage"]
               end r).
  destruct pick as [[enemyType |] r1]; unfold rret; simpl; [| done].
  destruct (ENEMY_TEMPLATES.lookup enemyType) as [template |] eqn:Ht; simpl; [| done].
  intros H. simplify_eq. split; [| done]. simpl. by eapply templates_ok.
Qed.

Lemma getNextScenario_ok (level : Z) (sm : ScenarioManager.t) (r : Rng) :
  fair r → 1 ≤ level →
  ∃ node sm', fst (ScenarioManager.getNextScenario level sm r) = Some (node, sm')
    ∧ ∀ s, node = Some s → scenario_ok s ∧ selection_ok s 0.
Proof.
  intros Hfair Hl. unfold ScenarioManager.getNextScenario.
  destruct (ScenarioManager.currentPath sm) as [path |] eqn:Hpath.
  - destruct (ScenarioManager.sequence path sm !! ScenarioManager.scenarioIndex sm)
      as [scenarioType |] eqn:Hseq.
    + repeat case_decide.
      * unfold rbind.
        set (sm1 := ScenarioManager.with_scenarioIndex _ sm).
        pose proof (createCombatScenario_defined level sm1 r (Hfair _)) as [s Hs].
        pose proof (createCombatScenario_ok level sm1 r s ltac:(lia) Hs) as Hok.
        destruct (ScenarioManager.createCombatScenario level sm1 r) as [o r1].
        simpl in Hs. subst o. unfold rret. simpl.
        eexists _, _. split; [done |]. intros s' [= <-]. done.
      * unfold rret. simpl. eexists _, _. split; [done |].
        intros s [= <-]. split; [| done]. simpl.
        destruct (ScenarioManager.currentPath _) as [[|]|];
          unfold enemy_health_ok; simpl; lia.
      * unfold rret. simpl. eexists _, _. split; [done |].
        intros s Hs. by eapply catalog_ok.
    + unfold rret. simpl. eexists _, _. split; [done |]. done.
  - unfold rret. simpl. eexists _, _. split; [done |].
    intros s [= <-]. split; simpl; done || lia.
Qed.

(** ** The actions of the controller keep the invariant *)

Lemma wf_intro (g : Game.t) :
  fair (Game.rng g) → player_ok (Game.player g) →
  (∀ e, Game.currentEnemy g = Some e → enemy_health_ok e) →
  (∀ s, Game.currentScenario g = Some s → scenario_ok s) →
  (Game.state g = COMBAT → is_Some (Game.currentEnemy g)) →
  Game.timers g = 0%nat →
  (Game.state g = SCENARIO →
   ∃ s, Game.currentScenario g = Some s ∧ selection_ok s (Game.selectedOption g)) →
  wf g.
Proof. intros. split; [by split | done | by left | done]. Qed.

Ltac quiet_hyp H :=
  let Hfair := fresh "Hfair" in
  let Hplayer := fresh "Hplayer" in
  let Henemy := fresh "Henemy" in
  let Hscen := fresh "Hscen" in
  let Htimers := fresh "Htimers" in
  destruct H as [[Hfair Hplayer Henemy Hscen] Htimers].

Lemma gameOver_wf (g : Game.t) : quiet g → wp Game.gameOver (λ _, wf) g.
Proof.
  intros Hg. quiet_hyp Hg. unfold Game.gameOver. wp_steps.
  apply wf_intro; simpl; auto; done.
Qed.

Lemma victory_quiet (g : Game.t) :
  quiet g → wp Game.victory (λ _ g', quiet g' ∧ wf g') g.
Proof.
  intros Hg. quiet_hyp Hg. unfold Game.victory. wp_steps.
  split; [by split; [split |] |].
  apply wf_intro; simpl; auto; done.
Qed.

Lemma victory_wf (g : Game.t) : quiet g → wp Game.victory (λ _, wf) g.
Proof.
  intros Hg. eapply wp_mono; [by apply victory_quiet |]. by intros ? g' [_ Hwf].
Qed.

Lemma proceedToNextScenario_wf (g : Game.t) :
  quiet g → wp Game.proceedToNextScenario (λ _, wf) g.
Proof.
  intros Hg. pose proof Hg as Hq. quiet_hyp Hg.
  unfold Game.proceedToNextScenario. wp_steps.
  destruct (getNextScenario_ok (Player.level (Game.player g)) (Game.scenarioManager g)
              (Game.rng g) Hfair (ok_level _ Hplayer)) as (node & sm' & Hnext & Hnode).
  pose proof (keeps_getNextScenario (Player.level (Game.player g))
                (Game.scenarioManager g) (Game.rng g)) as Hsrc.
  destruct (ScenarioManager.getNextScenario _ _ (Game.rng g)) as [res r1].
  simpl in Hnext, Hsrc. subst res. cbn [fst snd].
  eapply wp_nonnull; [done |]. wp_steps. cbn [fst snd].
  assert (Hfair1 : fair r1) by (by eapply fair_source).
  destruct node as [s |].
  - wp_steps. destruct (Hnode s eq_refl) as [Hs Hsel].
    apply wf_intro; simpl; auto; try done.
    + by intros s' [= <-].
    + intros _. by exists s.
  - apply victory_wf. split; [split |]; simpl; auto.
Qed.

Lemma startCombat_wf (enemy : Enemy.t) (g : Game.t) :
  quiet g → enemy_health_ok enemy → wp (Game.startCombat enemy) (λ _, wf) g.
Proof.
  intros Hg He. quiet_hyp Hg. unfold Game.startCombat. wp_steps.
  apply wf_intro; simpl; auto; try done.
  by intros e [= <-].
Qed.

Ltac wp_if :=
  lazymatch goal with
  | |- wp (if ?c then _ else _) _ _ => destruct c eqn:?
  | |- wp (match ?x with _ => _ end) _ _ => destruct x eqn:?
  end.

Lemma quiet_intro (g : Game.t) :
  fair (Game.rng g) → player_ok (Game.player g) →
  (∀ e, Game.currentEnemy g = Some e → enemy_health_ok e) →
  (∀ s, Game.currentScenario g = Some s → scenario_ok s) →
  Game.timers g = 0%nat →
  quiet g.
Proof. intros. by split; [split |]. Qed.

Lemma with_inventory_ok (inv : Inventory.t) (p : Player.t) :
  player_ok p → player_ok (Player.with_inventory inv p).
Proof. by apply player_ok_same. Qed.

Lemma with_tempStats_ok (temp : gmap string Z) (p : Player.t) :
  player_ok p → player_ok (Player.with_tempStats temp p).
Proof. by apply player_ok_same. Qed.

Lemma endCombat_wf (won : bool) (g : Game.t) :
  quiet g → (won = true → is_Some (Game.currentEnemy g)) →
  wp (Game.endCombat won) (λ _, wf) g.
Proof.
  intros Hg Hwon. unfold Game.endCombat. apply wp_bind.
  (* the first half ends quiet, and in a state of the invariant when it
     has returned early *)
  apply wp_mono with (Q := λ (continue : bool) g', quiet g' ∧ (continue = false → wf g')).
  - destruct won; [| wp_steps; by split].
    destruct (Hwon eq_refl) as [enemy Henemy']. wp_steps.
    eapply wp_nonnull; [done |]. wp_steps.
    apply wp_mono with (Q := λ _ g', quiet g').
    + quiet_hyp Hg. wp_if; [| wp_steps; apply quiet_intro; simpl; auto using addXP_ok].
      wp_steps. gsimpl.
      destruct (randomChoice_defined (Enemy.loot enemy) (Game.rng g) (Hfair _))
        as [loot Hloot]; [by destruct (Enemy.loot enemy) |].
      pose proof (keeps_randomChoice (Enemy.loot enemy) (Game.rng g)) as Hsrc.
      destruct (randomChoice (Enemy.loot enemy) (Game.rng g)) as [picked r1].
      simpl in Hloot, Hsrc. subst picked. cbn [fst snd]. wp_steps.
      assert (Hfair1 : fair r1) by (by eapply fair_source).
      wp_if; wp_steps; apply quiet_intro; simpl;
        auto using addXP_ok, with_inventory_ok.
    + clear Hg Hwon Henemy'. intros _ g1 Hg. cbn beta.
      assert (Hstay : quiet g1 ∧ (true = false → wf g1)) by (by split).
      pose proof Hg as Hq. quiet_hyp Hg. wp_if.
      * wp_steps. split; [by apply quiet_intro |]. intros _.
        apply wf_intro; gsimpl; auto; done.
      * wp_steps. destruct (Game.currentScenario g1) as [s |]; [| by wp_steps].
        destruct (isBoss s); [| by wp_steps]. wp_steps.
        eapply wp_mono; [by apply victory_quiet |].
        intros ? g' [Hq' Hwf']. by wp_steps.
  - clear Hg Hwon. intros continue g1 [Hg Hearly]. cbn beta.
    destruct continue; [| wp_steps; auto].
    quiet_hyp Hg. wp_steps. apply proceedToNextScenario_wf.
    apply quiet_intro; simpl; auto using with_tempStats_ok. done.
Qed.

Lemma checkCombatEnd_wf (g : Game.t) :
  quiet g → Game.state g = COMBAT → is_Some (Game.currentEnemy g) →
  wp Game.checkCombatEnd (λ _, wf) g.
Proof.
  intros Hg Hstate [enemy Henemy']. unfold Game.checkCombatEnd. wp_steps.
  eapply wp_nonnull; [done |].
  destruct (negb (Enemy.isAlive enemy)); [by apply endCombat_wf; eauto |].
  wp_steps. destruct (negb (Player.isAlive (Game.player g))); [by apply gameOver_wf |].
  wp_steps. quiet_hyp Hg.
  destruct (CombatSystem.playerTurn (Game.combatSystem g)) eqn:Hturn; cbn [negb]; wp_steps.
  - apply wf_intro; auto. by rewrite Hstate.
  - split; gsimpl.
    + by split.
    + by exists enemy.
    + right. by rewrite Htimers.
    + by rewrite Hstate.
Qed.

Lemma enemyTurn_ok (p : Player.t) (e : Enemy.t) (cs : CombatSystem.t) (r : Rng) :
  player_ok p → player_ok (snd (fst (fst (CombatSystem.enemyTurn p e cs r)))).
Proof.
  intros Hp. unfold CombatSystem.enemyTurn, rbind.
  destruct (Enemy.chooseAction p e r) as [[|] r1];
    destruct (Enemy.calculateDamage e r1) as [d r2];
    destruct (Math_random r2) as [q r3];
    destruct (Qltb q _); simpl; try done; by apply takeDamage_ok.
Qed.

Lemma playerAttack_ok (p : Player.t) (e : Enemy.t) (cs : CombatSystem.t) (r : Rng) :
  enemy_health_ok e →
  enemy_health_ok (snd (fst (fst (CombatSystem.playerAttack p e cs r)))).
Proof.
  intros He. unfold CombatSystem.playerAttack, rbind.
  destruct (Player.calculateDamage p r) as [d r1].
  destruct (Math_random r1) as [q r2].
  destruct (Qltb q _); simpl; try done. by apply Enemy_takeDamage_health.
Qed.

Lemma playerSpecialAttack_ok (p : Player.t) (e : Enemy.t) (cs : CombatSystem.t) (r : Rng) :
  enemy_health_ok e →
  enemy_health_ok (snd (fst (fst (CombatSystem.playerSpecialAttack p e cs r)))).
Proof.
  intros He. unfold CombatSystem.playerSpecialAttack, rbind.
  destruct (Player.calculateSpecialDamage p r) as [d r1].
  destruct (Math_random r1) as [q r2].
  destruct (Qltb q _); simpl; try done. by apply Enemy_takeDamage_health.
Qed.

Lemma enemyTurnCallback_wf (g : Game.t) :
  quiet g → Game.state g = COMBAT → is_Some (Game.currentEnemy g) →
  wp Game.enemyTurnCallback (λ _, wf) g.
Proof.
  intros Hg Hstate [enemy Henemy']. unfold Game.enemyTurnCallback. wp_steps.
  eapply wp_nonnull; [done |]. wp_steps. quiet_hyp Hg.
  apply checkCombatEnd_wf; gsimpl; [| done | by exists enemy].
  apply quiet_intro; gsimpl; auto.
  - eapply fair_source; [apply keeps_enemyTurn | done].
  - by apply enemyTurn_ok.
Qed.

Lemma executeCombatAction_wf (actionIndex : Z) (g : Game.t) :
  quiet g → Game.state g = COMBAT → is_Some (Game.currentEnemy g) →
  wp (Game.executeCombatAction actionIndex) (λ _, wf) g.
Proof.
  intros Hg Hstate [enemy Henemy']. pose proof Hg as Hq. quiet_hyp Hg.
  unfold Game.executeCombatAction. repeat case_decide.
  - wp_steps. eapply wp_nonnull; [done |]. wp_steps.
    apply checkCombatEnd_wf; gsimpl; [| done | by eexists].
    apply quiet_intro; gsimpl; auto.
    + eapply fair_source; [apply keeps_playerAttack | done].
    + intros e [= <-]. apply playerAttack_ok. by apply Henemy.
  - wp_steps. eapply wp_nonnull; [done |]. wp_steps.
    apply checkCombatEnd_wf; gsimpl; [| done | by eexists].
    apply quiet_intro; gsimpl; auto.
    + eapply fair_source; [apply keeps_playerSpecialAttack | done].
    + intros e [= <-]. apply playerSpecialAttack_ok. by apply Henemy.
  - wp_steps. apply wf_intro; gsimpl; auto; done.
  - wp_steps.
    assert (Hq1 : ∀ cs, quiet (Game.with_combatSystem cs
              (Game.with_rng (snd (CombatSystem.attemptEscape (Game.player g)
                 (Game.currentEnemy g) (Game.combatSystem g) (Game.rng g))) g))).
    { intros cs. apply quiet_intro; gsimpl; auto.
      eapply fair_source; [apply keeps_attemptEscape | done]. }
    wp_if.
    + apply endCombat_wf; [apply Hq1 | done].
    + wp_steps. apply checkCombatEnd_wf; gsimpl; [apply Hq1 | done | by eexists].
  - by apply checkCombatEnd_wf; eauto.
Qed.

Lemma randomInt_lower (min max : Z) (r : Rng) :
  unit_interval (source r (drawn r)) → min ≤ max → min ≤ fst (randomInt min max r) ≤ max.
Proof.
  intros Hq Hle. unfold randomInt, rbind, Math_random, rret. cbn [fst snd].
  pose proof (Qfloor_scaled _ (max - min + 1) Hq ltac:(lia)). lia.
Qed.

Lemma with_baseStats_ok (b : Player.Stats) (p : Player.t) :
  player_ok p → player_ok (Player.with_baseStats b p).
Proof. by apply player_ok_same. Qed.

Lemma with_chosenPath_ok (path : option string) (p : Player.t) :
  player_ok p → player_ok (Player.with_chosenPath path p).
Proof. by apply player_ok_same. Qed.

Lemma runAction_quiet (a : ChoiceAction) (g : Game.t) :
  quiet g → wp (Game.runAction a) (λ _ g', quiet g') g.
Proof.
  intros Hg. quiet_hyp Hg.
  assert (Hlose : ∀ cost, 0 ≤ cost → player_ok
            (Player.with_health (Z.max 1 (Player.health (Game.player g) - cost))
               (Game.player g))) by (intros; by apply lose_health_ok).
  destruct a; unfold Game.runAction; wp_steps;
    try (apply quiet_intro; gsimpl; cbv zeta;
         by auto using with_baseStats_ok, with_chosenPath_ok, with_inventory_ok,
                       with_tempStats_ok, addXP_ok).
  - (* offer a prayer *)
    apply quiet_intro; gsimpl; cbv zeta; auto.
    apply with_baseStats_ok, Hlose. lia.
  - (* search for treasure *)
    wp_if; wp_steps; apply quiet_intro; gsimpl; auto using with_inventory_ok.
  - (* step into the circle *)
    apply quiet_intro; gsimpl; cbv zeta; auto.
    apply with_baseStats_ok, Hlose.
    pose proof (randomInt_lower 10 20 (Game.rng g) (Hfair _)). lia.
  - (* use stealth *)
    wp_if; wp_steps; apply quiet_intro; gsimpl; auto using addXP_ok.
Qed.

Lemma wf_quiet (g : Game.t) : wf g → Game.state g ≠ COMBAT → quiet g.
Proof. intros [Hc _ [Ht | (_ & Hs & _)] _] Hne; [by split | done]. Qed.

Lemma wf_quiet_turn (g : Game.t) :
  wf g → CombatSystem.playerTurn (Game.combatSystem g) = true → quiet g.
Proof.
  intros [Hc _ [Ht | (_ & _ & Hturn)] _] Hne; [by split | congruence].
Qed.

Lemma quiet_wf (g : Game.t) :
  quiet g → Game.state g ≠ COMBAT → Game.state g ≠ SCENARIO → wf g.
Proof. intros [Hc Ht] H1 H2. split; [done | done | by left | done]. Qed.

Lemma index_in_range {A} (array : list A) (i : Z) :
  0 ≤ i < Z.of_nat (length array) → is_Some (Game.index array i).
Proof.
  intros Hi. unfold Game.index. rewrite decide_True by lia.
  apply lookup_lt_is_Some. lia.
Qed.

Lemma handleScenarioInput_wf (key : string) (g : Game.t) :
  wf g → Game.state g = SCENARIO → wp (Game.handleScenarioInput key) (λ _, wf) g.
Proof.
  intros Hwf Hstate.
  assert (Hq : quiet g) by (apply wf_quiet; [done | by rewrite Hstate]).
  destruct (wf_selection g Hwf Hstate) as (s & Hs & Hsel).
  pose proof (core_scenario g (wf_core g Hwf) s Hs) as Hok.
  unfold Game.handleScenarioInput. wp_steps. rewrite Hs.
  destruct s as [title description choices | title description enemy boss].
  - wp_steps. simpl in Hsel. quiet_hyp Hq. repeat case_decide.
    + wp_steps. apply wf_intro; gsimpl; auto; [by rewrite Hstate |].
      intros _. exists (Narrative title description choices). split; [done |]. simpl. lia.
    + wp_steps. apply wf_intro; gsimpl; auto; [by rewrite Hstate |].
      intros _. exists (Narrative title description choices). split; [done |]. simpl. lia.
    + destruct (index_in_range choices (Game.selectedOption g) Hsel) as [choice Hchoice].
      wp_steps. eapply wp_nonnull; [done |]. wp_steps.
      eapply wp_mono; [apply runAction_quiet; by split; [split |] |].
      intros result g' Hq'. quiet_hyp Hq'. wp_steps.
      apply proceedToNextScenario_wf. by apply quiet_intro.
    + by wp_steps.
  - case_decide; [| by wp_steps]. by apply startCombat_wf.
Qed.

Lemma handleCombatInput_wf (key : string) (g : Game.t) :
  wf g → Game.state g = COMBAT → wp (Game.handleCombatInput key) (λ _, wf) g.
Proof.
  intros Hwf Hstate. unfold Game.handleCombatInput. wp_steps.
  destruct (CombatSystem.playerTurn (Game.combatSystem g)) eqn:Hturn; cbn [negb];
    [| by wp_steps].
  pose proof (wf_quiet_turn g Hwf Hturn) as Hq.
  pose proof (wf_combat g Hwf Hstate) as Henemy'.
  wp_steps. repeat case_decide.
  - wp_steps. quiet_hyp Hq. apply wf_intro; gsimpl; auto. by rewrite Hstate.
  - wp_steps. quiet_hyp Hq. apply wf_intro; gsimpl; auto. by rewrite Hstate.
  - by apply executeCombatAction_wf.
  - by wp_steps.
Qed.

Lemma handleInventoryInput_wf (key : string) (g : Game.t) :
  wf g → Game.state g = INVENTORY → wp (Game.handleInventoryInput key) (λ _, wf) g.
Proof.
  intros Hwf Hstate.
  assert (Hq : quiet g) by (apply wf_quiet; [done | by rewrite Hstate]).
  quiet_hyp Hq.
  assert (Hend : ∀ g', Game.state g' = Game.state g → quiet g' → wf g').
  { intros g' Hs' Hq'. apply quiet_wf; [done | |]; by rewrite Hs', Hstate. }
  unfold Game.handleInventoryInput. wp_steps. repeat case_decide.
  - wp_steps. apply Hend; [done |]. by apply quiet_intro.
  - wp_steps. apply Hend; [done |]. by apply quiet_intro.
  - destruct (Game.index _ _) as [item |]; [| by wp_steps].
    case_decide.
    + wp_steps. destruct (fst (Item_use item (Game.player g))); wp_steps;
        (apply Hend; [done |]); apply quiet_intro; gsimpl;
        auto using Item_use_ok, with_inventory_ok.
    + wp_steps. apply Hend; [done |]. apply quiet_intro; gsimpl;
        auto using with_inventory_ok.
  - wp_steps. apply quiet_wf; gsimpl; [by apply quiet_intro | done | done].
  - by wp_steps.
Qed.

Lemma handleLevelUpInput_wf (key : string) (g : Game.t) :
  wf g → Game.state g = LEVEL_UP → wp (Game.handleLevelUpInput key) (λ _, wf) g.
Proof.
  intros Hwf Hstate.
  assert (Hq : quiet g) by (apply wf_quiet; [done | by rewrite Hstate]).
  quiet_hyp Hq.
  assert (Hend : ∀ g', Game.state g' = Game.state g → quiet g' → wf g').
  { intros g' Hs' Hq'. apply quiet_wf; [done | |]; by rewrite Hs', Hstate. }
  unfold Game.handleLevelUpInput. wp_steps. case_decide.
  - case_decide; [| by wp_steps].
    wp_steps. apply quiet_wf; gsimpl; [by apply quiet_intro | done | done].
  - wp_steps. repeat case_decide.
    + wp_steps. apply Hend; [done |]. by apply quiet_intro.
    + wp_steps. apply Hend; [done |]. by apply quiet_intro.
    + wp_steps. case_decide; wp_steps; (apply Hend; [done |]);
        apply quiet_intro; gsimpl; auto using allocateStat_ok.
    + by wp_steps.
Qed.

Lemma startGame_wf (g : Game.t) : quiet g → wp Game.startGame (λ _, wf) g.
Proof.
  intros Hq. quiet_hyp Hq. unfold Game.startGame. wp_steps.
  apply wf_intro; gsimpl; auto using player_ok_new; try done.
  - intros s [= <-]. done.
  - intros _. eexists. split; [done |]. simpl. lia.
Qed.

Lemma reset_wf (g : Game.t) : quiet g → wp Game.reset (λ _, wf) g.
Proof.
  intros Hq. quiet_hyp Hq. unfold Game.reset. wp_steps.
  apply wf_intro; gsimpl; auto using player_ok_new; done.
Qed.

Lemma wf_with_lastKeyPress (now : Z) (g : Game.t) :
  wf g → wf (Game.with_lastKeyPress now g).
Proof. intros [[Hfair Hplayer Henemy Hscen] Hcombat Htimers Hsel]. by split; [split | | |]. Qed.

Lemma handleKeyPress_wf (now : Z) (key : string) (g : Game.t) :
  wf g → wp (Game.handleKeyPress now key) (λ _, wf) g.
Proof.
  intros Hwf. unfold Game.handleKeyPress. wp_steps.
  case_decide; [by wp_steps |]. wp_steps.
  pose proof (wf_with_lastKeyPress now g Hwf) as Hwf'.
  set (g1 := Game.with_lastKeyPress now g) in *. clearbody g1.
  clear Hwf. destruct (Game.state g1) eqn:Hstate.
  - case_decide; [| by wp_steps]. apply startGame_wf, wf_quiet; [done | by rewrite Hstate].
  - case_decide; [| by wp_steps]. wp_steps.
    assert (Hq : quiet g1) by (apply wf_quiet; [done | by rewrite Hstate]). quiet_hyp Hq.
    apply quiet_wf; gsimpl; [by apply quiet_intro | done | done].
  - by apply handleCombatInput_wf.
  - by apply handleScenarioInput_wf.
  - by apply handleInventoryInput_wf.
  - by apply handleLevelUpInput_wf.
  - case_decide; [| by wp_steps]. apply reset_wf, wf_quiet; [done | by rewrite Hstate].
  - case_decide; [| by wp_steps]. apply reset_wf, wf_quiet; [done | by rewrite Hstate].
Qed.

Lemma step_wf (ev : Event) (g : Game.t) : wf g → wp (Game.step ev) (λ _, wf) g.
Proof.
  intros Hwf. destruct ev as [now key |]; cbn [Game.step]; [by apply handleKeyPress_wf |].
  wp_steps. destruct (Game.timers g) as [| n] eqn:Htimers; [by wp_steps |].
  destruct Hwf as [[Hfair Hplayer Henemy Hscen] Hcombat [Ht | (Ht & Hstate & Hturn)] Hsel];
    [congruence |].
  assert (n = 0%nat) as -> by congruence.
  wp_steps. apply enemyTurnCallback_wf; gsimpl; [by apply quiet_intro | done | auto].
Qed.

Lemma wf_new (r : Rng) : fair r → wf (Game.new r).
Proof.
  intros Hfair. apply wf_intro; simpl; auto using player_ok_new; done.
Qed.

Lemma run_wf (evs : list Event) (g : Game.t) : wf g → wp (Game.run evs) (λ _, wf) g.
Proof.
  revert g. induction evs as [| ev evs IH]; intros g Hwf; cbn [Game.run]; [by wp_steps |].
  wp_steps. eapply wp_mono; [by apply step_wf |]. intros ? g' Hwf'. by apply IH.
Qed.

Lemma wf_health (g : Game.t) : wf g → game_health_ok g.
Proof.
  intros [[Hfair Hplayer Henemy Hscen] _ _ _]. split; [by destruct Hplayer |].
  split; [done |]. intros title description e boss Hs. by apply (Hscen _ Hs).
Qed.

(** C3: the bounds 0 <= health <= maxHealth are kept by taking damage
    (player and enemy), by using an item (the health potion among them)
    and by a level-up; a scenario choice keeps them in every state of the
    invariant; and whatever the events and the draws of the random source,
    the game runs without a [TypeError] and the player, the current enemy
    and the enemy of the current encounter are within their bounds
    afterwards. *)
Theorem health_bounds_invariant :
  (∀ (p : Player.t) (amount : Z),
     player_health_ok p → player_health_ok (snd (Player.takeDamage amount p)))
  ∧ (∀ (e : Enemy.t) (amount : Z),
     enemy_health_ok e → enemy_health_ok (snd (Enemy.takeDamage amount e)))
  ∧ (∀ (item : Item.t) (p : Player.t),
     player_health_ok p → player_health_ok (snd (Item_use item p)))
  ∧ (∀ p : Player.t, player_health_ok p → player_health_ok (Player.levelUp p))
  ∧ (∀ (a : ChoiceAction) (g : Game.t),
     quiet g → wp (Game.runAction a) (λ _ g', player_health_ok (Game.player g')) g)
  ∧ (∀ (r : Rng) (evs : list Event),
     fair r → wp (Game.run evs) (λ _ g, game_health_ok g) (Game.new r)).
Proof.
  split; [| split; [| split; [| split; [| split]]]].
  - intros p amount. apply Player_takeDamage_health.
  - intros e amount. apply Enemy_takeDamage_health.
  - intros item p. apply Item_use_health.
  - apply levelUp_health.
  - intros a g Hq. eapply wp_mono; [by apply runAction_quiet |].
    intros ? g' [[_ Hp _ _] _]. by destruct Hp.
  - intros r evs Hfair. eapply wp_mono; [by apply run_wf, wf_new |].
    intros ? g. apply wf_health.
Qed.

Lemma health_bounds_invariant_witness :
  let r := mkRng (λ _, 0.5%Q) 0 in
  let evs := [Key 1000 "Enter"; Key 2000 "Enter"; Key 3000 "Enter"; Key 4000 "Enter";
              Key 5000 "Enter"; Timer] in
  fair r ∧ wp (Game.run evs) (λ _ g, game_health_ok g ∧ Player.health (Game.player g) = 80)
              (Game.new r).
Proof.
  intros r evs.
  assert (Hfair : fair r) by (intros n; split; simpl; [discriminate | reflexivity]).
  split; [exact Hfair |].
  destruct (proj2 (proj2 (proj2 (proj2 (proj2 health_bounds_invariant)))) r evs Hfair)
    as (a & g & Hrun & Hok).
  exists a, g. split; [exact Hrun |]. split; [exact Hok |].
  vm_compute in Hrun. by simplify_eq.
Defined.

(** ** The states that lead nowhere *)

Lemma stalled_refl (g : Game.t) :
  dead_end (Game.state g) → Game.timers g = 0%nat → stalled g g.
Proof. intros. by repeat split. Qed.

Lemma handleInventoryInput_stalled (key : string) (g0 g : Game.t) :
  stalled g0 g → wp (Game.handleInventoryInput key) (λ _ g', stalled g0 g') g.
Proof.
  intros (Hdead & Ht & Hsm & Hs & He).
  assert (Hsame : ∀ g', Game.state g' = Game.state g → Game.timers g' = Game.timers g →
            Game.scenarioManager g' = Game.scenarioManager g →
            Game.currentScenario g' = Game.currentScenario g →
            Game.currentEnemy g' = Game.currentEnemy g → stalled g0 g').
  { intros g' E1 E2 E3 E4 E5. unfold stalled. by rewrite E1, E2, E3, E4, E5. }
  unfold Game.handleInventoryInput. wp_steps. repeat case_decide.
  - wp_steps. by apply Hsame.
  - wp_steps. by apply Hsame.
  - destruct (Game.index _ _) as [item |]; [| by wp_steps].
    case_decide.
    + wp_steps. destruct (fst (Item_use item (Game.player g))); wp_steps; by apply Hsame.
    + wp_steps. by apply Hsame.
  - wp_steps. unfold stalled, dead_end. gsimpl. auto 10.
  - by wp_steps.
Qed.

Lemma handleLevelUpInput_stalled (key : string) (g0 g : Game.t) :
  stalled g0 g → wp (Game.handleLevelUpInput key) (λ _ g', stalled g0 g') g.
Proof.
  intros (Hdead & Ht & Hsm & Hs & He).
  assert (Hsame : ∀ g', Game.state g' = Game.state g → Game.timers g' = Game.timers g →
            Game.scenarioManager g' = Game.scenarioManager g →
            Game.currentScenario g' = Game.currentScenario g →
            Game.currentEnemy g' = Game.currentEnemy g → stalled g0 g').
  { intros g' E1 E2 E3 E4 E5. unfold stalled. by rewrite E1, E2, E3, E4, E5. }
  unfold Game.handleLevelUpInput. wp_steps. case_decide.
  - case_decide; [| by wp_steps].
    wp_steps. unfold stalled, dead_end. gsimpl. auto 10.
  - wp_steps. repeat case_decide.
    + wp_steps. by apply Hsame.
    + wp_steps. by apply Hsame.
    + wp_steps. case_decide; wp_steps; by apply Hsame.
    + by wp_steps.
Qed.

Lemma stalled_with_lastKeyPress (now : Z) (g0 g : Game.t) :
  stalled g0 g → stalled g0 (Game.with_lastKeyPress now g).
Proof. done. Qed.

Lemma step_stalled (ev : Event) (g0 g : Game.t) :
  stalled g0 g → wp (Game.step ev) (λ _ g', stalled g0 g') g.
Proof.
  intros Hst. destruct ev as [now key |]; cbn [Game.step].
  - unfold Game.handleKeyPress. wp_steps. case_decide; [by wp_steps |]. wp_steps.
    pose proof (stalled_with_lastKeyPress now g0 g Hst) as Hst'.
    set (g1 := Game.with_lastKeyPress now g) in *. clearbody g1. clear Hst.
    pose proof Hst' as (Hdead & Ht & Hsm & Hs & He).
    destruct Hdead as [Hstate | [Hstate | Hstate]]; rewrite Hstate.
    + by apply handleLevelUpInput_stalled.
    + case_decide; [| by wp_steps]. wp_steps.
      unfold stalled, dead_end. gsimpl. auto 10.
    + by apply handleInventoryInput_stalled.
  - destruct Hst as (Hdead & Ht & Hsm & Hs & He). wp_steps. rewrite Ht. by wp_steps.
Qed.

Lemma run_stalled (evs : list Event) (g0 g : Game.t) :
  stalled g0 g → wp (Game.run evs) (λ _ g', stalled g0 g') g.
Proof.
  revert g. induction evs as [| ev evs IH]; intros g Hst; cbn [Game.run]; [by wp_steps |].
  wp_steps. eapply wp_mono; [by apply step_stalled |]. intros ? g' Hst'. by apply IH.
Qed.

(** ** The level-up branch of the combat end

    No game enters this branch (see the section on victory below): the
    experience that a playthrough grants stays below the threshold of
    level 2.  From a state set up with more experience, the combat-end
    check would leave the game in the level-up state and return: the
    enemy is not cleared, the temporary stats are kept, the progression
    and the scenario are untouched, the state is not the victory state
    even when the encounter was the boss, and no later event
    continues. *)
Lemma checkCombatEnd_levelUp_stalls (g : Game.t) (enemy : Enemy.t) :
  Game.currentEnemy g = Some enemy →
  Enemy.isAlive enemy = false →
  fst (Player.addXP (Enemy.xpReward enemy) (Game.player g)) = true →
  unit_interval (source (Game.rng g) (drawn (Game.rng g))) →
  Game.timers g = 0%nat →
  wp Game.checkCombatEnd
     (λ _ g',
        Game.state g' = LEVEL_UP
        ∧ Game.state g' ≠ VICTORY
        ∧ Player.level (Game.player g') = Player.level (Game.player g) + 1
        ∧ Player.tempStats (Game.player g') = Player.tempStats (Game.player g)
        ∧ Game.scenarioManager g' = Game.scenarioManager g
        ∧ Game.currentScenario g' = Game.currentScenario g
        ∧ Game.currentEnemy g' = Some enemy
        ∧ ∀ evs, wp (Game.run evs) (λ _ g'', stalled g' g'') g')
     g.
Proof.
  intros Henemy Hdead Hlevel Hq Htimers.
  unfold Game.checkCombatEnd. wp_steps.
  eapply wp_nonnull; [done |]. rewrite Hdead. cbn [negb].
  unfold Game.endCombat. wp_steps.
  eapply wp_nonnull; [done |]. wp_steps. gsimpl.
  set (leveled := Player.addXP (Enemy.xpReward enemy) (Game.player g)) in *.
  assert (Hlv : Player.level (snd leveled) = Player.level (Game.player g) + 1
                ∧ Player.tempStats (snd leveled) = Player.tempStats (Game.player g)).
  { subst leveled. unfold Player.addXP in *. by case_decide. }
  destruct Hlv as [Hlv Htemp].
  (* whatever the loot, the method then returns in the level-up state *)
  assert (Hend : ∀ g1,
            Player.level (Game.player g1) = Player.level (Game.player g) + 1 →
            Player.tempStats (Game.player g1) = Player.tempStats (Game.player g) →
            Game.timers g1 = 0%nat →
            Game.scenarioManager g1 = Game.scenarioManager g →
            Game.currentScenario g1 = Game.currentScenario g →
            Game.currentEnemy g1 = Some enemy →
            wp (if fst leveled
                then Game.bind (Game.setState LEVEL_UP)
                       (λ _, Game.bind (Game.modify (Game.with_statSelection 0))
                               (λ _, Game.ret false))
                else Game.bind (Game.gets Game.currentScenario)
                       (λ cs, match cs with
                              | Some s => if isBoss s
                                          then Game.bind Game.victory (λ _, Game.ret false)
                                          else Game.ret true
                              | None => Game.ret true
                              end))
               (λ continue g2,
                  wp (if continue : bool then
                        Game.bind (Game.modify (Game.with_currentEnemy None))
                          (λ _, Game.bind (Game.gets Game.player)
                             (λ p, Game.bind (Game.setPlayer (Player.with_tempStats ∅ p))
                                     (λ _, Game.proceedToNextScenario)))
                      else Game.ret tt)
                     (λ _ g',
                        Game.state g' = LEVEL_UP
                        ∧ Game.state g' ≠ VICTORY
                        ∧ Player.level (Game.player g') = Player.level (Game.player g) + 1
                        ∧ Player.tempStats (Game.player g') = Player.tempStats (Game.player g)
                        ∧ Game.scenarioManager g' = Game.scenarioManager g
                        ∧ Game.currentScenario g' = Game.currentScenario g
                        ∧ Game.currentEnemy g' = Some enemy
                        ∧ ∀ evs, wp (Game.run evs) (λ _ g'', stalled g' g'') g') g2)
               g1).
  { intros g1 E1 E2 E3 E4 E5 E6. rewrite Hlevel. wp_steps. gsimpl.
    repeat (split; [done |]). intros evs. apply run_stalled, stalled_refl; [by left | done]. }
  case_decide as Hloot; wp_steps.
  - gsimpl. destruct (randomChoice_defined (Enemy.loot enemy) (Game.rng g) Hq) as [loot Hpicked];
      [destruct (Enemy.loot enemy); [simpl in Hloot; lia | done] |].
    destruct (randomChoice (Enemy.loot enemy) (Game.rng g)) as [picked r1].
    cbn [fst snd] in *. subst picked. wp_steps.
    wp_if; wp_steps; by apply Hend.
  - by apply Hend.
Qed.

(** An instance, in a state set up by hand with 250 experience points. *)
Lemma checkCombatEnd_levelUp_stalls_witness :
  let r := mkRng (λ _, 0.5%Q) 0 in
  let sm := ScenarioManager.with_scenarioIndex 5
              (ScenarioManager.with_currentPath (Some light) ScenarioManager.new) in
  let boss := Enemy.with_health 0 (ENEMY_TEMPLATES.lightGuardian 2) in
  let p := Player.with_tempStats {[ "strength" := 5 ]} (Player.with_xp 250 Player.new) in
  let g := Game.mk COMBAT p (CombatSystem.mk [] false 9) sm (Some boss)
             (Some (ScenarioManager.createBossScenario 1 sm)) 0 0 0 9000 200 [] None r 0 in
  (isBoss <$> Game.currentScenario g) = Some true
  ∧ wp Game.checkCombatEnd
       (λ _ g', Game.state g' = LEVEL_UP
                ∧ Player.tempStats (Game.player g') = {[ "strength" := 5 ]}
                ∧ ScenarioManager.scenarioIndex (Game.scenarioManager g') = 5%nat
                ∧ ∀ evs, wp (Game.run evs) (λ _ g'', Game.state g'' ≠ VICTORY) g')
       g.
Proof.
  intros r sm boss p g. split; [reflexivity |].
  assert (H1 : Game.currentEnemy g = Some boss) by reflexivity.
  assert (H2 : Enemy.isAlive boss = false) by reflexivity.
  assert (H3 : fst (Player.addXP (Enemy.xpReward boss) (Game.player g)) = true)
    by reflexivity.
  assert (H4 : unit_interval (source (Game.rng g) (drawn (Game.rng g))))
    by (split; simpl; [discriminate | reflexivity]).
  assert (H5 : Game.timers g = 0%nat) by reflexivity.
  destruct (checkCombatEnd_levelUp_stalls g boss H1 H2 H3 H4 H5)
    as (a & g' & Hrun & Hstate & _ & _ & Htemp & Hsm & _ & _ & Hstall).
  exists a, g'. split; [exact Hrun |].
  split; [exact Hstate |]. split; [exact Htemp |]. split; [by rewrite Hsm |].
  intros evs. destruct (Hstall evs) as (a' & g'' & Hrun' & Hdead & _).
  exists a', g''. split; [exact Hrun' |].
  destruct Hdead as [E | [E | E]]; rewrite E; discriminate.
Defined.

(** ** Leaving the inventory *)

(** C2 (the code departs from the claim): the inventory opened from combat
    by the Use Item action is left, by Escape, i or I, for the exploring
    state and not for the combat, whose enemy is still there; from then on
    the game only moves between the exploring and inventory states. *)
Theorem inventory_from_combat_exits_to_exploring
    (g : Game.t) (now now' : Z) (key : string) :
  Game.state g = COMBAT →
  CombatSystem.playerTurn (Game.combatSystem g) = true →
  Game.selectedOption g = 2 →
  Game.timers g = 0%nat →
  Game.keyDelay g ≤ now - Game.lastKeyPress g →
  Game.keyDelay g ≤ now' - now →
  key = "Escape" ∨ key = "i" ∨ key = "I" →
  wp (Game.step (Key now "Enter"))
     (λ _ g1,
        Game.state g1 = INVENTORY
        ∧ wp (Game.step (Key now' key))
             (λ _ g2,
                Game.state g2 = EXPLORING
                ∧ Game.state g2 ≠ COMBAT
                ∧ Game.currentEnemy g2 = Game.currentEnemy g
                ∧ Game.combatSystem g2 = Game.combatSystem g
                ∧ ∀ evs, wp (Game.run evs) (λ _ g3, stalled g2 g3) g2)
             g1)
     g.
Proof.
  intros Hstate Hturn Hsel Htimers Hnow Hnow' Hkey.
  cbn [Game.step]. unfold Game.handleKeyPress. wp_steps.
  rewrite decide_False by lia. wp_steps. gsimpl. rewrite Hstate.
  unfold Game.handleCombatInput. wp_steps. gsimpl. rewrite Hturn. cbn [negb].
  wp_steps. gsimpl. rewrite !decide_False by done. rewrite decide_True by done.
  rewrite Hsel. unfold Game.executeCombatAction.
  rewrite !decide_False by done. rewrite decide_True by done. wp_steps. gsimpl.
  split; [done |].
  cbn [Game.step]. unfold Game.handleKeyPress. wp_steps. gsimpl.
  rewrite decide_False by lia. wp_steps. gsimpl.
  unfold Game.handleInventoryInput. wp_steps. gsimpl.
  rewrite !decide_False by (destruct Hkey as [-> | [-> | ->]]; done).
  rewrite decide_True by done. wp_steps. gsimpl.
  repeat (split; [done |]).
  intros evs. apply run_stalled, stalled_refl; [by right; left | done].
Qed.

Lemma inventory_from_combat_exits_to_exploring_witness :
  let r := mkRng (λ _, 0.5%Q) 0 in
  let evs := [Key 1000 "Enter"; Key 2000 "Enter"; Key 3000 "Enter"; Key 4000 "Enter";
              Key 5000 "ArrowDown"; Key 6000 "ArrowDown"] in
  ∃ g, Game.run evs (Game.new r) = Some (tt, g)
    ∧ Game.state g = COMBAT
    ∧ wp (Game.run [Key 7000 "Enter"; Key 8000 "Escape"])
         (λ _ g2, Game.state g2 = EXPLORING ∧ is_Some (Game.currentEnemy g2)) g.
Proof.
  intros r evs.
  destruct (Game.run evs (Game.new r)) as [[[] g] |] eqn:Hrun; [| by vm_compute in Hrun].
  exists g. split; [reflexivity |].
  vm_compute in Hrun. injection Hrun as <-.
  split; [reflexivity |].
  cbn [Game.run]. apply wp_bind.
  eapply wp_mono.
  - apply (inventory_from_combat_exits_to_exploring _ 7000 8000 "Escape");
      try reflexivity; [by vm_compute | by vm_compute | by left].
  - intros ? g1 [_ Hexit]. cbn beta. apply wp_bind.
    eapply wp_mono; [exact Hexit |].
    intros ? g2 (Hs & _ & He & _). cbn beta. apply wp_ret.
    split; [exact Hs |]. rewrite He. by eexists.
Defined.

(** ** Victory without a level-up *)



(** ** The cursor within a playthrough *)

Lemma grows_ret {A} (a : A) : cursor_grows (Game.ret a).
Proof. intros g a' g' [= _ <-]. done. Qed.

Lemma grows_throw {A} : cursor_grows (@Game.throw A).
Proof. by intros g a g'. Qed.

Lemma grows_bind {A B} (m : Game.M A) (k : A → Game.M B) :
  cursor_grows m → (∀ a, cursor_grows (k a)) → cursor_grows (Game.bind m k).
Proof.
  intros Hm Hk g b g2. unfold Game.bind.
  destruct (m g) as [[a g1] |] eqn:E1; [| done].
  intros E2. etrans; [by eapply Hm | by eapply Hk].
Qed.

Lemma grows_gets {A} (f : Game.t → A) : cursor_grows (Game.gets f).
Proof. intros g a g' [= _ <-]. done. Qed.

Lemma grows_modify (f : Game.t → Game.t) :
  (∀ g, cursor g ≤ cursor (f g))%nat → cursor_grows (Game.modify f).
Proof. intros Hf g a g' [= _ <-]. apply Hf. Qed.

Lemma grows_random {A} (m : Rand A) : cursor_grows (Game.random m).
Proof.
  intros g a g'. unfold Game.random. destruct (m (Game.rng g)) as [a' r].
  intros [= _ <-]. done.
Qed.

Lemma grows_nonnull {A} (v : option A) : cursor_grows (Game.nonnull v).
Proof. destruct v; [apply grows_ret | apply grows_throw]. Qed.

(** The actions already known to keep the cursor. *)
Create HintDb cursor.

(** Break an action down to the updates it makes. *)
Ltac grows :=
  repeat first
    [ solve [auto 1 with cursor nocore]
    | apply grows_ret | apply grows_throw | apply grows_gets | apply grows_random
    | apply grows_nonnull
    | apply grows_modify; intros ?; reflexivity
    | match goal with
      | |- cursor_grows (Game.bind _ _) => apply grows_bind; [| intros ?]
      | |- cursor_grows (if ?c then _ else _) => destruct c
      | |- cursor_grows (match ?x with _ => _ end) => destruct x
      end ].

Lemma grows_victory : cursor_grows Game.victory.
Proof. unfold Game.victory, Game.setState. grows. Qed.

Lemma grows_gameOver : cursor_grows Game.gameOver.
Proof. unfold Game.gameOver, Game.setState. grows. Qed.

Lemma grows_proceedToNextScenario : cursor_grows Game.proceedToNextScenario.
Proof.
  intros g a g'. unfold Game.proceedToNextScenario, Game.bind, Game.gets, Game.random.
  destruct (ScenarioManager.getNextScenario _ _ (Game.rng g)) as [[[node sm'] |] r1] eqn:Hcall;
    cbn [Game.nonnull Game.ret Game.throw]; [| done].
  assert (Hle : (cursor g ≤ ScenarioManager.scenarioIndex sm')%nat).
  { apply getNextScenario_cases in Hcall
      as [(_ & _ & -> & _) | [(path & _ & _ & _ & -> & _) | (path & _ & _ & ->)]];
      unfold cursor; simpl; lia. }
  cbn [fst snd Game.modify]. destruct node as [s |].
  - cbn. intros [= _ <-]. exact Hle.
  - intros Hv. apply grows_victory in Hv. etrans; [exact Hle | exact Hv].
Qed.

#[local] Hint Resolve grows_victory grows_gameOver grows_proceedToNextScenario : cursor.

Lemma grows_startCombat (enemy : Enemy.t) : cursor_grows (Game.startCombat enemy).
Proof. unfold Game.startCombat, Game.setState. grows. Qed.

Lemma grows_endCombat (won : bool) : cursor_grows (Game.endCombat won).
Proof. unfold Game.endCombat, Game.setState, Game.setPlayer, Game.addMessage. grows. Qed.

#[local] Hint Resolve grows_startCombat grows_endCombat : cursor.

Lemma grows_checkCombatEnd : cursor_grows Game.checkCombatEnd.
Proof. unfold Game.checkCombatEnd, Game.setTimeout. grows. Qed.

#[local] Hint Resolve grows_checkCombatEnd : cursor.

Lemma grows_enemyTurnCallback : cursor_grows Game.enemyTurnCallback.
Proof. unfold Game.enemyTurnCallback, Game.setPlayer, Game.endTurn. grows. Qed.

Lemma grows_executeCombatAction (actionIndex : Z) :
  cursor_grows (Game.executeCombatAction actionIndex).
Proof. unfold Game.executeCombatAction, Game.setState, Game.endTurn. grows. Qed.

Lemma grows_runAction (a : ChoiceAction) : cursor_grows (Game.runAction a).
Proof.
  destruct a; unfold Game.runAction, Game.updPlayer, Game.giveItem, Game.giveXP,
    Game.bumpBase, Game.updPlayer; grows.
Qed.

#[local] Hint Resolve grows_executeCombatAction grows_runAction : cursor.

Lemma grows_handleScenarioInput (key : string) : cursor_grows (Game.handleScenarioInput key).
Proof. unfold Game.handleScenarioInput, Game.addMessage. grows. Qed.

Lemma grows_handleCombatInput (key : string) : cursor_grows (Game.handleCombatInput key).
Proof. unfold Game.handleCombatInput. grows. Qed.

Lemma grows_handleInventoryInput (key : string) :
  cursor_grows (Game.handleInventoryInput key).
Proof.
  unfold Game.handleInventoryInput, Game.setState, Game.setPlayer, Game.updPlayer,
    Game.addMessage. grows.
Qed.

Lemma grows_handleLevelUpInput (key : string) :
  cursor_grows (Game.handleLevelUpInput key).
Proof.
  unfold Game.handleLevelUpInput, Game.setState, Game.updPlayer, Game.addMessage. grows.
Qed.

(** An event moves the cursor backwards only when it restarts the game:
    Enter in the menu, or after a defeat or a victory. *)
Lemma step_cursor (ev : Event) (g g' : Game.t) :
  Game.step ev g = Some (tt, g') →
  (cursor g ≤ cursor g')%nat
  ∨ (cursor g' = 0%nat
     ∧ (Game.state g = MENU ∨ Game.state g = GAME_OVER ∨ Game.state g = VICTORY)
     ∧ ∃ now, ev = Key now "Enter").
Proof.
  destruct ev as [now key |]; cbn [Game.step].
  - unfold Game.handleKeyPress, Game.bind, Game.gets.
    case_decide; [intros [= <-]; by left |].
    cbn [Game.modify]. set (g1 := Game.with_lastKeyPress now g).
    assert (Hc : cursor g1 = cursor g) by done.
    assert (Hs : Game.state g1 = Game.state g) by done.
    rewrite <- Hc, <- Hs. clearbody g1.
    destruct (Game.state g1) eqn:Hstate.
    + case_decide as Hkey; [| intros [= <-]; by left].
      intros Hrun. right. split; [| split; [by left | by exists now; subst]].
      vm_compute in Hrun. by injection Hrun as <-.
    + intros Hrun. left. revert Hrun.
      apply (grows_bind (Game.gets Game.state) (λ _, _)); [apply grows_gets |].
      intros _. unfold Game.setState. grows.
    + intros Hrun. left. by eapply grows_handleCombatInput.
    + intros Hrun. left. by eapply grows_handleScenarioInput.
    + intros Hrun. left. by eapply grows_handleInventoryInput.
    + intros Hrun. left. by eapply grows_handleLevelUpInput.
    + case_decide as Hkey; [| intros [= <-]; by left].
      intros Hrun. right. split; [| split; [by right; left | by exists now; subst]].
      vm_compute in Hrun. by injection Hrun as <-.
    + case_decide as Hkey; [| intros [= <-]; by left].
      intros Hrun. right. split; [| split; [by right; right | by exists now; subst]].
      vm_compute in Hrun. by injection Hrun as <-.
  - intros Hrun. left. revert Hrun.
    apply (grows_bind (Game.gets Game.timers)); [apply grows_gets |].
    intros [| n]; [apply grows_ret |].
    apply grows_bind; [apply grows_modify; by intros ? | intros _].
    apply grows_enemyTurnCallback.
Qed.

(** C5: before a path is chosen [getNextScenario] returns the entrance
    scenario and does not move the cursor; once the sequence of the path
    is exhausted it returns the completion signal and does not move the
    cursor; inside the sequence it moves the cursor by one (and returns,
    for a draw of the unit interval); no call moves the cursor backwards
    or past the length of the sequence; the positions read by any number
    of successive calls are strictly increasing, so none is read twice;
    and no event of the game moves the cursor backwards, except the Enter
    that starts a new playthrough from the menu, a defeat or a victory. *)
Theorem progression_cursor :
  (∀ (level : Z) (sm : ScenarioManager.t) (r : Rng),
     (ScenarioManager.currentPath sm = None →
        ScenarioManager.getNextScenario level sm r
        = (Some (Some SCENARIOS.entrance, sm), r))
     ∧ (∀ path, ScenarioManager.currentPath sm = Some path →
          (length (ScenarioManager.sequence path sm)
           ≤ ScenarioManager.scenarioIndex sm)%nat →
          ScenarioManager.getNextScenario level sm r = (Some (None, sm), r))
     ∧ (∀ path, ScenarioManager.currentPath sm = Some path →
          (ScenarioManager.scenarioIndex sm
           < length (ScenarioManager.sequence path sm))%nat →
          unit_interval (source r (drawn r)) →
          ∃ node r', ScenarioManager.getNextScenario level sm r
                     = (Some (node, ScenarioManager.with_scenarioIndex
                                      (S (ScenarioManager.scenarioIndex sm)) sm), r'))
     ∧ (∀ node sm' r',
          ScenarioManager.getNextScenario level sm r = (Some (node, sm'), r') →
          (ScenarioManager.scenarioIndex sm ≤ ScenarioManager.scenarioIndex sm')%nat
          ∧ ScenarioManager.currentPath sm' = ScenarioManager.currentPath sm
          ∧ (∀ path, ScenarioManager.sequence path sm' = ScenarioManager.sequence path sm)
          ∧ (∀ path, ScenarioManager.currentPath sm = Some path →
               (ScenarioManager.scenarioIndex sm
                ≤ length (ScenarioManager.sequence path sm))%nat →
               (ScenarioManager.scenarioIndex sm'
                ≤ length (ScenarioManager.sequence path sm))%nat))
     ∧ (∀ levels, StronglySorted lt (positions_read levels sm r)))
  ∧ (∀ (ev : Event) (g g' : Game.t),
       Game.step ev g = Some (tt, g') →
       (cursor g ≤ cursor g')%nat
       ∨ (cursor g' = 0%nat
          ∧ (Game.state g = MENU ∨ Game.state g = GAME_OVER ∨ Game.state g = VICTORY)
          ∧ ∃ now, ev = Key now "Enter")).
Proof.
  split.
  - apply getNextScenario_calls.
  - apply step_cursor.
Qed.

Lemma progression_cursor_witness :
  let sm := ScenarioManager.with_scenarioIndex 5
              (ScenarioManager.with_currentPath (Some light) ScenarioManager.new) in
  let r := mkRng (λ _, 0.5%Q) 0 in
  ScenarioManager.currentPath sm = Some light
  ∧ (length (ScenarioManager.sequence light sm) ≤ ScenarioManager.scenarioIndex sm)%nat
  ∧ ScenarioManager.getNextScenario 1 sm r = (Some (None, sm), r).
Proof.
  intros sm r.
  assert (Hpath : ScenarioManager.currentPath sm = Some light) by reflexivity.
  assert (Hlen : (length (ScenarioManager.sequence light sm)
                  ≤ ScenarioManager.scenarioIndex sm)%nat) by (simpl; lia).
  split; [exact Hpath |]. split; [exact Hlen |].
  exact (proj1 (proj2 (proj1 progression_cursor 1 sm r)) light Hpath Hlen).
Defined.

(** ** Partial correctness *)

Lemma wlp_ret {A} (a : A) (Q : A → Game.t → Prop) (g : Game.t) :
  Q a g → wlp (Game.ret a) Q g.
Proof. intros H a' g' [= <- <-]. exact H. Qed.

Lemma wlp_bind {A B} (m : Game.M A) (k : A → Game.M B) (Q : B → Game.t → Prop) (g : Game.t) :
  wlp m (λ a g', wlp (k a) Q g') g → wlp (Game.bind m k) Q g.
Proof.
  intros H b g'. unfold Game.bind.
  destruct (m g) as [[a g1] |] eqn:E; [| discriminate].
  intros Hk. exact (H a g1 E b g' Hk).
Qed.

Lemma wlp_mono {A} (m : Game.M A) (Q Q' : A → Game.t → Prop) (g : Game.t) :
  wlp m Q g → (∀ a g', Q a g' → Q' a g') → wlp m Q' g.
Proof. intros H HQ a g' E. apply HQ, H, E. Qed.

Lemma wlp_gets {A} (f : Game.t → A) (Q : A → Game.t → Prop) (g : Game.t) :
  Q (f g) g → wlp (Game.gets f) Q g.
Proof. intros H a' g' [= <- <-]. exact H. Qed.

Lemma wlp_modify (f : Game.t → Game.t) (Q : unit → Game.t → Prop) (g : Game.t) :
  Q tt (f g) → wlp (Game.modify f) Q g.
Proof. intros H a' g' [= <- <-]. exact H. Qed.

Lemma wlp_random {A} (m : Rand A) (Q : A → Game.t → Prop) (g : Game.t) :
  Q (fst (m (Game.rng g))) (Game.with_rng (snd (m (Game.rng g))) g) →
  wlp (Game.random m) Q g.
Proof.
  intros H a' g'. unfold Game.random. destruct (m (Game.rng g)) as [a r].
  intros [= <- <-]. exact H.
Qed.

Lemma wlp_nonnull {A} (v : option A) (Q : A → Game.t → Prop) (g : Game.t) :
  (∀ a, v = Some a → Q a g) → wlp (Game.nonnull v) Q g.
Proof.
  intros H a' g'. destruct v as [a |]; cbn; [| discriminate].
  intros [= <- <-]. by apply H.
Qed.

Lemma wlp_throw {A} (Q : A → Game.t → Prop) (g : Game.t) : wlp Game.throw Q g.
Proof. intros a' g'. discriminate. Qed.


Lemma wp_and_wlp {A} (m : Game.M A) (Q Q' : A → Game.t → Prop) (g : Game.t) :
  wp m Q g → wlp m Q' g → wp m (λ a g', Q a g' ∧ Q' a g') g.
Proof. intros (a & g1 & E & H) H'. exists a, g1. split; [done |]. split; [done | by apply H']. Qed.

#[global] Arguments wlp : simpl never.

Ltac wlp_step :=
  lazymatch goal with
  | |- wlp (Game.bind _ _) _ _ => apply wlp_bind
  | |- wlp (Game.ret _) _ _ => apply wlp_ret
  | |- wlp (Game.gets _) _ _ => apply wlp_gets
  | |- wlp Game.throw _ _ => apply wlp_throw
  | |- wlp (Game.modify _) _ _ => apply wlp_modify
  | |- wlp (Game.setState _) _ _ => apply wlp_modify
  | |- wlp (Game.setPlayer _) _ _ => apply wlp_modify
  | |- wlp (Game.updPlayer _) _ _ => apply wlp_modify
  | |- wlp (Game.giveItem _) _ _ => apply wlp_modify
  | |- wlp (Game.giveXP _) _ _ => apply wlp_modify
  | |- wlp (Game.bumpBase _ _) _ _ => apply wlp_modify
  | |- wlp (Game.addMessage _) _ _ => apply wlp_modify
  | |- wlp Game.endTurn _ _ => apply wlp_modify
  | |- wlp Game.setTimeout _ _ => apply wlp_modify
  | |- wlp (Game.random _) _ _ => apply wlp_random
  end.

Ltac wlp_steps := repeat (wlp_step; cbn beta).

(** ** The experience that a game can grant *)

Lemma choice_xp_nonneg (a : ChoiceAction) : 0 ≤ choice_xp a.
Proof. destruct a; cbn; lia. Qed.










(** ** The player of a game under way *)












(** ** The actions of the controller keep the game under way *)

























(** ** Victory *)





(** ** Random draws *)

Lemma Qfloor_plus_Z (q : Q) (n : Z) : Qfloor (q + inject_Z n) = Qfloor q + n.
Proof.
  destruct q as [a b]. unfold Qplus, inject_Z, Qfloor. cbn [Qnum Qden].
  rewrite Z.mul_1_r, Pos.mul_1_r. apply Z.div_add. lia.
Qed.

Lemma Qfloor_three_halves (n : Z) : Qfloor (inject_Z n * 1.5) = 3 * n / 2.
Proof.
  rewrite Zdiv_Qdiv. apply Qfloor_comp.
  unfold Qeq, Qdiv, Qmult, Qinv, inject_Z. cbn. lia.
Qed.

Lemma randomInt_rng (min max : Z) (r : Rng) :
  snd (randomInt min max r) = mkRng (source r) (S (drawn r)).
Proof. reflexivity. Qed.

(** X1: [randomInt(min, max)] with [min <= max] reads one draw and
    returns an integer of [min .. max], and every integer of that range
    is returned for some draw of [0, 1). *)
Theorem randomInt_range_onto (min max : Z) :
  min ≤ max →
  (∀ r, unit_interval (source r (drawn r)) →
        min ≤ fst (randomInt min max r) ≤ max
        ∧ snd (randomInt min max r) = mkRng (source r) (S (drawn r)))
  ∧ (∀ k, min ≤ k ≤ max →
        ∃ q, unit_interval q
             ∧ ∀ src n, src n = q → fst (randomInt min max (mkRng src n)) = k).
Proof.
  intros Hle. split.
  - intros r Hr. split; [apply randomInt_lower; assumption | reflexivity].
  - intros k Hk.
    exists (inject_Z (k - min) / inject_Z (max - min + 1))%Q.
    assert (Hpos : (0 < inject_Z (max - min + 1))%Q).
    { change 0%Q with (inject_Z 0). rewrite <- Zlt_Qlt. lia. }
    split.
    + split.
      * apply Qle_shift_div_l; [assumption |]. rewrite Qmult_0_l.
        change 0%Q with (inject_Z 0). rewrite <- Zle_Qle. lia.
      * apply Qlt_shift_div_r; [assumption |]. rewrite Qmult_1_l.
        rewrite <- Zlt_Qlt. lia.
    + intros src n Hq. unfold randomInt, rbind, Math_random, rret. cbn [fst source drawn].
      rewrite Hq.
      assert (Heq : (inject_Z (k - min) / inject_Z (max - min + 1)
                     * inject_Z (max - min + 1) == inject_Z (k - min))%Q).
      { field. intros H0. rewrite H0 in Hpos. discriminate. }
      rewrite (Qfloor_comp _ _ Heq), Qfloor_Z. lia.
Qed.

Lemma randomInt_range_onto_witness :
  10 ≤ 20
  ∧ ∃ q, unit_interval q
         ∧ ∀ src n, src n = q → fst (randomInt 10 20 (mkRng src n)) = 20.
Proof.
  split; [lia |].
  exact (proj2 (randomInt_range_onto 10 20 ltac:(lia)) 20 ltac:(lia)).
Defined.

(** X2: [randomChoice(array)] reads one draw; on a non-empty array it
    returns one of its elements, on an empty one [undefined]. *)
Theorem randomChoice_member {A} (array : list A) (r : Rng) :
  unit_interval (source r (drawn r)) →
  (array = [] → fst (randomChoice array r) = None)
  ∧ (array ≠ [] → ∃ x, fst (randomChoice array r) = Some x ∧ x ∈ array)
  ∧ snd (randomChoice array r) = mkRng (source r) (S (drawn r)).
Proof.
  intros Hr. split; [| split].
  - intros ->. unfold randomChoice, rbind, Math_random, rret. cbn [fst length].
    case_decide; [| reflexivity]. apply lookup_nil.
  - intros Hne. destruct (randomChoice_defined array r Hr Hne) as [x Hx].
    exists x. split; [assumption |]. apply (randomChoice_elem array r). assumption.
  - apply randomChoice_rng.
Qed.

Lemma randomChoice_member_witness :
  let r := mkRng (λ _, 0.5%Q) 0 in
  unit_interval (source r (drawn r))
  ∧ ∃ x, fst (randomChoice ["goblin"; "knight"] r) = Some x ∧ x ∈ ["goblin"; "knight"].
Proof.
  assert (H : unit_interval (source (mkRng (λ _, 0.5%Q) 0) (drawn (mkRng (λ _, 0.5%Q) 0)))).
  { unfold unit_interval, Qle, Qlt; cbn; lia. }
  split; [exact H |].
  exact (proj1 (proj2 (randomChoice_member ["goblin"; "knight"] (mkRng (λ _, 0.5%Q) 0) H))
           ltac:(discriminate)).
Defined.

(** ** Experience *)

Lemma calculateXPForLevel_mono (l l' : Z) :
  l ≤ l' → calculateXPForLevel l ≤ calculateXPForLevel l'.
Proof.
  intros Hle. unfold calculateXPForLevel, CONFIG.XP_CURVE_MULTIPLIER.
  change (100 ^ 2) with 10000. apply Z.sqrt_le_mono.
  assert (l ^ 3 = l * l * l) as -> by ring.
  assert (l' ^ 3 = l' * l' * l') as -> by ring.
  assert (Hs : 0 ≤ l' * l' + l' * l + l * l).
  { pose proof (Z.square_nonneg (2 * l' + l)). pose proof (Z.square_nonneg l). nia. }
  pose proof (Z.mul_nonneg_nonneg (l' - l) _ ltac:(lia) Hs) as Hp.
  replace ((l' - l) * (l' * l' + l' * l + l * l)) with (l' * l' * l' - l * l * l) in Hp by ring.
  lia.
Qed.



(** X4: [addXP] adds the amount to the experience, which a level-up does
    not spend; it levels up exactly when the experience reaches the
    threshold of the next level, and by one level per call: an amount
    that also covers the threshold after it leaves the player below the
    level the experience stands for. *)
Theorem addXP_one_level_per_call (amount : Z) (p : Player.t) :
  let r := Player.addXP amount p in
  Player.xp (snd r) = Player.xp p + amount
  ∧ (fst r = true ↔ calculateXPForLevel (Player.level p + 1) ≤ Player.xp p + amount)
  ∧ Player.level (snd r) = Player.level p + (if fst r then 1 else 0)
  ∧ snd r = (if fst r then Player.levelUp else id) (Player.with_xp (Player.xp p + amount) p)
  ∧ (calculateXPForLevel (Player.level p + 2) ≤ Player.xp p + amount →
     fst r = true
     ∧ calculateXPForLevel (Player.level (snd r) + 1) ≤ Player.xp (snd r)).
Proof.
  pose proof (calculateXPForLevel_mono (Player.level p + 1) (Player.level p + 2)
                ltac:(lia)) as Hmono.
  unfold Player.addXP. cbn zeta. cbn [Player.with_xp Player.level Player.xp].
  case_decide as Hdec; cbn [fst snd Player.levelUp Player.xp Player.level Player.with_xp].
  - split; [reflexivity |]. split; [tauto |]. split; [reflexivity |].
    split; [reflexivity |]. intros Hnext. split; [reflexivity |].
    replace (Player.level p + 1 + 1) with (Player.level p + 2) by lia. assumption.
  - split; [reflexivity |]. split; [split; [discriminate | tauto] |].
    split; [lia |]. split; [reflexivity |]. intros Hnext. lia.
Qed.

(** ** Damage rolls *)

Lemma Qltb_lt (a b : Q) : Qltb a b = true ↔ (a < b)%Q.
Proof.
  unfold Qltb. rewrite negb_true_iff. split.
  - intros H. apply Qnot_le_lt. intros Hle. apply Qle_bool_iff in Hle. congruence.
  - intros H. destruct (Qle_bool b a) eqn:E; [| reflexivity].
    apply Qle_bool_iff in E. exfalso. exact (Qlt_not_le _ _ H E).
Qed.

(** X5: with a draw of [0, 1), every damage roll is at least 1 and lies
    within the variance of its base: twice the strength minus 2 to plus 3
    for the player's attack, strength plus one and a half times the
    intelligence (rounded down) minus 3 to plus 5 for the special attack,
    one and a half times the strength (rounded down) minus 2 to plus 2 for
    an enemy. *)
Theorem damage_rolls_in_range (r : Rng) :
  unit_interval (source r (drawn r)) →
  (∀ p : Player.t,
     let s := Player.strength (Player.getTotalStats p) in
     let d := fst (Player.calculateDamage p r) in
     1 ≤ d ∧ 2 * s - 2 ≤ d ≤ Z.max 1 (2 * s + 3))
  ∧ (∀ p : Player.t,
     let s := Player.strength (Player.getTotalStats p) in
     let i := Player.intelligence (Player.getTotalStats p) in
     let d := fst (Player.calculateSpecialDamage p r) in
     1 ≤ d ∧ s + 3 * i / 2 - 3 ≤ d ≤ Z.max 1 (s + 3 * i / 2 + 5))
  ∧ (∀ e : Enemy.t,
     let b := Qfloor (Enemy.strength e * 1.5) in
     let d := fst (Enemy.calculateDamage e r) in
     1 ≤ d ∧ b - 2 ≤ d ≤ Z.max 1 (b + 2)).
Proof.
  intros Hr. split; [| split].
  - intros p s d.
    pose proof (randomInt_lower (-2) 3 r Hr ltac:(lia)) as Hv.
    subst d. unfold Player.calculateDamage, rbind, rret.
    destruct (randomInt (-2) 3 r) as [v r'] eqn:E. cbn [fst] in *. subst s. lia.
  - intros p s i d.
    pose proof (randomInt_lower (-3) 5 r Hr ltac:(lia)) as Hv.
    subst d. unfold Player.calculateSpecialDamage, rbind, rret.
    destruct (randomInt (-3) 5 r) as [v r'] eqn:E. cbn [fst] in *.
    rewrite Qfloor_plus_Z, Qplus_comm, Qfloor_plus_Z, Qfloor_three_halves.
    subst s i. lia.
  - intros e b d.
    pose proof (randomInt_lower (-2) 2 r Hr ltac:(lia)) as Hv.
    subst d. unfold Enemy.calculateDamage, rbind, rret.
    destruct (randomInt (-2) 2 r) as [v r'] eqn:E. cbn [fst] in *.
    rewrite Qfloor_plus_Z. subst b. lia.
Qed.

Lemma damage_rolls_in_range_witness :
  let r := mkRng (λ _, 0.5%Q) 0 in
  unit_interval (source r (drawn r))
  ∧ 8 ≤ fst (Player.calculateDamage Player.new r) ≤ 13.
Proof.
  assert (H : unit_interval (source (mkRng (λ _, 0.5%Q) 0) (drawn (mkRng (λ _, 0.5%Q) 0)))).
  { unfold unit_interval, Qle, Qlt; cbn; lia. }
  split; [exact H |].
  exact (proj2 (proj1 (damage_rolls_in_range (mkRng (λ _, 0.5%Q) 0) H) Player.new)).
Defined.

(** ** The enemy's choice of action *)

Lemma ratio_high (h m : Z) :
  0 < m → (0.7 < inject_Z h / inject_Z m)%Q ↔ 7 * m < 10 * h.
Proof.
  intros Hm. destruct m as [| m | m]; try lia.
  unfold Qlt, Qdiv, Qmult, Qinv, inject_Z. cbn. lia.
Qed.

Lemma ratio_low (h m : Z) :
  0 < m → (inject_Z h / inject_Z m < 0.3)%Q ↔ 10 * h < 3 * m.
Proof.
  intros Hm. destruct m as [| m | m]; try lia.
  unfold Qlt, Qdiv, Qmult, Qinv, inject_Z. cbn. lia.
Qed.

(** X6: against a player whose maximal health is positive, the enemy
    uses its special attack exactly when the player is above 70% of the
    maximal health and the draw is below 0.3; the test on a player below
    30% changes nothing, the enemy attacks either way.  One draw is
    read. *)
Theorem chooseAction_special_iff (p : Player.t) (e : Enemy.t) (r : Rng) :
  0 < Player.maxHealth p →
  (fst (Enemy.chooseAction p e r) = special
   ↔ 7 * Player.maxHealth p < 10 * Player.health p ∧ (source r (drawn r) < 0.3)%Q)
  ∧ (10 * Player.health p ≤ 7 * Player.maxHealth p → fst (Enemy.chooseAction p e r) = attack)
  ∧ snd (Enemy.chooseAction p e r) = mkRng (source r) (S (drawn r)).
Proof.
  intros Hmax.
  unfold Enemy.chooseAction, rbind, Math_random, rret. cbn [fst snd].
  split; [| split; [| reflexivity]].
  - destruct (Qltb (inject_Z (Player.health p) / inject_Z (Player.maxHealth p)) 0.3)
      eqn:Elow; cbn [andb].
    + apply Qltb_lt, ratio_low in Elow; [| assumption].
      destruct (Qltb (source r (drawn r)) 0.7); cbn [andb].
      * split; [discriminate | lia].
      * destruct (Qltb 0.7 _) eqn:Ehigh; cbn [andb].
        -- apply Qltb_lt, ratio_high in Ehigh; [lia | assumption].
        -- split; [discriminate | lia].
    + destruct (Qltb 0.7 _) eqn:Ehigh; cbn [andb].
      * apply Qltb_lt, ratio_high in Ehigh; [| assumption].
        destruct (Qltb (source r (drawn r)) 0.3) eqn:Edraw.
        -- apply Qltb_lt in Edraw. tauto.
        -- split; [discriminate |]. intros [_ Hd]. apply Qltb_lt in Hd. congruence.
      * split; [discriminate |]. intros [Hh _].
        apply (ratio_high _ _ Hmax), Qltb_lt in Hh. congruence.
  - intros Hle.
    destruct (Qltb 0.7 _) eqn:Ehigh.
    + apply Qltb_lt, ratio_high in Ehigh; [lia | assumption].
    + cbn [andb]. destruct (_ && _); reflexivity.
Qed.

Lemma chooseAction_special_iff_witness :
  let r := mkRng (λ _, 0.2%Q) 0 in
  0 < Player.maxHealth Player.new
  ∧ fst (Enemy.chooseAction Player.new (ENEMY_TEMPLATES.goblin 1) r) = special.
Proof.
  split; [reflexivity |].
  apply (proj1 (chooseAction_special_iff Player.new (ENEMY_TEMPLATES.goblin 1)
                  (mkRng (λ _, 0.2%Q) 0) ltac:(reflexivity))).
  split; [reflexivity | reflexivity].
Defined.

(** ** The enemy templates *)

(** X7: an enemy built by one of the six templates at a level [>= 0]
    starts alive at full health, rewards experience, drops something, and
    is at least as strong as the same enemy of a lower level. *)
Theorem templates_spawn (enemyType : string) (template : Z → Enemy.t) (level : Z) :
  ENEMY_TEMPLATES.lookup enemyType = Some template →
  0 ≤ level →
  let e := template level in
  Enemy.level e = level
  ∧ Enemy.health e = Enemy.maxHealth e
  ∧ Enemy.isAlive e = true
  ∧ 0 < Enemy.xpReward e
  ∧ 0 ≤ Enemy.defense e
  ∧ (0 < Enemy.strength e)%Q
  ∧ (0 < Enemy.agility e)%Q
  ∧ Enemy.loot e ≠ []
  ∧ ∀ lower, lower ≤ level →
      Enemy.maxHealth (template lower) ≤ Enemy.maxHealth e
      ∧ Enemy.xpReward (template lower) ≤ Enemy.xpReward e
      ∧ Enemy.defense (template lower) ≤ Enemy.defense e
      ∧ (Enemy.strength (template lower) <= Enemy.strength e)%Q
      ∧ (Enemy.agility (template lower) <= Enemy.agility e)%Q.
Proof.
  intros Hlookup Hlevel. unfold ENEMY_TEMPLATES.lookup in Hlookup.
  repeat case_decide; simplify_eq; cbn zeta;
    unfold ENEMY_TEMPLATES.goblin, ENEMY_TEMPLATES.knight, ENEMY_TEMPLATES.lightGuardian,
      ENEMY_TEMPLATES.shadowBeast, ENEMY_TEMPLATES.darkMage, ENEMY_TEMPLATES.shadowLord,
      Enemy.new, Enemy.isAlive;
    cbn [Enemy.level Enemy.health Enemy.maxHealth Enemy.xpReward Enemy.defense
         Enemy.strength Enemy.agility Enemy.loot];
    (split; [reflexivity |]); (split; [reflexivity |]);
    (split; [apply bool_decide_eq_true; lia |]);
    (split; [lia |]); (split; [lia |]);
    (split; [unfold Qlt, Qplus, Qmult, inject_Z; cbn; lia |]);
    (split; [unfold Qlt, Qplus, Qmult, inject_Z; cbn; lia |]);
    (split; [discriminate |]);
    intros lower Hlower;
    (split; [lia |]); (split; [lia |]); (split; [lia |]);
    split; unfold Qle, Qplus, Qmult, inject_Z; cbn; lia.
Qed.

Lemma templates_spawn_witness :
  ENEMY_TEMPLATES.lookup "shadowLord" = Some ENEMY_TEMPLATES.shadowLord
  ∧ 0 ≤ 2
  ∧ Enemy.isAlive (ENEMY_TEMPLATES.shadowLord 2) = true.
Proof.
  split; [reflexivity |]. split; [lia |].
  exact (proj1 (proj2 (proj2 (templates_spawn "shadowLord" ENEMY_TEMPLATES.shadowLord 2
                                 ltac:(reflexivity) ltac:(lia))))).
Defined.

(** ** Inventory *)

Lemma remove_first_split (item : Item.t) (l1 l2 : list Item.t) :
  item ∉ l1 → Inventory.remove_first item (l1 ++ item :: l2) = l1 ++ l2.
Proof.
  induction l1 as [| x l1 IH]; intros Hnot; cbn.
  - case_decide; [reflexivity | congruence].
  - apply not_elem_of_cons in Hnot as [Hne Hnot].
    case_decide; [congruence |]. rewrite IH by assumption. reflexivity.
Qed.

Lemma inventory_eta (inv : Inventory.t) :
  Inventory.mk (Inventory.items inv) (Inventory.maxSlots inv) (Inventory.equipped inv) = inv.
Proof. destruct inv. reflexivity. Qed.

(** X8: [removeItem] takes out the first occurrence of the item and
    nothing else; it fails, changing nothing, when the item is not held;
    adding an item that is not held yet, where there is room, and
    removing it again restores the inventory. *)
Theorem removeItem_first_occurrence (item : Item.t) (inv : Inventory.t) :
  (item ∉ Inventory.items inv → Inventory.removeItem item inv = (false, inv))
  ∧ (∀ l1 l2, Inventory.items inv = l1 ++ item :: l2 → item ∉ l1 →
       Inventory.removeItem item inv
       = (true, Inventory.mk (l1 ++ l2) (Inventory.maxSlots inv) (Inventory.equipped inv)))
  ∧ (Z.of_nat (length (Inventory.items inv)) < Inventory.maxSlots inv →
     item ∉ Inventory.items inv →
     Inventory.removeItem item (snd (Inventory.addItem item inv)) = (true, inv)).
Proof.
  split; [| split].
  - intros Hnot. unfold Inventory.removeItem. case_decide; [contradiction | reflexivity].
  - intros l1 l2 Hitems Hnot. unfold Inventory.removeItem.
    case_decide as Hin.
    + rewrite Hitems, remove_first_split by assumption. reflexivity.
    + exfalso. apply Hin. rewrite Hitems. apply elem_of_app. right. left.
  - intros Hroom Hnot. unfold Inventory.addItem.
    case_decide; [lia |]. cbn [snd]. unfold Inventory.removeItem.
    cbn [Inventory.items Inventory.maxSlots Inventory.equipped].
    case_decide as Hin.
    + rewrite remove_first_split, app_nil_r by assumption.
      rewrite inventory_eta. reflexivity.
    + exfalso. apply Hin. apply elem_of_app. right. left.
Qed.

Lemma addItem_capacity (item : Item.t) (inv : Inventory.t) :
  within_capacity inv →
  within_capacity (snd (Inventory.addItem item inv))
  ∧ Inventory.maxSlots (snd (Inventory.addItem item inv)) = Inventory.maxSlots inv.
Proof.
  unfold within_capacity, Inventory.addItem. intros Hcap.
  case_decide; cbn [snd Inventory.items Inventory.maxSlots]; [tauto |].
  rewrite length_app. cbn [length]. lia.
Qed.

Lemma removeItem_capacity (item : Item.t) (inv : Inventory.t) :
  within_capacity inv →
  within_capacity (snd (Inventory.removeItem item inv))
  ∧ Inventory.maxSlots (snd (Inventory.removeItem item inv)) = Inventory.maxSlots inv.
Proof.
  unfold within_capacity, Inventory.removeItem. intros Hcap.
  case_decide as Hin; cbn [snd Inventory.items Inventory.maxSlots]; [| tauto].
  pose proof (remove_first_length item _ Hin). lia.
Qed.

Lemma equip_capacity (item : Item.t) (inv : Inventory.t) :
  within_capacity inv →
  within_capacity (snd (Inventory.equip item inv))
  ∧ Inventory.maxSlots (snd (Inventory.equip item inv)) = Inventory.maxSlots inv.
Proof.
  intros Hcap. unfold Inventory.equip.
  case_decide as Hin; [| tauto].
  destruct (Inventory.slot_of (Item.type item)) as [slot |]; [| tauto].
  cbn [snd].
  set (inv1 := match Inventory.slot_get slot (Inventory.equipped inv) with
               | Some worn => snd (Inventory.addItem worn inv)
               | None => inv
               end).
  assert (H1 : within_capacity inv1 ∧ Inventory.maxSlots inv1 = Inventory.maxSlots inv).
  { subst inv1. destruct (Inventory.slot_get slot (Inventory.equipped inv)); [| tauto].
    apply addItem_capacity. assumption. }
  destruct H1 as [Hcap1 Hmax1].
  match goal with
  | |- context [Inventory.removeItem item ?i] =>
      destruct (removeItem_capacity item i) as [Hc Hm]; [exact Hcap1 |]
  end.
  split; [exact Hc |]. rewrite Hm. exact Hmax1.
Qed.

Lemma unequip_capacity (slot : string) (inv : Inventory.t) :
  within_capacity inv →
  within_capacity (snd (Inventory.unequip slot inv))
  ∧ Inventory.maxSlots (snd (Inventory.unequip slot inv)) = Inventory.maxSlots inv.
Proof.
  intros Hcap. unfold Inventory.unequip.
  destruct (Inventory.slot_get slot (Inventory.equipped inv)) as [item |]; [| tauto].
  cbn [snd].
  match goal with
  | |- context [Inventory.addItem item ?i] =>
      destruct (addItem_capacity item i) as [Hc Hm]; [exact Hcap |]
  end.
  split; [exact Hc | exact Hm].
Qed.

(** X9: the held list of a new inventory respects its capacity, and the
    four operations keep it so and never change the capacity. *)
Theorem inventory_capacity_kept :
  (∀ maxSlots, 0 ≤ maxSlots → within_capacity (Inventory.new maxSlots))
  ∧ within_capacity (Player.inventory Player.new)
  ∧ ∀ (inv : Inventory.t) (item : Item.t) (slot : string),
      within_capacity inv →
      Forall (λ inv', within_capacity inv'
                      ∧ Inventory.maxSlots inv' = Inventory.maxSlots inv)
        [snd (Inventory.addItem item inv); snd (Inventory.removeItem item inv);
         snd (Inventory.equip item inv); snd (Inventory.unequip slot inv)].
Proof.
  split; [| split].
  - intros maxSlots Hm. unfold within_capacity. cbn. lia.
  - unfold within_capacity. vm_compute. discriminate.
  - intros inv item slot Hcap. repeat apply Forall_cons_2; [| | | | apply Forall_nil_2].
    + apply addItem_capacity. assumption.
    + apply removeItem_capacity. assumption.
    + apply equip_capacity. assumption.
    + apply unequip_capacity. assumption.
Qed.

Lemma worn_slot_set (slot : string) (v : option Item.t) (e : Inventory.Equipped) :
  Inventory.slot_of slot = Some slot →
  option_list (Inventory.slot_get slot e) ++ worn (Inventory.slot_set slot v e)
  ≡ₚ option_list v ++ worn e.
Proof.
  intros Hslot. unfold Inventory.slot_of in Hslot.
  unfold Inventory.slot_get, Inventory.slot_set, worn.
  destruct e as [w a t].
  repeat case_decide; simplify_eq;
    cbn [Inventory.weapon Inventory.armor Inventory.artifact];
    destruct w, a, t, v; cbn; solve_Permutation.
Qed.

(** X10: [equip] succeeds exactly for a held item whose type has a slot,
    and changes nothing when it fails.  When it succeeds the item is in
    its slot, and the inventory owns the same items as before, held or
    worn, unless the slot was occupied and the held list was full: then
    the previous occupant is dropped. *)
Theorem equip_conserves_owned (item : Item.t) (inv : Inventory.t) :
  (fst (Inventory.equip item inv) = true
   ↔ item ∈ Inventory.items inv ∧ is_Some (Inventory.slot_of (Item.type item)))
  ∧ (fst (Inventory.equip item inv) = false → snd (Inventory.equip item inv) = inv)
  ∧ ∀ slot, item ∈ Inventory.items inv → Inventory.slot_of (Item.type item) = Some slot →
      let inv' := snd (Inventory.equip item inv) in
      Inventory.slot_get slot (Inventory.equipped inv') = Some item
      ∧ match Inventory.slot_get slot (Inventory.equipped inv) with
        | Some occupant =>
            if decide (Inventory.maxSlots inv ≤ Z.of_nat (length (Inventory.items inv)))
            then occupant :: owned inv' ≡ₚ owned inv
            else owned inv' ≡ₚ owned inv
        | None => owned inv' ≡ₚ owned inv
        end.
Proof.
  split; [| split].
  - unfold Inventory.equip. case_decide as Hin.
    + destruct (Inventory.slot_of (Item.type item)); cbn [fst].
      * split; [intros _; split; [assumption | eauto] | reflexivity].
      * split; [discriminate | intros [_ [? ?]]; discriminate].
    + cbn [fst]. split; [discriminate | tauto].
  - unfold Inventory.equip. case_decide as Hin; [| reflexivity].
    destruct (Inventory.slot_of (Item.type item)); cbn [fst snd];
      [discriminate | reflexivity].
  - intros slot Hin Hslot inv'. subst inv'.
    pose proof (slot_of_fixed _ _ Hslot) as Hfixed.
    unfold Inventory.equip. case_decide; [| contradiction]. rewrite Hslot. cbn [snd].
    destruct (Inventory.slot_get slot (Inventory.equipped inv)) as [occupant |] eqn:Hocc.
    + unfold Inventory.addItem. case_decide as Hfull; cbn [snd].
      * unfold Inventory.removeItem. cbn [Inventory.items Inventory.maxSlots Inventory.equipped].
        case_decide; [| contradiction]. cbn [snd Inventory.equipped].
        split; [rewrite slot_get_set by eauto; case_decide; congruence |].
        unfold owned. cbn [Inventory.items Inventory.equipped].
        pose proof (worn_slot_set slot (Some item) (Inventory.equipped inv) Hfixed) as Hw.
        rewrite Hocc in Hw. cbn [option_list app] in Hw.
        rewrite <- (remove_first_perm item (Inventory.items inv)) at 2 by assumption.
        rewrite Permutation_middle, Hw. solve_Permutation.
      * unfold Inventory.removeItem. cbn [Inventory.items Inventory.maxSlots Inventory.equipped].
        assert (Hin' : item ∈ Inventory.items inv ++ [occupant])
          by (apply elem_of_app; left; assumption).
        case_decide; [| contradiction]. cbn [snd Inventory.equipped].
        split; [rewrite slot_get_set by eauto; case_decide; congruence |].
        unfold owned. cbn [Inventory.items Inventory.equipped].
        pose proof (worn_slot_set slot (Some item) (Inventory.equipped inv) Hfixed) as Hw.
        rewrite Hocc in Hw. cbn [option_list app] in Hw.
        apply (Permutation_cons_inv (a := item)).
        rewrite app_comm_cons, (remove_first_perm item _ Hin').
        rewrite <- app_assoc. cbn [app]. rewrite Hw. solve_Permutation.
    + unfold Inventory.removeItem. cbn [Inventory.items Inventory.maxSlots Inventory.equipped].
      case_decide; [| contradiction]. cbn [snd Inventory.equipped].
      split; [rewrite slot_get_set by eauto; case_decide; congruence |].
      unfold owned. cbn [Inventory.items Inventory.equipped].
      pose proof (worn_slot_set slot (Some item) (Inventory.equipped inv) Hfixed) as Hw.
      rewrite Hocc in Hw. cbn [option_list app] in Hw.
      rewrite Hw. rewrite <- (remove_first_perm item (Inventory.items inv)) at 2 by assumption.
      solve_Permutation.
Qed.

(** ** Stat bonuses *)

Lemma total_bonus_app (stat : string) (l1 l2 : list Item.t) :
  total_bonus stat (l1 ++ l2) = total_bonus stat l1 + total_bonus stat l2.
Proof.
  unfold total_bonus. induction l1 as [| x l1 IH]; cbn [app foldr]; lia.
Qed.

Lemma add_bonus_lookup (stats : gmap string Z) (slot : option Item.t) (stat : string) :
  Player.or0 (Inventory.add_bonus stats slot !! stat)
  = Player.or0 (stats !! stat) + total_bonus stat (option_list slot).
Proof.
  unfold Inventory.add_bonus, total_bonus, bonus.
  destruct slot as [item |]; cbn; [| lia].
  destruct (Item.effect item) as [b | f]; [| lia].
  rewrite lookup_union_with.
  destruct (stats !! stat), (b !! stat); cbn; lia.
Qed.

Lemma add_bonus_keeps (stats : gmap string Z) (slot : option Item.t) (stat : string) :
  is_Some (stats !! stat) → is_Some (Inventory.add_bonus stats slot !! stat).
Proof.
  intros [v Hv]. unfold Inventory.add_bonus.
  destruct slot as [item |]; [| eauto].
  destruct (Item.effect item) as [b | f]; [| eauto].
  rewrite lookup_union_with, Hv. destruct (b !! stat); cbn; eauto.
Qed.

Lemma getEquippedStats_lookup (inv : Inventory.t) (stat : string) :
  Player.or0 (Inventory.getEquippedStats inv !! stat)
  = total_bonus stat (worn (Inventory.equipped inv)).
Proof.
  unfold Inventory.getEquippedStats, worn. cbn [foldl].
  rewrite !add_bonus_lookup, !total_bonus_app.
  assert (H0 : Player.or0
                 (({[ "strength" := 0; "defense" := 0; "agility" := 0; "intelligence" := 0 ]}
                   : gmap string Z) !! stat) = 0).
  { destruct (decide (stat = "strength")) as [-> | ?]; [reflexivity |].
    rewrite lookup_insert_ne by congruence.
    destruct (decide (stat = "defense")) as [-> | ?]; [reflexivity |].
    rewrite lookup_insert_ne by congruence.
    destruct (decide (stat = "agility")) as [-> | ?]; [reflexivity |].
    rewrite lookup_insert_ne by congruence.
    destruct (decide (stat = "intelligence")) as [-> | ?]; [reflexivity |].
    rewrite lookup_singleton_ne by congruence. reflexivity. }
  rewrite H0. lia.
Qed.

(** X11: for every stat name, the table built by [getEquippedStats]
    holds the sum of the bonuses of the worn items (0 for a name it does
    not hold); consumables, whose effect is a function, add nothing; the
    four base stats are always present in it. *)
Theorem getEquippedStats_sums_bonuses (inv : Inventory.t) (stat : string) :
  Player.or0 (Inventory.getEquippedStats inv !! stat)
  = total_bonus stat (worn (Inventory.equipped inv))
  ∧ (stat ∈ baseStatNames → is_Some (Inventory.getEquippedStats inv !! stat))
  ∧ (∀ item, item ∈ worn (Inventory.equipped inv) → Item.type item = "consumable" →
       (∃ f, Item.effect item = Fn f) → bonus stat item = 0).
Proof.
  split; [apply getEquippedStats_lookup |]. split.
  - intros Hstat. unfold Inventory.getEquippedStats. cbn [foldl].
    do 3 apply add_bonus_keeps.
    apply baseStatNames_elem in Hstat as [-> | [-> | [-> | ->]]]; eexists; reflexivity.
  - intros item _ _ [f Hf]. unfold bonus. rewrite Hf. reflexivity.
Qed.

Lemma getTotalStats_get (p : Player.t) (stat : string) :
  Player.stat_get stat (Player.getTotalStats p)
  = (λ base, base + total_bonus stat (worn (Inventory.equipped (Player.inventory p)))
             + Player.or0 (Player.tempStats p !! stat))
    <$> Player.stat_get stat (Player.baseStats p).
Proof.
  unfold Player.getTotalStats, Player.stat_get.
  repeat case_decide; subst;
    cbn [Player.strength Player.defense Player.agility Player.intelligence fmap option_fmap
         option_map];
    rewrite ?getEquippedStats_lookup; reflexivity.
Qed.

Lemma total_bonus_slot_set (stat slot : string) (v : option Item.t) (e : Inventory.Equipped) :
  Inventory.slot_of slot = Some slot →
  total_bonus stat (worn (Inventory.slot_set slot v e))
  = total_bonus stat (worn e) + total_bonus stat (option_list v)
    - total_bonus stat (option_list (Inventory.slot_get slot e)).
Proof.
  intros Hslot. unfold Inventory.slot_of in Hslot.
  unfold Inventory.slot_get, Inventory.slot_set, worn.
  destruct e as [w a t].
  repeat case_decide; simplify_eq;
    cbn [Inventory.weapon Inventory.armor Inventory.artifact];
    rewrite !total_bonus_app; lia.
Qed.

Lemma equip_equipped (item : Item.t) (inv : Inventory.t) (slot : string) :
  item ∈ Inventory.items inv → Inventory.slot_of (Item.type item) = Some slot →
  Inventory.equipped (snd (Inventory.equip item inv))
  = Inventory.slot_set slot (Some item) (Inventory.equipped inv).
Proof.
  intros Hin Hslot. unfold Inventory.equip.
  case_decide; [| contradiction]. rewrite Hslot. cbn [snd].
  unfold Inventory.removeItem.
  destruct (Inventory.slot_get slot (Inventory.equipped inv)) as [occupant |];
    [unfold Inventory.addItem; case_decide; cbn [snd] |];
    cbn [Inventory.items Inventory.maxSlots Inventory.equipped];
    case_decide; reflexivity.
Qed.

(** X12: every effective stat of the player is the base stat plus the
    bonuses of the worn items plus the temporary bonus; equipping a held
    item changes it by the bonus of the item minus the bonus of the item
    that was in the slot. *)
Theorem equip_swaps_bonus (item : Item.t) (p : Player.t) (slot stat : string) :
  item ∈ Inventory.items (Player.inventory p) →
  Inventory.slot_of (Item.type item) = Some slot →
  let inv := Player.inventory p in
  let p' := Player.with_inventory (snd (Inventory.equip item inv)) p in
  let occupant := option_list (Inventory.slot_get slot (Inventory.equipped inv)) in
  Player.stat_get stat (Player.getTotalStats p)
  = (λ base, base + total_bonus stat (worn (Inventory.equipped inv))
             + Player.or0 (Player.tempStats p !! stat))
    <$> Player.stat_get stat (Player.baseStats p)
  ∧ Player.stat_get stat (Player.getTotalStats p')
    = (λ v, v + bonus stat item - total_bonus stat occupant)
      <$> Player.stat_get stat (Player.getTotalStats p).
Proof.
  intros Hin Hslot inv p' occupant.
  split; [apply getTotalStats_get |].
  rewrite !getTotalStats_get. subst p' occupant inv.
  cbn [Player.with_inventory Player.inventory Player.baseStats Player.tempStats].
  rewrite (equip_equipped _ _ _ Hin Hslot).
  rewrite total_bonus_slot_set by (eapply slot_of_fixed; eassumption).
  destruct (Player.stat_get stat (Player.baseStats p)) as [base |]; [| reflexivity].
  assert (Hitem : total_bonus stat (option_list (Some item)) = bonus stat item)
    by (unfold total_bonus; cbn; lia).
  rewrite Hitem. cbn [fmap option_fmap option_map]. f_equal. lia.
Qed.

Lemma equip_swaps_bonus_witness :
  let p := Player.new in
  let item := ITEM_TEMPLATES.rustyDagger in
  item ∈ Inventory.items (Player.inventory p)
  ∧ Player.stat_get "strength"
      (Player.getTotalStats
         (Player.with_inventory (snd (Inventory.equip item (Player.inventory p))) p))
    = Some 7.
Proof.
  assert (Hin : ITEM_TEMPLATES.rustyDagger ∈ Inventory.items (Player.inventory Player.new)).
  { apply list_elem_of_here. }
  split; [exact Hin |].
  exact (proj2 (equip_swaps_bonus ITEM_TEMPLATES.rustyDagger Player.new "weapon" "strength"
                  Hin ltac:(reflexivity))).
Defined.

(** ** Consumables *)

Lemma elixir_uses (n : nat) (p : Player.t) :
  let buffed := Nat.iter n (λ q, snd (Item_use ITEM_TEMPLATES.strengthElixir q)) p in
  Player.with_tempStats (Player.tempStats p) buffed = p
  ∧ ∀ stat, Player.or0 (Player.tempStats buffed !! stat)
            = Player.or0 (Player.tempStats p !! stat)
              + (if decide (stat = "strength") then 5 * Z.of_nat n else 0).
Proof.
  induction n as [| n IH]; cbn zeta.
  - unfold Nat.iter. cbn [nat_rect]. split; [destruct p; reflexivity |].
    intros stat. case_decide; lia.
  - cbn zeta in IH. destruct IH as [Hframe Htemp].
    rewrite Nat.iter_succ.
    set (q := Nat.iter n (λ q, snd (Item_use ITEM_TEMPLATES.strengthElixir q)) p) in *.
    unfold Item_use. cbn [ITEM_TEMPLATES.strengthElixir Item.effect Item.type].
    case_decide; [| congruence]. cbn [Item_apply snd].
    split.
    + rewrite <- Hframe at 2. destruct q. reflexivity.
    + intros stat. cbn [Player.with_tempStats Player.tempStats].
      destruct (decide (stat = "strength")) as [-> | Hne].
      * rewrite lookup_insert. rewrite decide_True by reflexivity.
        specialize (Htemp "strength"). rewrite decide_True in Htemp by reflexivity.
        rewrite Htemp.
        change (Player.or0 (Some ?x)) with x. lia.
      * rewrite lookup_insert_ne by congruence. specialize (Htemp stat).
        rewrite decide_False in Htemp by assumption. exact Htemp.
Qed.

(** X13: [Item.use] does something only for a consumable whose effect
    is a function; otherwise it returns [false] and leaves the player
    alone.  A health potion restores 30 points of health or what is
    missing to the maximum, whichever is less, and changes no stat; [n]
    strength elixirs raise the effective strength by [5 n] and nothing
    else, until the temporary stats are cleared. *)
Theorem consumables_effects (p : Player.t) (n : nat) :
  player_health_ok p →
  let potion := snd (Item_use ITEM_TEMPLATES.healthPotion p) in
  let buffed := Nat.iter n (λ q, snd (Item_use ITEM_TEMPLATES.strengthElixir q)) p in
  (∀ item, Item.type item ≠ "consumable" ∨ (∃ b, Item.effect item = Bonus b) →
           Item_use item p = (None, p))
  ∧ Player.health potion - Player.health p = Z.min 30 (Player.maxHealth p - Player.health p)
  ∧ Player.with_health (Player.health p) potion = p
  ∧ Player.with_tempStats (Player.tempStats p) buffed = p
  ∧ (∀ stat, Player.stat_get stat (Player.getTotalStats buffed)
             = (λ v, v + (if decide (stat = "strength") then 5 * Z.of_nat n else 0))
               <$> Player.stat_get stat (Player.getTotalStats p))
  ∧ Player.getTotalStats (Player.with_tempStats ∅ buffed)
    = Player.getTotalStats (Player.with_tempStats ∅ p).
Proof.
  intros Hok potion buffed.
  destruct (elixir_uses n p) as [Hframe Htemp]. fold buffed in Hframe, Htemp.
  clearbody buffed.
  pose proof (f_equal Player.inventory Hframe) as Hinv.
  pose proof (f_equal Player.baseStats Hframe) as Hbase.
  pose proof (f_equal (Player.with_tempStats ∅) Hframe) as Hclear.
  cbn [Player.with_tempStats Player.inventory Player.baseStats Player.level Player.xp
       Player.health Player.maxHealth Player.statPoints Player.chosenPath] in Hinv, Hbase, Hclear.
  split; [| split; [| split; [| split; [| split]]]].
  - intros item Hitem. unfold Item_use.
    destruct (Item.effect item) as [b | f] eqn:Heff; [reflexivity |].
    case_decide as Htype; [| reflexivity].
    destruct Hitem as [Hne | [b Hb]]; [contradiction | congruence].
  - subst potion. unfold player_health_ok in Hok. unfold Item_use.
    cbn [ITEM_TEMPLATES.healthPotion Item.effect Item.type].
    case_decide; [| congruence].
    cbn [Item_apply snd Player.with_health Player.health Player.maxHealth]. lia.
  - subst potion. unfold Item_use.
    cbn [ITEM_TEMPLATES.healthPotion Item.effect Item.type].
    case_decide; [| congruence]. destruct p. reflexivity.
  - exact Hframe.
  - intros stat. rewrite !getTotalStats_get.
    rewrite Hinv, Hbase, Htemp.
    destruct (Player.stat_get stat (Player.baseStats p)); [| reflexivity].
    cbn [fmap option_fmap option_map]. f_equal. lia.
  - rewrite <- Hclear. reflexivity.
Qed.

Lemma consumables_effects_witness :
  let p := Player.with_health 85 Player.new in
  player_health_ok p
  ∧ Player.health (snd (Item_use ITEM_TEMPLATES.healthPotion p)) - Player.health p
    = Z.min 30 (Player.maxHealth p - Player.health p).
Proof.
  assert (Hok : player_health_ok (Player.with_health 85 Player.new)).
  { unfold player_health_ok. cbn. lia. }
  split; [exact Hok |].
  exact (proj1 (proj2 (consumables_effects (Player.with_health 85 Player.new) 2 Hok))).
Defined.

(** ** Combat rounds *)

(** X14: an attack of the player, plain or special, reads two draws,
    the damage roll and the dodge roll, and leaves the turn and the turn
    count alone.  The enemy dodges exactly when the second draw is below
    its dodge chance, halved against a special attack; then no damage is
    done and the enemy is unchanged.  Otherwise the enemy loses the roll
    reduced by half its defense, at least 1, and nothing but its health
    changes. *)
Theorem playerAttack_outcome (powerful : bool) (p : Player.t) (e : Enemy.t)
    (cs : CombatSystem.t) (r : Rng) :
  let out := (if powerful then CombatSystem.playerSpecialAttack
              else CombatSystem.playerAttack) p e cs r in
  let roll := fst ((if powerful then Player.calculateSpecialDamage
                    else Player.calculateDamage) p r) in
  let dodge := (if powerful then Enemy.getDodgeChance e * 0.5
                else Enemy.getDodgeChance e)%Q in
  let res := fst (fst (fst out)) in
  let e' := snd (fst (fst out)) in
  let cs' := snd (fst out) in
  snd out = mkRng (source r) (S (S (drawn r)))
  ∧ CombatSystem.playerTurn cs' = CombatSystem.playerTurn cs
  ∧ CombatSystem.turnCount cs' = CombatSystem.turnCount cs
  ∧ (CombatSystem.hit res = false ↔ (source r (S (drawn r)) < dodge)%Q)
  ∧ (CombatSystem.hit res = false → CombatSystem.damage res = 0 ∧ e' = e)
  ∧ (CombatSystem.hit res = true →
     CombatSystem.damage res = Z.max 1 (roll - Enemy.defense e / 2)
     ∧ e' = Enemy.with_health (Z.max 0 (Enemy.health e - CombatSystem.damage res)) e).
Proof.
  destruct powerful; cbn zeta.
  - unfold CombatSystem.playerSpecialAttack, Player.calculateSpecialDamage, randomInt,
      rbind, Math_random, rret. cbn [fst snd source drawn].
    destruct (Qltb (source r (S (drawn r))) (Enemy.getDodgeChance e * 0.5)) eqn:Edodge.
    + cbn [fst snd CombatSystem.hit CombatSystem.damage].
      apply Qltb_lt in Edodge.
      repeat split; intros; try reflexivity; try assumption; congruence.
    + unfold Enemy.takeDamage. cbn [fst snd CombatSystem.hit CombatSystem.damage].
      rewrite floor_half_div.
      repeat split; intros; try reflexivity; try congruence.
      match goal with H : (_ < _)%Q |- _ => apply Qltb_lt in H end. congruence.
  - unfold CombatSystem.playerAttack, Player.calculateDamage, randomInt,
      rbind, Math_random, rret. cbn [fst snd source drawn].
    destruct (Qltb (source r (S (drawn r))) (Enemy.getDodgeChance e)) eqn:Edodge.
    + cbn [fst snd CombatSystem.hit CombatSystem.damage].
      apply Qltb_lt in Edodge.
      repeat split; intros; try reflexivity; try assumption; congruence.
    + unfold Enemy.takeDamage. cbn [fst snd CombatSystem.hit CombatSystem.damage].
      rewrite floor_half_div.
      repeat split; intros; try reflexivity; try congruence.
      match goal with H : (_ < _)%Q |- _ => apply Qltb_lt in H end. congruence.
Qed.

(** X15: the turn of the enemy reads three draws, for the choice of
    the action, the damage roll and the dodge roll, and leaves the turn
    and the turn count alone.  The player dodges exactly when the third
    draw is below the dodge chance, taken at 70% against a special
    attack; then the player is unchanged.  Otherwise a special attack
    strikes with one and a half times the roll, rounded down, and the
    player loses the strike reduced by half the effective defense, at
    least 1; nothing but the health changes. *)
Theorem enemyTurn_outcome (p : Player.t) (e : Enemy.t) (cs : CombatSystem.t) (r : Rng) :
  let out := CombatSystem.enemyTurn p e cs r in
  let action := fst (Enemy.chooseAction p e r) in
  let roll := fst (Enemy.calculateDamage e (mkRng (source r) (S (drawn r)))) in
  let strike := match action with
                | special => 3 * roll / 2
                | attack => roll
                end in
  let dodge := match action with
               | special => (Player.getDodgeChance p * 0.7)%Q
               | attack => Player.getDodgeChance p
               end in
  let res := fst (fst (fst out)) in
  let p' := snd (fst (fst out)) in
  let cs' := snd (fst out) in
  snd out = mkRng (source r) (S (S (S (drawn r))))
  ∧ CombatSystem.playerTurn cs' = CombatSystem.playerTurn cs
  ∧ CombatSystem.turnCount cs' = CombatSystem.turnCount cs
  ∧ (CombatSystem.hit res = false ↔ (source r (S (S (drawn r))) < dodge)%Q)
  ∧ (CombatSystem.hit res = false → CombatSystem.damage res = 0 ∧ p' = p)
  ∧ (CombatSystem.hit res = true →
     CombatSystem.damage res
     = Z.max 1 (strike - Player.defense (Player.getTotalStats p) / 2)
     ∧ p' = Player.with_health (Z.max 0 (Player.health p - CombatSystem.damage res)) p).
Proof.
  cbn zeta.
  unfold CombatSystem.enemyTurn, rbind.
  destruct (Enemy.chooseAction p e r) as [action r1] eqn:Eaction.
  assert (Hr1 : r1 = mkRng (source r) (S (drawn r))).
  { change r1 with (snd (action, r1)). rewrite <- Eaction. reflexivity. }
  subst r1. cbn [fst].
  destruct action;
    unfold Enemy.calculateDamage, randomInt, rbind, Math_random, rret;
    cbn beta iota; cbn [fst snd source drawn].
  - destruct (Qltb (source r (S (S (drawn r)))) (Player.getDodgeChance p)) eqn:Edodge.
    + cbn [fst snd CombatSystem.hit CombatSystem.damage].
      apply Qltb_lt in Edodge.
      repeat split; intros; try reflexivity; try assumption; congruence.
    + unfold Player.takeDamage. cbn [fst snd CombatSystem.hit CombatSystem.damage].
      rewrite floor_half_div.
      repeat split; intros; try reflexivity; try congruence.
      match goal with H : (_ < _)%Q |- _ => apply Qltb_lt in H end. congruence.
  - destruct (Qltb (source r (S (S (drawn r)))) (Player.getDodgeChance p * 0.7)) eqn:Edodge.
    + cbn [fst snd CombatSystem.hit CombatSystem.damage].
      apply Qltb_lt in Edodge.
      repeat split; intros; try reflexivity; try assumption; congruence.
    + unfold Player.takeDamage. cbn [fst snd CombatSystem.hit CombatSystem.damage].
      rewrite floor_half_div, Qfloor_three_halves.
      repeat split; intros; try reflexivity; try congruence.
      match goal with H : (_ < _)%Q |- _ => apply Qltb_lt in H end. congruence.
Qed.

Lemma escape_sure (agility : Z) :
  35 ≤ agility → (1 <= 0.3 + inject_Z agility * 0.02)%Q.
Proof. intros Hag. unfold Qle, Qplus, Qmult, inject_Z. cbn. lia. Qed.

(** X16: an escape succeeds exactly when the draw is below 0.3 plus
    0.02 per point of effective agility, whoever the enemy is; with a
    draw of [0, 1) it cannot fail from 35 points of agility on.  One draw
    is read, and the turn and the turn count are left alone. *)
Theorem attemptEscape_chance (p : Player.t) (e : option Enemy.t) (cs : CombatSystem.t)
    (r : Rng) :
  let agility := Player.agility (Player.getTotalStats p) in
  let out := CombatSystem.attemptEscape p e cs r in
  (fst (fst out) = true ↔ (source r (drawn r) < 0.3 + inject_Z agility * 0.02)%Q)
  ∧ (unit_interval (source r (drawn r)) → 35 ≤ agility → fst (fst out) = true)
  ∧ snd out = mkRng (source r) (S (drawn r))
  ∧ CombatSystem.playerTurn (snd (fst out)) = CombatSystem.playerTurn cs
  ∧ CombatSystem.turnCount (snd (fst out)) = CombatSystem.turnCount cs
  ∧ fst (fst (CombatSystem.attemptEscape p None cs r)) = fst (fst out).
Proof.
  cbn zeta.
  unfold CombatSystem.attemptEscape, rbind, Math_random, rret, CONFIG.ESCAPE_BASE_CHANCE.
  set (chance := (0.3 + inject_Z (Player.agility (Player.getTotalStats p)) * 0.02)%Q).
  assert (Hiff : Qltb (source r (drawn r)) chance = true ↔ (source r (drawn r) < chance)%Q)
    by apply Qltb_lt.
  assert (Hsure : unit_interval (source r (drawn r)) →
                  35 ≤ Player.agility (Player.getTotalStats p) →
                  Qltb (source r (drawn r)) chance = true).
  { intros [_ Hlt] Hag. apply Qltb_lt. eapply Qlt_le_trans; [exact Hlt |].
    subst chance. by apply escape_sure. }
  destruct (Qltb (source r (drawn r)) chance); cbn [fst snd];
    repeat split; try reflexivity; try tauto.
Qed.

(** X17: [CombatSystem.startCombat] starts every fight afresh: the log
    and the turn count of the previous fight are discarded.  The player
    moves first unless the agility of the enemy is strictly above the
    effective agility of the player. *)
Theorem startCombat_first_turn (p : Player.t) (e : Enemy.t) (cs : CombatSystem.t) :
  let cs' := CombatSystem.startCombat p e cs in
  let slower := (inject_Z (Player.agility (Player.getTotalStats p)) < Enemy.agility e)%Q in
  cs' = CombatSystem.startCombat p e CombatSystem.new
  ∧ CombatSystem.turnCount cs' = 0
  ∧ (CombatSystem.playerTurn cs' = false ↔ slower)
  ∧ (length (CombatSystem.combatLog cs') = if CombatSystem.playerTurn cs' then 1 else 2)%nat
  ∧ head (CombatSystem.combatLog cs') = Some ("Combat started with " +:+ Enemy.name e +:+ "!").
Proof.
  cbn zeta. unfold CombatSystem.startCombat.
  destruct (Qltb _ _) eqn:Eslow.
  - apply Qltb_lt in Eslow.
    cbn [CombatSystem.addLog CombatSystem.with_playerTurn CombatSystem.combatLog
         CombatSystem.playerTurn CombatSystem.turnCount app length].
    repeat split; intros; try reflexivity; assumption.
  - cbn [CombatSystem.addLog CombatSystem.with_playerTurn CombatSystem.combatLog
         CombatSystem.playerTurn CombatSystem.turnCount app length].
    repeat split; intros; try reflexivity; try congruence.
    match goal with H : (_ < _)%Q |- _ => apply Qltb_lt in H end. congruence.
Qed.

(** ** The fight that the enemy opens *)

Lemma with_lastKeyPress_same (g : Game.t) : Game.with_lastKeyPress (Game.lastKeyPress g) g = g.
Proof. by destruct g. Qed.

Lemma step_frozen (ev : Event) (g : Game.t) :
  frozen g →
  wp (Game.step ev) (λ _ g', frozen g' ∧ ∃ last, g' = Game.with_lastKeyPress last g) g.
Proof.
  intros (Hstate & Hturn & Htimers). destruct ev as [now key |]; cbn [Game.step].
  - unfold Game.handleKeyPress. wp_steps. case_decide; wp_steps.
    + split; [done |]. exists (Game.lastKeyPress g). by rewrite with_lastKeyPress_same.
    + gsimpl. rewrite Hstate. unfold Game.handleCombatInput. wp_steps. gsimpl.
      rewrite Hturn. cbn [negb]. wp_steps. split; [done | by exists now].
  - wp_steps. rewrite Htimers. wp_steps.
    split; [done |]. exists (Game.lastKeyPress g). by rewrite with_lastKeyPress_same.
Qed.

Lemma run_frozen (evs : list Event) (g : Game.t) :
  frozen g →
  wp (Game.run evs) (λ _ g', frozen g' ∧ ∃ last, g' = Game.with_lastKeyPress last g) g.
Proof.
  revert g. induction evs as [| ev evs IH]; intros g Hg; cbn [Game.run].
  - wp_steps. split; [done |]. exists (Game.lastKeyPress g). by rewrite with_lastKeyPress_same.
  - wp_steps. eapply wp_mono; [by apply step_frozen |].
    intros ? g1 [Hg1 [last ->]]. cbn beta. eapply wp_mono; [by apply IH |].
    intros ? g2 [Hg2 [last' ->]]. split; [done |]. by exists last'.
Qed.

(** X18: when the fight of the encounter on screen is started against
    an enemy whose agility is above the effective agility of the player,
    the enemy has the first turn and nothing schedules it: the game is in
    combat with no callback pending, and from then on no key and no timer
    changes anything but the time of the last key press. *)
Theorem first_strike_freezes (g : Game.t) (now : Z) (title description : string)
    (enemy : Enemy.t) (boss : bool) :
  Game.state g = SCENARIO →
  Game.currentScenario g = Some (Encounter title description enemy boss) →
  Game.timers g = 0%nat →
  Game.keyDelay g ≤ now - Game.lastKeyPress g →
  (inject_Z (Player.agility (Player.getTotalStats (Game.player g))) < Enemy.agility enemy)%Q →
  wp (Game.step (Key now "Enter"))
     (λ _ g1,
        Game.state g1 = COMBAT
        ∧ Game.currentEnemy g1 = Some enemy
        ∧ CombatSystem.playerTurn (Game.combatSystem g1) = false
        ∧ Game.timers g1 = 0%nat
        ∧ ∀ evs, wp (Game.run evs)
                   (λ _ g2, ∃ last, g2 = Game.with_lastKeyPress last g1) g1)
     g.
Proof.
  intros Hstate Hscen Htimers Hdelay Hslow.
  cbn [Game.step]. unfold Game.handleKeyPress. wp_steps.
  case_decide; [lia |]. wp_steps. gsimpl. rewrite Hstate.
  unfold Game.handleScenarioInput. wp_steps. gsimpl. rewrite Hscen.
  case_decide; [| done]. unfold Game.startCombat. wp_steps. gsimpl.
  assert (Hturn : CombatSystem.playerTurn
                    (CombatSystem.startCombat (Game.player g) enemy (Game.combatSystem g))
                  = false).
  { unfold CombatSystem.startCombat. apply Qltb_lt in Hslow. by rewrite Hslow. }
  repeat (split; [done |]).
  intros evs. eapply wp_mono; [by apply run_frozen |].
  intros ? g2 [_ Hlast]. exact Hlast.
Qed.

Lemma first_strike_freezes_witness :
  let r := mkRng (λ _, 0.5%Q) 0 in
  let evs := [Key 1000 "Enter"; Key 2000 "ArrowDown"; Key 3000 "Enter"; Key 4000 "Enter"] in
  ∃ g, Game.run evs (Game.new r) = Some (tt, g)
    ∧ Player.chosenPath (Game.player g) = Some "shadow"
    ∧ wp (Game.step (Key 5000 "Enter"))
         (λ _ g1,
            Game.state g1 = COMBAT
            ∧ (Enemy.name <$> Game.currentEnemy g1) = Some "Dark Mage"
            ∧ wp (Game.run [Timer; Key 6000 "Enter"; Timer; Key 7000 "Escape"])
                 (λ _ g2, Game.state g2 = COMBAT
                          ∧ CombatSystem.playerTurn (Game.combatSystem g2) = false
                          ∧ Game.timers g2 = 0%nat)
                 g1)
         g.
Proof.
  intros r evs.
  destruct (Game.run evs (Game.new r)) as [[[] g] |] eqn:Hrun; [| by vm_compute in Hrun].
  exists g. split; [reflexivity |].
  vm_compute in Hrun. injection Hrun as <-.
  split; [reflexivity |].
  eapply wp_mono.
  - eapply (first_strike_freezes _ 5000); try reflexivity; by vm_compute.
  - intros ? g1 (Hstate & Henemy & Hturn & Htimers & Hrest). cbn beta.
    split; [done |]. split; [by rewrite Henemy |].
    eapply wp_mono; [apply Hrest |].
    intros ? g2 [last ->]. gsimpl. by rewrite Hstate, Hturn, Htimers.
Defined.

(** ** Escaping *)

(** X19: a successful escape, chosen in combat on the turn of the
    player, ends the fight without reward: the player is unchanged but
    for the temporary stats, which are cleared, and the enemy is cleared.
    The game then goes on as after a victory: to the next node of the
    path when there is one, and to the victory state when the fight was
    the last node, the boss. *)
Theorem escape_ends_the_fight (g : Game.t) (now : Z) :
  wf g →
  Game.state g = COMBAT →
  CombatSystem.playerTurn (Game.combatSystem g) = true →
  Game.selectedOption g = 3 →
  Game.keyDelay g ≤ now - Game.lastKeyPress g →
  (source (Game.rng g) (drawn (Game.rng g))
   < 0.3 + inject_Z (Player.agility (Player.getTotalStats (Game.player g))) * 0.02)%Q →
  wp (Game.step (Key now "Enter"))
     (λ _ g',
        Game.player g' = Player.with_tempStats ∅ (Game.player g)
        ∧ Game.currentEnemy g' = None
        ∧ ∀ path,
            ScenarioManager.currentPath (Game.scenarioManager g) = Some path →
            if decide (ScenarioManager.scenarioIndex (Game.scenarioManager g)
                       < length (ScenarioManager.sequence path (Game.scenarioManager g)))%nat
            then cursor g' = S (cursor g)
                 ∧ (Game.state g' = SCENARIO ∨ Game.state g' = VICTORY)
            else Game.state g' = VICTORY
                 ∧ Game.scenarioManager g' = Game.scenarioManager g)
     g.
Proof.
  intros Hwf Hstate Hturn Hsel Hdelay Hdraw.
  pose proof (wf_quiet_turn g Hwf Hturn) as Hq. quiet_hyp Hq.
  cbn [Game.step]. unfold Game.handleKeyPress. wp_steps.
  case_decide; [lia |]. wp_steps. gsimpl. rewrite Hstate.
  unfold Game.handleCombatInput. wp_steps. gsimpl. rewrite Hturn. cbn [negb].
  wp_steps. gsimpl. do 2 (case_decide; [done |]). case_decide; [| done].
  rewrite Hsel. unfold Game.executeCombatAction.
  do 3 (case_decide; [done |]). case_decide; [| done].
  wp_steps. gsimpl.
  assert (Hescaped : CombatSystem.attemptEscape (Game.player g) (Game.currentEnemy g)
                       (Game.combatSystem g) (Game.rng g)
                     = (true, CombatSystem.addLog "You successfully escaped!"
                                (Game.combatSystem g),
                        mkRng (source (Game.rng g)) (S (drawn (Game.rng g))))).
  { unfold CombatSystem.attemptEscape, rbind, Math_random, rret, CONFIG.ESCAPE_BASE_CHANCE.
    apply Qltb_lt in Hdraw. by rewrite Hdraw. }
  rewrite Hescaped. cbn [fst snd].
  unfold Game.endCombat. wp_steps. gsimpl.
  set (g1 := Game.with_player _ _).
  assert (Hq1 : quiet g1).
  { subst g1. apply quiet_intro; gsimpl; auto using with_tempStats_ok; done. }
  assert (Esm : Game.scenarioManager g1 = Game.scenarioManager g) by done.
  assert (Eplayer : Game.player g1 = Player.with_tempStats ∅ (Game.player g)) by done.
  assert (Eenemy : Game.currentEnemy g1 = None) by done.
  unfold cursor. rewrite <- Esm, <- Eplayer. clearbody g1.
  destruct Hq1 as [[Hfair1 Hplayer1 _ _] _].
  unfold Game.proceedToNextScenario. wp_steps.
  pose proof (getNextScenario_calls (Player.level (Game.player g1))
                (Game.scenarioManager g1) (Game.rng g1)) as (_ & Hend & Hmid & _).
  destruct (getNextScenario_ok (Player.level (Game.player g1)) (Game.scenarioManager g1)
              (Game.rng g1) Hfair1 (ok_level _ Hplayer1)) as (node & sm' & Hnext & _).
  destruct (ScenarioManager.getNextScenario _ _ (Game.rng g1)) as [res r1] eqn:Hcall.
  cbn [fst snd] in Hnext. subst res. cbn [fst snd].
  eapply wp_nonnull; [done |]. wp_steps. cbn [fst snd].
  assert (Hcases : ∀ path,
            ScenarioManager.currentPath (Game.scenarioManager g1) = Some path →
            if decide (ScenarioManager.scenarioIndex (Game.scenarioManager g1)
                       < length (ScenarioManager.sequence path (Game.scenarioManager g1)))%nat
            then sm' = ScenarioManager.with_scenarioIndex
                         (S (ScenarioManager.scenarioIndex (Game.scenarioManager g1)))
                         (Game.scenarioManager g1)
            else node = None ∧ sm' = Game.scenarioManager g1).
  { intros path Hpath. case_decide as Hlt.
    - destruct (Hmid path Hpath Hlt (Hfair1 _)) as (node' & r' & Hcall').
      by simplify_eq.
    - specialize (Hend path Hpath ltac:(lia)). by simplify_eq. }
  destruct node as [s |].
  - wp_steps. gsimpl. split; [done |]. split; [done |].
    intros path Hpath. specialize (Hcases path Hpath).
    case_decide; [| by destruct Hcases]. subst sm'. split; [done | by left].
  - unfold Game.victory. wp_steps. gsimpl. split; [done |]. split; [done |].
    intros path Hpath. specialize (Hcases path Hpath).
    case_decide; [| by destruct Hcases as [_ ->]]. subst sm'. split; [done | by right].
Qed.

Lemma escape_ends_the_fight_witness :
  let r := mkRng (λ _, 0.1%Q) 0 in
  let escape now := [Key now "Enter"; Key (now + 1000) "ArrowDown";
                     Key (now + 2000) "ArrowDown"; Key (now + 3000) "ArrowDown";
                     Key (now + 4000) "Enter"] in
  let evs := [Key 1000 "Enter"; Key 2000 "Enter"; Key 3000 "Enter"]
             ++ escape 10000 ++ [Key 20000 "Enter"] ++ escape 30000
             ++ [Key 40000 "Enter"; Key 41000 "ArrowDown"; Key 42000 "ArrowDown";
                 Key 43000 "ArrowDown"] in
  ∃ g, Game.run evs (Game.new r) = Some (tt, g)
    ∧ (isBoss <$> Game.currentScenario g) = Some true
    ∧ Game.state g = COMBAT
    ∧ wp (Game.step (Key 44000 "Enter"))
         (λ _ g', Game.state g' = VICTORY
                  ∧ Player.level (Game.player g') = 1
                  ∧ Player.xp (Game.player g') = 0)
         g.
Proof.
  intros r escape evs.
  assert (Hfair : fair r).
  { intros n. unfold unit_interval, Qle, Qlt. cbn. lia. }
  destruct (run_wf evs (Game.new r) (wf_new r Hfair)) as (a & g & Hrun & Hwf).
  exists g. destruct a. split; [exact Hrun |].
  vm_compute in Hrun. injection Hrun as <-.
  split; [reflexivity |]. split; [reflexivity |].
  eapply wp_mono.
  - eapply (escape_ends_the_fight _ 44000);
      [exact Hwf | reflexivity | reflexivity | reflexivity | by vm_compute | by vm_compute].
  - intros ? g' (Hplayer & _ & Hpath). rewrite Hplayer.
    specialize (Hpath light eq_refl). cbn in Hpath. destruct Hpath as [Hstate _].
    split; [exact Hstate |]. split; reflexivity.
Defined.

(** ** Keys that do nothing *)

(** X20: a key pressed before [keyDelay] milliseconds have passed since
    the last accepted key changes nothing at all; an accepted key that is
    none of Enter, ArrowUp, ArrowDown, Escape, i and I only records its
    time, in every state of the game. *)
Theorem keys_ignored (g : Game.t) (now : Z) (key : string) :
  (now - Game.lastKeyPress g < Game.keyDelay g →
   Game.step (Key now key) g = Some (tt, g))
  ∧ (Game.keyDelay g ≤ now - Game.lastKeyPress g → key ∉ knownKeys →
     Game.step (Key now key) g = Some (tt, Game.with_lastKeyPress now g)).
Proof.
  split.
  - intros Hearly. cbn [Game.step].
    unfold Game.handleKeyPress, Game.bind, Game.gets, Game.ret.
    case_decide; [done | lia].
  - intros Hlate Hkey.
    assert (Hkeys : key ≠ "Enter" ∧ key ≠ "ArrowUp" ∧ key ≠ "ArrowDown"
                    ∧ key ≠ "Escape" ∧ key ≠ "i" ∧ key ≠ "I").
    { unfold knownKeys in Hkey. rewrite !not_elem_of_cons in Hkey. tauto. }
    destruct Hkeys as (H1 & H2 & H3 & H4 & H5 & H6).
    cbn [Game.step].
    unfold Game.handleKeyPress, Game.bind, Game.gets, Game.ret, Game.modify.
    case_decide; [lia |]. gsimpl.
    destruct (Game.state g) eqn:Hstate.
    + by rewrite decide_False.
    + rewrite decide_False; [done | tauto].
    + unfold Game.handleCombatInput, Game.bind, Game.gets, Game.ret. gsimpl.
      destruct (CombatSystem.playerTurn (Game.combatSystem g)); cbn [negb]; [| done].
      by rewrite !decide_False.
    + unfold Game.handleScenarioInput, Game.bind, Game.gets, Game.ret. gsimpl.
      destruct (Game.currentScenario g) as [[? ? choices | ? ? enemy ?] |]; [| | done].
      * by rewrite !decide_False.
      * by rewrite decide_False.
    + unfold Game.handleInventoryInput, Game.bind, Game.gets, Game.ret. gsimpl.
      rewrite !decide_False; [done | tauto | done | done | done].
    + unfold Game.handleLevelUpInput, Game.bind, Game.gets, Game.ret. gsimpl.
      case_decide; by rewrite !decide_False.
    + by rewrite decide_False.
    + by rewrite decide_False.
Qed.

(** ** Bookkeeping *)

Lemma message_bound (n : nat) (msg : string) (log : list string) :
  (length log ≤ n)%nat →
  (length (if decide (n < length (log ++ [msg]))%nat then tail (log ++ [msg])
           else log ++ [msg]) ≤ n)%nat.
Proof.
  intros Hlog.
  assert (Hlen : length (log ++ [msg]) = S (length log))
    by (rewrite length_app; cbn [length]; lia).
  destruct (log ++ [msg]) as [| x l]; cbn [length tail] in *;
    case_decide; cbn [length]; lia.
Qed.

Lemma addLog_bound (msg : string) (cs : CombatSystem.t) :
  (length (CombatSystem.combatLog cs) ≤ 8)%nat →
  (length (CombatSystem.combatLog (CombatSystem.addLog msg cs)) ≤ 8)%nat.
Proof. intros Hlog. unfold CombatSystem.addLog. cbn [CombatSystem.combatLog]. by apply message_bound. Qed.

Lemma startCombat_bound (p : Player.t) (e : Enemy.t) (cs : CombatSystem.t) :
  (length (CombatSystem.combatLog (CombatSystem.startCombat p e cs)) ≤ 8)%nat.
Proof.
  unfold CombatSystem.startCombat. destruct (Qltb _ _); repeat apply addLog_bound; cbn; lia.
Qed.

Lemma playerAttack_bound (p : Player.t) (e : Enemy.t) (cs : CombatSystem.t) (r : Rng) :
  (length (CombatSystem.combatLog cs) ≤ 8)%nat →
  (length (CombatSystem.combatLog (snd (fst (CombatSystem.playerAttack p e cs r)))) ≤ 8)%nat.
Proof.
  intros Hlog. unfold CombatSystem.playerAttack, rbind, rret.
  destruct (Player.calculateDamage p r) as [d r1].
  destruct (Math_random r1) as [q r2].
  destruct (Qltb q _); [by apply addLog_bound |].
  destruct (Enemy.takeDamage d e). by apply addLog_bound.
Qed.

Lemma playerSpecialAttack_bound (p : Player.t) (e : Enemy.t) (cs : CombatSystem.t)
    (r : Rng) :
  (length (CombatSystem.combatLog cs) ≤ 8)%nat →
  (length (CombatSystem.combatLog
             (snd (fst (CombatSystem.playerSpecialAttack p e cs r)))) ≤ 8)%nat.
Proof.
  intros Hlog. unfold CombatSystem.playerSpecialAttack, rbind, rret.
  destruct (Player.calculateSpecialDamage p r) as [d r1].
  destruct (Math_random r1) as [q r2].
  destruct (Qltb q _); [by apply addLog_bound |].
  destruct (Enemy.takeDamage d e). by apply addLog_bound.
Qed.

Lemma enemyTurn_bound (p : Player.t) (e : Enemy.t) (cs : CombatSystem.t) (r : Rng) :
  (length (CombatSystem.combatLog cs) ≤ 8)%nat →
  (length (CombatSystem.combatLog (snd (fst (CombatSystem.enemyTurn p e cs r)))) ≤ 8)%nat
  ∧ Player.inventory (snd (fst (fst (CombatSystem.enemyTurn p e cs r))))
    = Player.inventory p.
Proof.
  intros Hlog. unfold CombatSystem.enemyTurn, rbind, rret.
  destruct (Enemy.chooseAction p e r) as [[|] r1];
    destruct (Enemy.calculateDamage e r1) as [d r2];
    destruct (Math_random r2) as [q r3];
    destruct (Qltb q _); cbn [fst snd];
    (split; [by apply addLog_bound | done]).
Qed.

Lemma attemptEscape_bound (p : Player.t) (e : option Enemy.t) (cs : CombatSystem.t)
    (r : Rng) :
  (length (CombatSystem.combatLog cs) ≤ 8)%nat →
  (length (CombatSystem.combatLog (snd (fst (CombatSystem.attemptEscape p e cs r)))) ≤ 8)%nat.
Proof.
  intros Hlog. unfold CombatSystem.attemptEscape, rbind, rret.
  destruct (Math_random r) as [q r1]. destruct (Qltb q _); by apply addLog_bound.
Qed.

Lemma tidy_intro (g : Game.t) :
  (length (Game.messageLog g) ≤ 5)%nat →
  (length (CombatSystem.combatLog (Game.combatSystem g)) ≤ 8)%nat →
  within_capacity (Player.inventory (Game.player g)) →
  Inventory.maxSlots (Player.inventory (Game.player g)) = CONFIG.INVENTORY_SLOTS →
  tidy g.
Proof. by repeat split. Qed.

Ltac tidy_hyp H :=
  let Hmsg := fresh "Hmsg" in
  let Hlog := fresh "Hlog" in
  let Hcap := fresh "Hcap" in
  let Hmax := fresh "Hmax" in
  destruct H as ((Hmsg & Hlog) & Hcap & Hmax).

(** The goals that a step of a handler leaves for the bookkeeping. *)
Ltac tidy_goal :=
  apply tidy_intro; gsimpl;
  cbn [Player.with_inventory Player.with_tempStats Player.with_health Player.with_xp
       Player.with_baseStats Player.with_chosenPath Player.inventory
       CombatSystem.endTurn CombatSystem.combatLog];
  repeat first
    [ assumption
    | apply message_bound
    | apply startCombat_bound
    | apply playerAttack_bound
    | apply playerSpecialAttack_bound
    | apply attemptEscape_bound ].

Lemma stocked_addItem (item : Item.t) (inv : Inventory.t) :
  within_capacity inv → Inventory.maxSlots inv = CONFIG.INVENTORY_SLOTS →
  within_capacity (snd (Inventory.addItem item inv))
  ∧ Inventory.maxSlots (snd (Inventory.addItem item inv)) = CONFIG.INVENTORY_SLOTS.
Proof.
  intros Hcap Hmax. destruct (addItem_capacity item inv Hcap) as [H1 H2].
  split; [done | congruence].
Qed.

Lemma addXP_inventory (amount : Z) (p : Player.t) :
  Player.inventory (snd (Player.addXP amount p)) = Player.inventory p.
Proof. unfold Player.addXP. by case_decide. Qed.

Lemma Item_use_inventory (item : Item.t) (p : Player.t) :
  Player.inventory (snd (Item_use item p)) = Player.inventory p.
Proof.
  unfold Item_use. destruct (Item.effect item) as [b | f]; [done |].
  case_decide; [| done]. by destruct f.
Qed.

Lemma allocateStat_inventory (stat : string) (p : Player.t) :
  Player.inventory (snd (Player.allocateStat stat p)) = Player.inventory p.
Proof.
  unfold Player.allocateStat. case_decide; [| done].
  by destruct (Player.stat_get stat (Player.baseStats p)).
Qed.

Lemma tidy_new_player (g : Game.t) :
  within_capacity (Player.inventory Player.new)
  ∧ Inventory.maxSlots (Player.inventory Player.new) = CONFIG.INVENTORY_SLOTS.
Proof. split; [unfold within_capacity; vm_compute; discriminate | reflexivity]. Qed.

Lemma victory_tidy (g : Game.t) : tidy g → wlp Game.victory (λ _, tidy) g.
Proof. intros Hg. tidy_hyp Hg. unfold Game.victory. wlp_steps. tidy_goal. Qed.

Lemma gameOver_tidy (g : Game.t) : tidy g → wlp Game.gameOver (λ _, tidy) g.
Proof. intros Hg. tidy_hyp Hg. unfold Game.gameOver. wlp_steps. tidy_goal. Qed.

Lemma proceedToNextScenario_tidy (g : Game.t) :
  tidy g → wlp Game.proceedToNextScenario (λ _, tidy) g.
Proof.
  intros Hg. pose proof Hg as Hg0. tidy_hyp Hg.
  unfold Game.proceedToNextScenario. wlp_steps.
  destruct (ScenarioManager.getNextScenario _ _ (Game.rng g)) as [res r1]. cbn [fst snd].
  apply wlp_nonnull. intros [node sm'] ->. wlp_steps. cbn [fst snd].
  destruct node as [s |]; [wlp_steps; tidy_goal |].
  apply victory_tidy. tidy_goal.
Qed.

Lemma endCombat_tidy (won : bool) (g : Game.t) :
  tidy g → wlp (Game.endCombat won) (λ _, tidy) g.
Proof.
  intros Hg. unfold Game.endCombat. apply wlp_bind.
  apply wlp_mono with (Q := λ _ g', tidy g').
  - destruct won; [| by wlp_steps].
    tidy_hyp Hg. wlp_steps. apply wlp_nonnull. intros enemy Henemy. wlp_steps. gsimpl.
    pose proof (addXP_inventory (Enemy.xpReward enemy) (Game.player g)) as Hinv.
    apply wlp_mono with (Q := λ _ g', tidy g').
    + case_decide; wlp_steps; gsimpl.
      * destruct (randomChoice (Enemy.loot enemy) (Game.rng g)) as [[loot |] r1];
          cbn [fst snd]; wlp_steps; gsimpl.
        -- destruct (stocked_addItem loot
                       (Player.inventory (snd (Player.addXP (Enemy.xpReward enemy)
                                                 (Game.player g)))))
             as [Hcap' Hmax']; [by rewrite Hinv | by rewrite Hinv |].
           destruct (fst (Inventory.addItem loot _)); wlp_steps; tidy_goal.
        -- case_decide; wlp_steps. tidy_goal; by rewrite Hinv.
      * tidy_goal; by rewrite Hinv.
    + intros ? g1 Hg1. cbn beta. destruct (fst (Player.addXP _ _)).
      * tidy_hyp Hg1. wlp_steps. tidy_goal.
      * wlp_steps. destruct (Game.currentScenario g1) as [s |]; [| by wlp_steps].
        destruct (isBoss s); [| by wlp_steps].
        wlp_steps. eapply wlp_mono; [by apply victory_tidy |].
        intros ? g2 Hg2. cbn beta. by wlp_steps.
  - intros continue g1 Hg1. cbn beta. destruct continue; [| by wlp_steps].
    wlp_steps. apply proceedToNextScenario_tidy. tidy_hyp Hg1. tidy_goal.
Qed.

Lemma checkCombatEnd_tidy (g : Game.t) : tidy g → wlp Game.checkCombatEnd (λ _, tidy) g.
Proof.
  intros Hg. unfold Game.checkCombatEnd. wlp_steps.
  apply wlp_nonnull. intros enemy Henemy.
  destruct (negb (Enemy.isAlive enemy)); [by apply endCombat_tidy |].
  wlp_steps. destruct (negb (Player.isAlive (Game.player g))); [by apply gameOver_tidy |].
  wlp_steps. destruct (negb _); wlp_steps; [| done]. tidy_hyp Hg. tidy_goal.
Qed.

Lemma enemyTurnCallback_tidy (g : Game.t) :
  tidy g → wlp Game.enemyTurnCallback (λ _, tidy) g.
Proof.
  intros Hg. tidy_hyp Hg. unfold Game.enemyTurnCallback. wlp_steps.
  apply wlp_nonnull. intros enemy Henemy. wlp_steps.
  apply checkCombatEnd_tidy.
  destruct (enemyTurn_bound (Game.player g) enemy (Game.combatSystem g) (Game.rng g) Hlog)
    as [Hlog' Hinv].
  tidy_goal; by rewrite Hinv.
Qed.

Lemma executeCombatAction_tidy (actionIndex : Z) (g : Game.t) :
  tidy g → wlp (Game.executeCombatAction actionIndex) (λ _, tidy) g.
Proof.
  intros Hg. pose proof Hg as Hg0. tidy_hyp Hg.
  unfold Game.executeCombatAction. repeat case_decide.
  - wlp_steps. apply wlp_nonnull. intros enemy Henemy. wlp_steps.
    apply checkCombatEnd_tidy. tidy_goal.
  - wlp_steps. apply wlp_nonnull. intros enemy Henemy. wlp_steps.
    apply checkCombatEnd_tidy. tidy_goal.
  - wlp_steps. tidy_goal.
  - wlp_steps.
    pose proof (attemptEscape_bound (Game.player g) (Game.currentEnemy g)
                  (Game.combatSystem g) (Game.rng g) Hlog) as Hlog'.
    destruct (CombatSystem.attemptEscape _ _ _ _) as [[escaped cs] r1].
    cbn [fst snd] in *. destruct escaped.
    + apply endCombat_tidy. tidy_goal.
    + wlp_steps. apply checkCombatEnd_tidy. tidy_goal.
  - by apply checkCombatEnd_tidy.
Qed.

Lemma runAction_tidy (a : ChoiceAction) (g : Game.t) :
  tidy g → wlp (Game.runAction a) (λ _, tidy) g.
Proof.
  intros Hg. tidy_hyp Hg.
  assert (Hadd : ∀ item,
            within_capacity (snd (Inventory.addItem item (Player.inventory (Game.player g))))
            ∧ Inventory.maxSlots
                (snd (Inventory.addItem item (Player.inventory (Game.player g))))
              = CONFIG.INVENTORY_SLOTS).
  { intros item. by apply stocked_addItem. }
  pose proof (addXP_inventory 30 (Game.player g)) as H30.
  pose proof (addXP_inventory 40 (Game.player g)) as H40.
  pose proof (addXP_inventory 50 (Game.player g)) as H50.
  destruct a; cbn [Game.runAction]; wlp_steps; gsimpl;
    try (tidy_goal; rewrite ?H30, ?H40; first [assumption | apply Hadd]).
  - destruct (Qltb _ _); wlp_steps; tidy_goal; apply Hadd.
  - case_decide; wlp_steps; tidy_goal; by rewrite ?H50.
Qed.

Lemma handleScenarioInput_tidy (key : string) (g : Game.t) :
  tidy g → wlp (Game.handleScenarioInput key) (λ _, tidy) g.
Proof.
  intros Hg. pose proof Hg as Hg0. tidy_hyp Hg.
  unfold Game.handleScenarioInput. wlp_steps.
  destruct (Game.currentScenario g) as [[title description choices
                                        | title description enemy boss] |].
  - wlp_steps. repeat case_decide; wlp_steps; try done; try tidy_goal.
    apply wlp_nonnull. intros choice Hchoice. apply wlp_bind.
    eapply wlp_mono; [by apply runAction_tidy |].
    intros result g1 Hg1. cbn beta. tidy_hyp Hg1. wlp_steps.
    apply proceedToNextScenario_tidy. tidy_goal.
  - case_decide; wlp_steps; [| done]. unfold Game.startCombat. wlp_steps. tidy_goal.
  - by wlp_steps.
Qed.

Lemma handleCombatInput_tidy (key : string) (g : Game.t) :
  tidy g → wlp (Game.handleCombatInput key) (λ _, tidy) g.
Proof.
  intros Hg. pose proof Hg as Hg0. tidy_hyp Hg.
  unfold Game.handleCombatInput. wlp_steps.
  destruct (negb _); wlp_steps; [done |].
  repeat case_decide; wlp_steps; try done; try tidy_goal.
  by apply executeCombatAction_tidy.
Qed.

Lemma handleInventoryInput_tidy (key : string) (g : Game.t) :
  tidy g → wlp (Game.handleInventoryInput key) (λ _, tidy) g.
Proof.
  intros Hg. pose proof Hg as Hg0. tidy_hyp Hg.
  unfold Game.handleInventoryInput. wlp_steps.
  repeat case_decide; wlp_steps; try done; try tidy_goal.
  destruct (Game.index _ _) as [item |]; [| by wlp_steps].
  case_decide; wlp_steps.
  - pose proof (Item_use_inventory item (Game.player g)) as Hinv.
    destruct (fst (Item_use item (Game.player g))); wlp_steps; gsimpl.
    + destruct (removeItem_capacity item
                  (Player.inventory (snd (Item_use item (Game.player g)))))
        as [Hcap' Hmax']; [by rewrite Hinv |].
      tidy_goal. rewrite Hmax'. by rewrite Hinv.
    + tidy_goal; by rewrite Hinv.
  - gsimpl. destruct (equip_capacity item (Player.inventory (Game.player g)) Hcap)
      as [Hcap' Hmax'].
    tidy_goal. by rewrite Hmax'.
Qed.

Lemma handleLevelUpInput_tidy (key : string) (g : Game.t) :
  tidy g → wlp (Game.handleLevelUpInput key) (λ _, tidy) g.
Proof.
  intros Hg. pose proof Hg as Hg0. tidy_hyp Hg.
  unfold Game.handleLevelUpInput. wlp_steps.
  assert (Hinv : ∀ stat, Player.inventory (snd (Player.allocateStat stat (Game.player g)))
                         = Player.inventory (Game.player g))
    by (intros; apply allocateStat_inventory).
  repeat case_decide; wlp_steps; try done; gsimpl;
    try (case_decide; wlp_steps); tidy_goal; by rewrite Hinv.
Qed.

Lemma step_tidy (ev : Event) (g : Game.t) : tidy g → wlp (Game.step ev) (λ _, tidy) g.
Proof.
  intros Hg. pose proof Hg as Hg0. tidy_hyp Hg.
  destruct (tidy_new_player g) as [Hnew Hnew'].
  destruct ev as [now key |]; cbn [Game.step].
  - unfold Game.handleKeyPress. wlp_steps. case_decide; wlp_steps; [done |]. gsimpl.
    assert (Hg' : tidy (Game.with_lastKeyPress now g)) by tidy_goal.
    destruct (Game.state g).
    + case_decide; wlp_steps; [| done]. unfold Game.startGame. wlp_steps. tidy_goal; cbn; lia.
    + case_decide; wlp_steps; [| done]. tidy_goal.
    + by apply handleCombatInput_tidy.
    + by apply handleScenarioInput_tidy.
    + by apply handleInventoryInput_tidy.
    + by apply handleLevelUpInput_tidy.
    + case_decide; wlp_steps; [| done]. unfold Game.reset. wlp_steps. tidy_goal; cbn; lia.
    + case_decide; wlp_steps; [| done]. unfold Game.reset. wlp_steps. tidy_goal; cbn; lia.
  - wlp_steps. destruct (Game.timers g); wlp_steps; [done |].
    apply enemyTurnCallback_tidy. tidy_goal.
Qed.

Lemma tidy_new (r : Rng) : tidy (Game.new r).
Proof.
  apply tidy_intro; cbn; try lia; [unfold within_capacity; vm_compute; discriminate | done].
Qed.

(** X21: in every state that a game reaches, whatever the keys and the
    draws, the message log holds at most 5 entries and the combat log at
    most 8, and the player holds at most the 15 items that the inventory
    has slots for. *)
Theorem bookkeeping_invariant (r : Rng) (evs : list Event) :
  fair r →
  wp (Game.run evs)
     (λ _ g,
        (length (Game.messageLog g) ≤ 5)%nat
        ∧ (length (CombatSystem.combatLog (Game.combatSystem g)) ≤ 8)%nat
        ∧ (length (Inventory.items (Player.inventory (Game.player g))) ≤ 15)%nat)
     (Game.new r).
Proof.
  intros Hfair.
  assert (Hrun : ∀ g, wf g → tidy g → wp (Game.run evs) (λ _ g', wf g' ∧ tidy g') g).
  { induction evs as [| ev evs IH]; intros g Hwf Hg; cbn [Game.run]; [by wp_steps |].
    wp_steps. eapply wp_mono.
    - apply wp_and_wlp; [by apply step_wf | by apply step_tidy].
    - intros ? g' [Hwf' Hg']. by apply IH. }
  eapply wp_mono; [apply Hrun; [by apply wf_new | apply tidy_new] |].
  intros ? g [_ ((Hmsg & Hlog) & Hcap & Hmax)]. cbn beta.
  split; [done |]. split; [done |].
  unfold within_capacity in Hcap. rewrite Hmax in Hcap.
  unfold CONFIG.INVENTORY_SLOTS in Hcap. lia.
Qed.

Lemma bookkeeping_invariant_witness :
  let r := mkRng (λ _, 0.5%Q) 0 in
  let evs := [Key 1000 "Enter"; Key 2000 "Enter"; Key 3000 "Enter"; Key 4000 "Enter";
              Key 5000 "Enter"; Timer; Key 6000 "Enter"; Timer; Key 7000 "Enter"; Timer;
              Key 8000 "Enter"; Timer; Key 9000 "Enter"; Timer] in
  fair r
  ∧ wp (Game.run evs)
       (λ _ g, length (CombatSystem.combatLog (Game.combatSystem g)) = 8%nat
               ∧ (length (Game.messageLog g) ≤ 5)%nat)
       (Game.new r).
Proof.
  intros r evs.
  assert (Hfair : fair r).
  { intros n. unfold unit_interval, Qle, Qlt. cbn. lia. }
  split; [exact Hfair |].
  destruct (bookkeeping_invariant r evs Hfair) as (a & g & Hrun & Hmsg & _).
  exists a, g. split; [exact Hrun |]. split; [| exact Hmsg].
  vm_compute in Hrun. by injection Hrun as _ <-.
Defined.
